(** * Room-scoped chunked file transfer: relay, sender, receiver, folder groups

    A shallow embedding of
      - src/components/file-share-station.tsx  (sender, receiver, folder groups)
      - src/pages/api/socket/file-share.ts     (room registry and relay)
    and the properties of the transfer protocol proved about it; then of
    the connection set-up (with src/lib/socket/file-share-client.ts), the
    identifiers, the queue of picked files, and the notepad's list of notes.

    JavaScript numbers that hold sizes, counters and indices are integers in
    the program and are modelled as [Z]; the division by the chunk size
    (a power of two) is exact in double precision below 2^53, so
    [Math.ceil(a / b)] is the integer ceiling. *)

From Stdlib Require Import ZArith Lia Strings.Byte Ascii String.
From stdpp Require Import base decidable option list gmap strings pretty fin_maps sets.

Local Open Scope Z_scope.

(** ** JavaScript primitives used by the program *)

(** The contents of an [ArrayBuffer], a [Blob] or a [File]. *)
Abbreviation bytes := (list byte) (only parsing).

(** [Math.ceil(a / b)] for integers [a] and [b]. *)
Definition Math_ceil_div (a b : Z) : Z := - ((- a) / b).

(** [x || d] on numbers: [0] is the falsy number. *)
Definition or_default (x d : Z) : Z := if x =? 0 then d else x.

(** [blob.slice(start, end)] of the File API: negative positions count from
    the end, both positions are clamped to the blob, an empty span gives the
    empty blob. *)
Definition Blob_slice (b : bytes) (start end_ : Z) : bytes :=
  let sz := Z.of_nat (length b) in
  let relativeStart := if start <? 0 then Z.max (sz + start) 0 else Z.min start sz in
  let relativeEnd := if end_ <? 0 then Z.max (sz + end_) 0 else Z.min end_ sz in
  let span := Z.max (relativeEnd - relativeStart) 0 in
  take (Z.to_nat span) (drop (Z.to_nat relativeStart) b).

(** A JavaScript array that may have holes: [None] is a hole. *)
Abbreviation js_array A := (list (option A)) (only parsing).

(** The largest length of a JavaScript array. *)
Definition MAX_ARRAY_LENGTH : Z := 2 ^ 32 - 1.

Definition is_array_length (n : Z) : bool := (0 <=? n) && (n <=? MAX_ARRAY_LENGTH).

(** [new Array(n)]: [n] holes, or a RangeError ([None]) when [n] is not an
    array length. *)
Definition new_Array {A : Type} (n : Z) : option (js_array A) :=
  if is_array_length n then Some (replicate (Z.to_nat n) None) else None.

(** [a[i] = x]. An index past the end extends the array with holes; an [i]
    that is not an array index sets a plain property, which no array method
    sees, so the elements stay as they are. *)
Definition array_set {A : Type} (a : js_array A) (i : Z) (x : A) : js_array A :=
  if (0 <=? i) && (i <? MAX_ARRAY_LENGTH)
  then <[Z.to_nat i := Some x]> (a ++ replicate (S (Z.to_nat i) - length a) None)
  else a.

(** [a.filter(Boolean)] where the elements are objects ([ArrayBuffer]s are
    truthy, also the empty one): holes are skipped, the order is kept. *)
Definition filter_Boolean {A : Type} (a : js_array A) : list A := omap id a.

(** [new Blob(parts)]: the parts' bytes in order. *)
Definition new_Blob (parts : list bytes) : bytes := concat parts.

(** Truthiness of an optional string: [undefined] and [""] are falsy. *)
Definition truthy_string (s : option string) : bool :=
  match s with
  | Some (String _ _) => true
  | _ => false
  end.

(** ** Data model (file-share-station.tsx, lines 9-48) *)

Record TransferMeta : Type := {
  transferId : string;
  name : string;
  size : Z;
  type : string;
  relativePath : option string;
  totalChunks : Z
}.

Inductive IncomingStatus : Type := pending | receiving | complete | error.

Record IncomingTransfer : Type := {
  meta : TransferMeta;
  receivedBytes : Z;
  receivedChunks : Z;
  status : IncomingStatus;
  errorMessage : option string;
  downloadUrl : option N;
  blob : option bytes
}.

Inductive OutgoingStatus : Type := out_pending | sending | out_complete | out_error.

Record OutgoingTransfer : Type := {
  out_meta : TransferMeta;
  sentChunks : Z;
  out_status : OutgoingStatus;
  out_errorMessage : option string
}.

(** A browser [File]: its bytes and the attributes the program reads. *)
Record File : Type := {
  file_name : string;
  file_type : string;
  file_bytes : bytes;
  webkitRelativePath : option string
}.

Definition file_size (f : File) : Z := Z.of_nat (length (file_bytes f)).

Record QueuedFile : Type := {
  q_id : string;
  q_file : File;
  q_name : string;
  q_size : Z;
  q_type : string;
  q_relativePath : option string
}.

Definition FILE_CHUNK_SIZE : Z := 512 * 1024.

(** The protocol messages a peer emits and the relay forwards unchanged. *)
Inductive Message : Type :=
  | file_meta (roomId : string) (m : TransferMeta)
  | file_chunk (roomId : string) (tid : string) (chunkIndex : Z) (chunk : bytes)
  | file_complete (roomId : string) (tid : string)
  | file_error (roomId : string) (tid : string) (message : option string).

#[global] Instance IncomingStatus_eq_dec : EqDecision IncomingStatus.
Proof. solve_decision. Defined.

#[global] Instance OutgoingStatus_eq_dec : EqDecision OutgoingStatus.
Proof. solve_decision. Defined.

(** ** Receiver (file-share-station.tsx, lines 204-302)

    The component keeps the transfers in React state ([incomingFiles]) and the
    slot buffers in a ref ([incomingBuffers]); state updaters run in the order
    they were queued, so the handlers compose sequentially.  Object URLs are
    opaque and fresh: a counter names them. *)

Record Receiver : Type := {
  incomingFiles : list IncomingTransfer;
  incomingBuffers : gmap string (js_array bytes);
  downloadUrls : gset N;
  nextUrl : N
}.

Definition fresh_incoming (m : TransferMeta) : IncomingTransfer :=
  {| meta := m; receivedBytes := 0; receivedChunks := 0; status := pending;
     errorMessage := None; downloadUrl := None; blob := None |}.

(** [socket.on("file:meta", ...)] *)
Definition on_file_meta (m : TransferMeta) (st : Receiver) : Receiver :=
  match new_Array (totalChunks m) with
  | None => st
  | Some slots =>
      {| incomingFiles :=
           filter (λ item, transferId (meta item) ≠ transferId m) (incomingFiles st)
           ++ [fresh_incoming m];
         incomingBuffers := <[transferId m := slots]> (incomingBuffers st);
         downloadUrls := downloadUrls st;
         nextUrl := nextUrl st |}
  end.

Definition chunk_update (tid : string) (chunk : bytes) (incoming : IncomingTransfer)
  : IncomingTransfer :=
  if decide (transferId (meta incoming) ≠ tid) then incoming
  else
    {| meta := meta incoming;
       receivedBytes := receivedBytes incoming + Z.of_nat (length chunk);
       receivedChunks := receivedChunks incoming + 1;
       status := receiving;
       errorMessage := errorMessage incoming;
       downloadUrl := downloadUrl incoming;
       blob := blob incoming |}.

(** [socket.on("file:chunk", ...)] *)
Definition on_file_chunk (tid : string) (chunkIndex : Z) (chunk : bytes) (st : Receiver)
  : Receiver :=
  match incomingBuffers st !! tid with
  | None => st
  | Some buffers =>
      {| incomingFiles := chunk_update tid chunk <$> incomingFiles st;
         incomingBuffers := <[tid := array_set buffers chunkIndex chunk]> (incomingBuffers st);
         downloadUrls := downloadUrls st;
         nextUrl := nextUrl st |}
  end.

Definition complete_update (tid : string) (url : N) (b : bytes) (item : IncomingTransfer)
  : IncomingTransfer :=
  if decide (transferId (meta item) = tid)
  then
    {| meta := meta item;
       receivedBytes := size (meta item);
       receivedChunks := totalChunks (meta item);
       status := complete;
       errorMessage := errorMessage item;
       downloadUrl := Some url;
       blob := Some b |}
  else item.

(** [socket.on("file:complete", ...)] *)
Definition on_file_complete (tid : string) (st : Receiver) : Receiver :=
  match incomingBuffers st !! tid with
  | None => st
  | Some buffers =>
      let orderedChunks := filter_Boolean buffers in
      let b := new_Blob orderedChunks in
      let url := nextUrl st in
      {| incomingFiles := complete_update tid url b <$> incomingFiles st;
         incomingBuffers := delete tid (incomingBuffers st);
         downloadUrls := {[url]} ∪ downloadUrls st;
         nextUrl := N.succ (nextUrl st) |}
  end.

Definition default_receive_error : string := "Terjadi kesalahan saat menerima berkas.".

Definition error_update (tid : string) (message : option string) (incoming : IncomingTransfer)
  : IncomingTransfer :=
  if decide (transferId (meta incoming) = tid)
  then
    {| meta := meta incoming;
       receivedBytes := receivedBytes incoming;
       receivedChunks := receivedChunks incoming;
       status := error;
       errorMessage := Some (default default_receive_error message);
       downloadUrl := downloadUrl incoming;
       blob := blob incoming |}
  else incoming.

(** [socket.on("file:error", ...)] *)
Definition on_file_error (tid : string) (message : option string) (st : Receiver) : Receiver :=
  {| incomingFiles := error_update tid message <$> incomingFiles st;
     incomingBuffers := delete tid (incomingBuffers st);
     downloadUrls := downloadUrls st;
     nextUrl := nextUrl st |}.

(** One relayed message handled by the receiving peer. *)
Definition receive (msg : Message) (st : Receiver) : Receiver :=
  match msg with
  | file_meta _ m => on_file_meta m st
  | file_chunk _ tid chunkIndex chunk => on_file_chunk tid chunkIndex chunk st
  | file_complete _ tid => on_file_complete tid st
  | file_error _ tid message => on_file_error tid message st
  end.

Definition receive_all (msgs : list Message) (st : Receiver) : Receiver :=
  foldl (λ s msg, receive msg s) st msgs.

(** The receiver of a freshly connected component ([resetTransfers]). *)
Definition empty_receiver : Receiver :=
  {| incomingFiles := []; incomingBuffers := ∅; downloadUrls := ∅; nextUrl := 0%N |}.

(** ** Sender (file-share-station.tsx, lines 386-475)

    [sendFile] is an async function: between two [await]s it runs without
    interruption.  It reads nothing from the shared component state (it only
    queues state updaters and emits), so its run is a list of atomic segments
    fixed by the file and by the outcome of each read; [Promise.all] runs the
    segments of the files of a batch interleaved. *)

Record Sender : Type := {
  outgoingFiles : list OutgoingTransfer;
  queuedFiles : list QueuedFile;
  connectionError : option string;
  emitted : list Message
}.

(** The outcome of [await blob.arrayBuffer()]: the bytes of the slice, or a
    rejection, whose reason carries a message when it is an [Error]. *)
Inductive ReadOutcome : Type :=
  | read_ok
  | read_rejected (reason : option string).

(** What the environment decides for a run: the room, the identifier
    [generateTransferId] draws for each file, and the outcome of each read. *)
Record SendEnv : Type := {
  effectiveRoomId : string;
  generateTransferId : QueuedFile → string;
  arrayBuffer : QueuedFile → Z → ReadOutcome
}.

(** [Math.ceil(file.size / FILE_CHUNK_SIZE) || 1] *)
Definition sendFile_totalChunks (f : File) : Z :=
  or_default (Math_ceil_div (file_size f) FILE_CHUNK_SIZE) 1.

Definition sendFile_meta (queued : QueuedFile) (tid : string) : TransferMeta :=
  {| transferId := tid;
     name := file_name (q_file queued);
     size := file_size (q_file queued);
     type := file_type (q_file queued);
     relativePath := q_relativePath queued;
     totalChunks := sendFile_totalChunks (q_file queued) |}.

(** The bytes of chunk [chunkIndex]: [file.slice(start, end)]. *)
Definition sendFile_chunk (f : File) (chunkIndex : Z) : bytes :=
  let start := chunkIndex * FILE_CHUNK_SIZE in
  let end_ := Z.min (start + FILE_CHUNK_SIZE) (file_size f) in
  Blob_slice (file_bytes f) start end_.

(** The atomic segments of [sendFile]. *)
Inductive Action : Type :=
  | act_start (m : TransferMeta)
  | act_chunk (tid : string) (chunkIndex : Z) (chunk : bytes)
  | act_complete (queued_id : string) (tid : string)
  | act_fail (queued_id : string) (tid : string) (message : string).

Definition default_send_error : string := "Tidak dapat mengirim berkas.".

(** The [for] loop of [sendFile] with what follows it; [remaining] counts the
    iterations left, [totalChunks - chunkIndex]. *)
Fixpoint sendFile_loop (env : SendEnv) (queued : QueuedFile) (tid : string)
    (remaining : nat) (chunkIndex : Z) : list Action :=
  match remaining with
  | O => [act_complete (q_id queued) tid]
  | S remaining' =>
      match arrayBuffer env queued chunkIndex with
      | read_rejected reason =>
          [act_fail (q_id queued) tid (default default_send_error reason)]
      | read_ok =>
          act_chunk tid chunkIndex (sendFile_chunk (q_file queued) chunkIndex)
          :: sendFile_loop env queued tid remaining' (chunkIndex + 1)
      end
  end.

Definition sendFile (env : SendEnv) (queued : QueuedFile) : list Action :=
  let tid := generateTransferId env queued in
  act_start (sendFile_meta queued tid)
  :: sendFile_loop env queued tid (Z.to_nat (sendFile_totalChunks (q_file queued))) 0.

Definition action_tid (a : Action) : string :=
  match a with
  | act_start m => transferId m
  | act_chunk tid _ _ => tid
  | act_complete _ tid => tid
  | act_fail _ tid _ => tid
  end.

(** What a segment emits on the socket. *)
Definition action_emits (room : string) (a : Action) : list Message :=
  match a with
  | act_start m => [file_meta room m]
  | act_chunk tid chunkIndex chunk => [file_chunk room tid chunkIndex chunk]
  | act_complete _ tid => [file_complete room tid]
  | act_fail _ tid message => [file_error room tid (Some message)]
  end.

Definition set_outgoing (f : OutgoingTransfer → OutgoingTransfer) (tid : string)
    (item : OutgoingTransfer) : OutgoingTransfer :=
  if decide (transferId (out_meta item) = tid) then f item else item.

(** The state updaters a segment queues. *)
Definition action_outgoing (a : Action) (prev : list OutgoingTransfer)
  : list OutgoingTransfer :=
  match a with
  | act_start m =>
      filter (λ item, transferId (out_meta item) ≠ transferId m) prev
      ++ [ {| out_meta := m; sentChunks := 0; out_status := out_pending;
              out_errorMessage := None |} ]
  | act_chunk tid chunkIndex _ =>
      fmap (set_outgoing (λ item,
             {| out_meta := out_meta item; sentChunks := chunkIndex + 1;
                out_status := sending; out_errorMessage := out_errorMessage item |}) tid) prev
  | act_complete _ tid =>
      fmap (set_outgoing (λ item,
             {| out_meta := out_meta item; sentChunks := sentChunks item;
                out_status := out_complete;
                out_errorMessage := out_errorMessage item |}) tid) prev
  | act_fail _ tid message =>
      fmap (set_outgoing (λ item,
             {| out_meta := out_meta item; sentChunks := sentChunks item;
                out_status := out_error; out_errorMessage := Some message |}) tid) prev
  end.

Definition action_queue (a : Action) (prev : list QueuedFile) : list QueuedFile :=
  match a with
  | act_complete queued_id _ | act_fail queued_id _ _ =>
      filter (λ item, q_id item ≠ queued_id) prev
  | _ => prev
  end.

Definition apply_action (room : string) (a : Action) (st : Sender) : Sender :=
  {| outgoingFiles := action_outgoing a (outgoingFiles st);
     queuedFiles := action_queue a (queuedFiles st);
     connectionError := connectionError st;
     emitted := emitted st ++ action_emits room a |}.

Definition run_actions (room : string) (acts : list Action) (st : Sender) : Sender :=
  foldl (λ s a, apply_action room a s) st acts.

(** An interleaving of the segments of several tasks: each entry of the
    schedule names the task that runs its next segment (an entry that names a
    finished or missing task is skipped); when the schedule is used up the
    tasks left run to their end, as [Promise.all] settles only when all have. *)
Fixpoint interleave {A : Type} (sched : list nat) (tasks : list (list A)) : list A :=
  match sched with
  | [] => concat tasks
  | k :: sched' =>
      match tasks !! k with
      | Some (a :: rest) => a :: interleave sched' (<[k := rest]> tasks)
      | _ => interleave sched' tasks
      end
  end.

Definition PARALLEL_LIMIT : nat := 3.

(** [for (let i = 0; i < queuedFiles.length; i += PARALLEL_LIMIT)
       batch = queuedFiles.slice(i, i + PARALLEL_LIMIT)] *)
Fixpoint batch_loop (fuel i : nat) (queue : list QueuedFile) : list (list QueuedFile) :=
  match fuel with
  | O => []
  | S fuel' =>
      if decide (i < length queue)%nat
      then take PARALLEL_LIMIT (drop i queue)
           :: batch_loop fuel' (i + PARALLEL_LIMIT) queue
      else []
  end.

Definition batches (queue : list QueuedFile) : list (list QueuedFile) :=
  batch_loop (length queue) 0 queue.

(** The segments of a whole run, batch after batch ([await Promise.all]);
    [scheds] gives the schedule of each batch in turn. *)
Fixpoint sendAll_trace (env : SendEnv) (scheds : list (list nat))
    (bs : list (list QueuedFile)) : list Action :=
  match bs with
  | [] => []
  | batch :: bs' =>
      interleave (hd [] scheds) (sendFile env <$> batch)
      ++ sendAll_trace env (tail scheds) bs'
  end.

Definition not_connected_error : string := "Hubungkan dulu sebelum mengirim.".

(** [handleSendQueuedFiles]; [connected] tells whether the socket is there and
    the connection status is "connected". *)
Definition handleSendQueuedFiles (env : SendEnv) (connected : bool)
    (scheds : list (list nat)) (st : Sender) : Sender :=
  if negb connected
  then {| outgoingFiles := outgoingFiles st; queuedFiles := queuedFiles st;
          connectionError := Some not_connected_error; emitted := emitted st |}
  else if decide (length (queuedFiles st) = 0%nat) then st
  else run_actions (effectiveRoomId env)
         (sendAll_trace env scheds (batches (queuedFiles st))) st.

(** The status the sender shows for a transfer. *)
Definition outgoing_status (tid : string) (st : Sender) : list OutgoingStatus :=
  out_status <$> filter (λ item, transferId (out_meta item) = tid) (outgoingFiles st).

(** The messages one file sends when it is the only one. *)
Definition sendFile_messages (env : SendEnv) (queued : QueuedFile) : list Message :=
  emitted (run_actions (effectiveRoomId env) (sendFile env queued)
             {| outgoingFiles := []; queuedFiles := [queued];
                connectionError := None; emitted := [] |}).

(** ** Room registry and relay (pages/api/socket/file-share.ts, lines 28-37)

    The relay is built on socket.io, whose documented primitives are modelled
    here: [client.join(room)] adds the socket to the room's set of socket ids,
    [client.emit] sends one packet to the socket itself, and
    [client.to(room).emit] sends one packet to every socket of the room except
    the sender.  Room names arrive from the network as arbitrary JavaScript
    values; strings are sequences of UTF-16 code units so that [trim] is the
    one of the language. *)

Abbreviation js_string := (list N) (only parsing).

Inductive js_value : Type :=
  | js_undefined
  | js_null
  | js_boolean (b : bool)
  | js_number (z : Z)
  | js_str (s : js_string)
  | js_object.

(** WhiteSpace and LineTerminator code points of ECMAScript. *)
Definition is_js_whitespace (c : N) : bool :=
  ((c =? 9) || (c =? 10) || (c =? 11) || (c =? 12) || (c =? 13) || (c =? 32)
   || (c =? 160) || (c =? 5760) || ((8192 <=? c) && (c <=? 8202))
   || (c =? 8232) || (c =? 8233) || (c =? 8239) || (c =? 8287)
   || (c =? 12288) || (c =? 65279))%N.

Fixpoint trimStart (s : js_string) : js_string :=
  match s with
  | c :: s' => if is_js_whitespace c then trimStart s' else s
  | [] => []
  end.

(** [s.trim()] *)
Definition trim (s : js_string) : js_string :=
  reverse (trimStart (reverse (trimStart s))).

Inductive RelayEvent : Type := room_joined | peer_joined | peer_left.

#[global] Instance RelayEvent_eq_dec : EqDecision RelayEvent.
Proof. solve_decision. Defined.

(** A packet the relay sends: to which socket, which event, for which room. *)
Record Packet : Type := {
  pkt_to : js_string;
  pkt_event : RelayEvent;
  pkt_roomId : js_string
}.

(** The adapter's room table: room name to the ids of its sockets. *)
Record Relay : Type := {
  rooms : gmap js_string (gset js_string)
}.

Definition members (st : Relay) (room : js_string) : gset js_string :=
  default ∅ (rooms st !! room).

(** [client.join(room)] *)
Definition socket_join (client room : js_string) (st : Relay) : Relay :=
  {| rooms := <[room := {[client]} ∪ members st room]> (rooms st) |}.

(** [client.emit(event, { roomId })] *)
Definition socket_emit (client : js_string) (event : RelayEvent) (room : js_string)
  : list Packet :=
  [ {| pkt_to := client; pkt_event := event; pkt_roomId := room |} ].

(** [client.to(room).emit(event, { roomId })] *)
Definition socket_to_emit (client room : js_string) (event : RelayEvent) (st : Relay)
  : list Packet :=
  (λ peer, {| pkt_to := peer; pkt_event := event; pkt_roomId := room |})
    <$> elements (members st room ∖ {[client]}).

(** The body of [client.on("room:join", ({ roomId }) => ...)], once the
    payload is destructured. *)
Definition on_room_join (client : js_string) (roomId : js_value) (st : Relay)
  : Relay * list Packet :=
  match roomId with
  | js_str room =>
      if decide (trim room = [])
      then (st, [])
      else
        let st' := socket_join client room st in
        (st', socket_emit client room_joined room
              ++ socket_to_emit client room peer_joined st')
  | _ => (st, [])
  end.

(** How a call of a listener ends: it returns, or an exception leaves it. *)
Inductive Completion (A : Type) : Type :=
  | returns (result : A)
  | throws_TypeError.
Arguments returns {A} _.
Arguments throws_TypeError {A}.

(** The listener of [room:join] as socket.io calls it.  Its parameter is the
    pattern [{ roomId }]: the payload is destructured before the body runs,
    which throws a [TypeError] when the packet carries no payload
    ([undefined]) or [null].  [payload] is [None] for such a packet and
    otherwise the value its [roomId] property reads as ([js_undefined] when
    it has none). *)
Definition room_join_listener (client : js_string) (payload : option js_value)
    (st : Relay) : Completion (Relay * list Packet) :=
  match payload with
  | None => throws_TypeError
  | Some roomId => returns (on_room_join client roomId st)
  end.

(** How many packets of an event a socket gets. *)
Definition received (who : js_string) (event : RelayEvent) (pkts : list Packet) : nat :=
  length (filter (λ p, pkt_to p = who ∧ pkt_event p = event) pkts).

(** ** Folder groups (file-share-station.tsx, lines 477-572) *)

(** [s.split("/")]: the pieces between the separators, at least one. *)
Fixpoint split_slash (s : string) : list string :=
  match s with
  | EmptyString => [EmptyString]
  | String c s' =>
      if decide (c = "/"%char) then EmptyString :: split_slash s'
      else
        match split_slash s' with
        | piece :: pieces => String c piece :: pieces
        | [] => [String c EmptyString]
        end
  end.

Record FolderGroup : Type := {
  folderName : string;
  files : list IncomingTransfer
}.

(** [existing = groups.get(rootFolder) ?? { folderName: rootFolder, files: [] };
     existing.files.push(transfer); groups.set(rootFolder, existing)]
    on a [Map], which keeps the keys in the order of their first insertion. *)
Fixpoint groups_push (rootFolder : string) (transfer : IncomingTransfer)
    (groups : list FolderGroup) : list FolderGroup :=
  match groups with
  | [] => [ {| folderName := rootFolder; files := [transfer] |} ]
  | g :: groups' =>
      if decide (folderName g = rootFolder)
      then {| folderName := folderName g; files := files g ++ [transfer] |} :: groups'
      else g :: groups_push rootFolder transfer groups'
  end.

(** The body of [incomingFiles.forEach] in [folderGroups]. *)
Definition folderGroups_step (groups : list FolderGroup) (transfer : IncomingTransfer)
  : list FolderGroup :=
  if negb (truthy_string (relativePath (meta transfer))) then groups
  else
    match split_slash (default EmptyString (relativePath (meta transfer))) with
    | rootFolder :: _ =>
        if negb (truthy_string (Some rootFolder)) then groups
        else groups_push rootFolder transfer groups
    | [] => groups
    end.

Definition folderGroups (incoming : list IncomingTransfer) : list FolderGroup :=
  foldl folderGroups_step [] incoming.

(** What the environment decides for a save: whether the browser has the
    directory picker, and how the chosen path goes. *)
Inductive SaveEnv : Type :=
  | zip_ok
  | zip_fails (reason : option string)
  | picker_aborted
  | directory_ok
  | directory_fails (written : nat) (reason : option string).

(** What a save does outside the component: an archive is offered for
    download, made from the [zip.file(name, data)] calls listed, in order; or
    a file is written under the picked directory. *)
Inductive SaveEffect : Type :=
  | download_zip (archive : string) (added : list (string * bytes))
  | write_file (segments : list string) (fileName : string) (content : bytes).

Record FolderUi : Type := {
  folderActionMessage : option string;
  processingFolder : option string
}.

(** [downloadFolderAsZip]: the [zip.file(relativePath, blob)] calls, in order,
    a transfer without payload being skipped.  What the archive holds in the
    end is JSZip's: a later call with the name of an earlier one takes its
    place, and entries are added for the directories. *)
Definition zip_entries (group_files : list IncomingTransfer) : list (string * bytes) :=
  omap (λ transfer,
          match blob transfer with
          | None => None
          | Some b =>
              Some (default (name (meta transfer)) (relativePath (meta transfer)), b)
          end) group_files.

(** One file of the directory write: the path pieces without the empty ones,
    the last of them the file name. *)
Definition directory_entry (transfer : IncomingTransfer) : SaveEffect :=
  let path := default (name (meta transfer)) (relativePath (meta transfer)) in
  let segments := filter (λ s, s ≠ EmptyString) (split_slash path) in
  write_file (removelast segments) (List.last segments (name (meta transfer)))
             (default [] (blob transfer)).

Definition msg_not_found : string := "Folder tidak ditemukan dalam antrian penerimaan.".
Definition msg_incomplete : string :=
  "Pastikan semua berkas dalam folder selesai diterima sebelum menyimpan.".
Definition msg_zip_failed : string := "Gagal membuat arsip folder.".
Definition msg_aborted : string := "Penyimpanan folder dibatalkan.".
Definition msg_save_failed : string := "Gagal menyimpan folder.".
Definition quote : string := String (ascii_of_nat 34) EmptyString.
Definition msg_zipped (folder : string) : string :=
  ("Folder " ++ quote ++ folder ++ quote ++ " dikemas sebagai arsip ZIP.")%string.
Definition msg_saved (folder : string) : string :=
  ("Folder " ++ quote ++ folder ++ quote ++ " berhasil disimpan.")%string.

(** [file.status !== "complete" || !file.blob] *)
Definition incomplete_file (file : IncomingTransfer) : bool :=
  negb (bool_decide (status file = complete)) || negb (bool_decide (is_Some (blob file))).

Definition set_message (message : string) (ui : FolderUi) : FolderUi :=
  {| folderActionMessage := Some message; processingFolder := processingFolder ui |}.

(** [handleSaveFolder]: the component state afterwards and what was done
    outside it.  [processingFolder] is set while the save runs and is [null]
    again when it ends. *)
Definition handleSaveFolder (env : SaveEnv) (folder : string)
    (incoming : list IncomingTransfer) (ui : FolderUi) : FolderUi * list SaveEffect :=
  match List.find (λ group, bool_decide (folderName group = folder)) (folderGroups incoming) with
  | None => (set_message msg_not_found ui, [])
  | Some targetGroup =>
      if existsb incomplete_file (files targetGroup)
      then (set_message msg_incomplete ui, [])
      else
        let finished message :=
          {| folderActionMessage := Some message; processingFolder := None |} in
        match env with
        | zip_ok =>
            (finished (msg_zipped folder),
             [download_zip (folder ++ ".zip")%string (zip_entries (files targetGroup))])
        | zip_fails reason => (finished (default msg_zip_failed reason), [])
        | picker_aborted => (finished msg_aborted, [])
        | directory_ok =>
            (finished (msg_saved folder), directory_entry <$> files targetGroup)
        | directory_fails written reason =>
            (finished (default msg_save_failed reason),
             directory_entry <$> take written (files targetGroup))
        end
  end.

(** ** Vocabulary of the specification *)

(** The ceiling in the words of the specification: the least integer [q]
    with [a / b <= q], for [b > 0]. *)
Definition is_ceiling (q a b : Z) : Prop :=
  a ≤ b * q ∧ ∀ q', a ≤ b * q' → q ≤ q'.

(** A transfer that is complete or in error has no slot buffer left. *)
Definition terminal_released (st : Receiver) : Prop :=
  ∀ t, t ∈ incomingFiles st → status t = complete ∨ status t = error →
       incomingBuffers st !! transferId (meta t) = None.

(** The receiver states a component can be in. *)
Inductive reachable : Receiver → Prop :=
  | reachable_empty : reachable empty_receiver
  | reachable_receive msg st : reachable st → reachable (receive msg st).

Definition is_terminal (s : IncomingStatus) : bool :=
  match s with
  | complete | error => true
  | _ => false
  end.

(** The bytes of [b] at the positions [lo <= p < hi]. *)
Definition byte_range (b : bytes) (lo hi : Z) : bytes :=
  take (Z.to_nat (hi - lo)) (drop (Z.to_nat lo) b).

(** The transfer a message belongs to. *)
Definition msg_tid (msg : Message) : string :=
  match msg with
  | file_meta _ m => transferId m
  | file_chunk _ tid _ _ => tid
  | file_complete _ tid => tid
  | file_error _ tid _ => tid
  end.

(** The chunk messages of one transfer for the chunks [cs], numbered from [k]. *)
Fixpoint chunk_messages (room tid : string) (k : Z) (cs : list bytes) : list Message :=
  match cs with
  | [] => []
  | c :: cs' => file_chunk room tid k c :: chunk_messages room tid (k + 1) cs'
  end.

(** The receiver holds, for the transfer [tid] with meta [m], the chunks
    [done_] in its first slots and [r] empty slots after them. *)
Definition filling (tid : string) (m : TransferMeta) (done_ : list bytes) (r : nat)
    (st : Receiver) : Prop :=
  incomingBuffers st !! tid = Some ((Some <$> done_) ++ replicate r None)
  ∧ ∃ t, filter (λ item, transferId (meta item) = tid) (incomingFiles st) = [t]
         ∧ meta t = m.

(** Every read of the file succeeds / some read of the file is rejected. *)
Definition reads_ok (env : SendEnv) (queued : QueuedFile) : Prop :=
  ∀ i, 0 ≤ i < sendFile_totalChunks (q_file queued) → arrayBuffer env queued i = read_ok.

Definition read_fails (env : SendEnv) (queued : QueuedFile) : Prop :=
  ∃ i, 0 ≤ i < sendFile_totalChunks (q_file queued) ∧ arrayBuffer env queued i ≠ read_ok.

(** The interleavings of the segments of several tasks: in each step some
    task runs its next segment, until every task is finished. *)
Inductive interleaving {A : Type} : list (list A) → list A → Prop :=
  | interleaving_done tasks :
      Forall (λ task, task = []) tasks → interleaving tasks []
  | interleaving_step tasks k a rest trace :
      tasks !! k = Some (a :: rest) →
      interleaving (<[k := rest]> tasks) trace →
      interleaving tasks (a :: trace).

(** The first [/]-separated segment of a path: what comes before its first
    [/]. *)
Fixpoint first_segment (p : string) : string :=
  match p with
  | EmptyString => EmptyString
  | String c p' =>
      if decide (c = "/"%char) then EmptyString else String c (first_segment p')
  end.

(** The folder a transfer belongs to: the first segment of its relativePath,
    when it has a path and that segment is not empty. *)
Definition folder_of (t : IncomingTransfer) : option string :=
  match relativePath (meta t) with
  | Some p =>
      if decide (first_segment p = EmptyString) then None else Some (first_segment p)
  | None => None
  end.

(** A member of a group is ready: complete, with its payload. *)
Definition ready (t : IncomingTransfer) : Prop :=
  status t = complete ∧ is_Some (blob t).

(** The grouping as the claim words it: every transfer with a relativePath
    is in the group named by the first segment of the path. *)
Definition grouped_by_first_segment (incoming : list IncomingTransfer) : Prop :=
  ∀ t p, t ∈ incoming → relativePath (meta t) = Some p →
         ∃ g, g ∈ folderGroups incoming ∧ folderName g = first_segment p ∧ t ∈ files g.

(** The entries of one transfer, on the receiving and on the sending side. *)
Abbreviation incoming_of tid :=
  (λ item : IncomingTransfer, transferId (meta item) = tid).
Abbreviation outgoing_of tid :=
  (λ item : OutgoingTransfer, transferId (out_meta item) = tid).

(** A queued state updater applied to the outgoing transfers. *)
Abbreviation outgoing_step :=
  (λ (prev : list OutgoingTransfer) (a : Action), action_outgoing a prev).

(** The files of a group are the transfers of its folder, in arrival order. *)
Abbreviation exact_group incoming :=
  (λ g : FolderGroup,
     files g = filter (λ t, folder_of t = Some (folderName g)) incoming
     ∧ folderName g ≠ EmptyString ∧ files g ≠ []).

(** ** Example data *)

Definition demo_meta : TransferMeta :=
  {| transferId := "t1"; name := "a.txt"; size := 6; type := "text/plain";
     relativePath := None; totalChunks := 2 |}.

Definition demo_chunk0 : bytes := [x61; x62; x63].
Definition demo_chunk1 : bytes := [x64; x65; x66].

(** A receiver that has got the meta and the first of two chunks. *)
Definition demo_receiving : Receiver :=
  receive_all [file_meta "ab12" demo_meta; file_chunk "ab12" "t1" 0 demo_chunk0]
              empty_receiver.

(** A receiver that has got a whole transfer. *)
Definition demo_completed : Receiver :=
  receive_all [file_chunk "ab12" "t1" 1 demo_chunk1; file_complete "ab12" "t1"]
              demo_receiving.

Definition demo_file : File :=
  {| file_name := "a.txt"; file_type := "text/plain";
     file_bytes := [x61; x62; x63]; webkitRelativePath := None |}.

Definition demo_queue_entry (qid : string) (f : File) (path : option string) : QueuedFile :=
  {| q_id := qid; q_file := f; q_name := file_name f; q_size := file_size f;
     q_type := file_type f; q_relativePath := path |}.

Definition demo_queued : QueuedFile := demo_queue_entry "q1" demo_file None.

(** An environment in which every read succeeds. *)
Definition demo_env : SendEnv :=
  {| effectiveRoomId := "ab12";
     generateTransferId := λ queued, ("tid-" ++ q_id queued)%string;
     arrayBuffer := λ _ _, read_ok |}.

(** The messages of [demo_queued] as a peer gets them, those of another
    transfer between them. *)
Definition demo_delivered : list Message :=
  [ file_chunk "ab12" "t1" 1 demo_chunk1;
    file_meta "ab12" (sendFile_meta demo_queued "tid-q1");
    file_complete "ab12" "t1";
    file_chunk "ab12" "tid-q1" 0 [x61; x62; x63];
    file_error "ab12" "t9" None;
    file_complete "ab12" "tid-q1" ].

(** Five queued files; the reads of the second and the fourth are rejected. *)
Definition demo_queue5 : list QueuedFile :=
  [ demo_queue_entry "q1" demo_file None;
    demo_queue_entry "q2" demo_file None;
    demo_queue_entry "q3" demo_file (Some "docs/a.txt");
    demo_queue_entry "q4" demo_file (Some "docs/sub/b.txt");
    demo_queue_entry "q5" demo_file None ].

Definition demo_env5 : SendEnv :=
  {| effectiveRoomId := "ab12";
     generateTransferId := λ queued, ("tid-" ++ q_id queued)%string;
     arrayBuffer := λ queued _,
       if (String.eqb (q_id queued) "q2" || String.eqb (q_id queued) "q4")%bool
       then read_rejected (Some "NotReadableError")
       else read_ok |}.

Definition demo_sender5 : Sender :=
  {| outgoingFiles := []; queuedFiles := demo_queue5; connectionError := None;
     emitted := [] |}.

Definition demo_scheds : list (list nat) := [[2; 0; 1; 1; 0; 2]; [1; 0]]%nat.

(** The room "ab12" and two connected sockets, "A" and "B"; socket.io puts
    every socket into the room named by its own id.  "A" has joined. *)
Definition demo_room : js_string := [97; 98; 49; 50]%N.
Definition socket_A : js_string := [65]%N.
Definition socket_B : js_string := [66]%N.

Definition demo_relay : Relay :=
  (on_room_join socket_A (js_str demo_room)
     {| rooms := {[ socket_A := {[ socket_A ]}; socket_B := {[ socket_B ]} ]} |}).1.

(** Incoming transfers: two of the folder "docs", one file outside any folder,
    one whose path starts with the separator. *)
Definition demo_incoming (path : option string) (s : IncomingStatus) (b : option bytes)
  : IncomingTransfer :=
  {| meta := {| transferId := "t"; name := "f"; size := 3; type := "";
                relativePath := path; totalChunks := 1 |};
     receivedBytes := 3; receivedChunks := 1; status := s; errorMessage := None;
     downloadUrl := None; blob := b |}.

Definition demo_docs_a : IncomingTransfer :=
  demo_incoming (Some "docs/a.txt") complete (Some demo_chunk0).
Definition demo_docs_b : IncomingTransfer :=
  demo_incoming (Some "docs/sub/b.txt") receiving None.
Definition demo_loose : IncomingTransfer :=
  demo_incoming None complete (Some demo_chunk1).
Definition demo_rooted : IncomingTransfer :=
  demo_incoming (Some "/a.txt") complete (Some demo_chunk0).

Definition demo_ui : FolderUi := {| folderActionMessage := None; processingFolder := None |}.

(** ** Invariants of the receiver *)


(** A slot buffer is registered exactly for the listed transfers that are
    pending or receiving, and for nothing else. *)
Definition buffers_in_flight (st : Receiver) : Prop :=
  (∀ t, t ∈ incomingFiles st →
     (is_Some (incomingBuffers st !! transferId (meta t))
      ↔ status t = pending ∨ status t = receiving))
  ∧ ∀ tid, is_Some (incomingBuffers st !! tid) →
      ∃ t, t ∈ incomingFiles st ∧ transferId (meta t) = tid.


(** ** Assembly in terms of the chunk messages received *)

Definition is_array_index (i : Z) : bool := (0 <=? i) && (i <? MAX_ARRAY_LENGTH).

(** The chunk messages of one transfer among [msgs], as writes (index,
    bytes), in the order of arrival. *)
Definition chunk_writes (tid : string) (msgs : list Message) : list (Z * list byte) :=
  omap (λ msg,
          match msg with
          | file_chunk _ t k c => if decide (t = tid) then Some (k, c) else None
          | _ => None
          end) msgs.

(** The bytes last written at the array index [i], if any write went there. *)
Fixpoint last_write (writes : list (Z * list byte)) (i : nat) : option (list byte) :=
  match writes with
  | [] => None
  | (k, c) :: rest =>
      match last_write rest i with
      | Some c' => Some c'
      | None => if is_array_index k && (Z.to_nat k =? i)%nat then Some c else None
      end
  end.

(** The total byte length of the writes. *)
Definition writes_bytes (writes : list (Z * list byte)) : Z :=
  foldr (λ w total, Z.of_nat (length w.2) + total) 0 writes.

(** Among [msgs] the transfer [tid] has chunk messages only: no meta, no
    completion, no error. *)
Definition only_chunks_of (tid : string) (msgs : list Message) : Prop :=
  Forall (λ msg, msg_tid msg = tid → ∃ room k c, msg = file_chunk room tid k c) msgs.

(** A transfer of three declared chunks of which the middle one never comes,
    the others out of order and between messages of another transfer. *)
Definition demo_meta3 : TransferMeta :=
  {| transferId := "t1"; name := "a.txt"; size := 9; type := "text/plain";
     relativePath := None; totalChunks := 3 |}.

Definition demo_gap_delivered : list Message :=
  [ file_chunk "ab12" "t1" 2 demo_chunk1;
    file_chunk "ab12" "t9" 1 [x00];
    file_chunk "ab12" "t1" 0 demo_chunk0 ].

(** The one chunk of [demo_queued], after a message of another transfer. *)
Definition demo_any_order : list Message :=
  [ file_error "ab12" "t9" None; file_chunk "ab12" "tid-q1" 0 [x61; x62; x63] ].

(** ** Runs of the send queue *)

(** The read of chunk [k] is the first one rejected, with [reason]. *)
Definition first_failure (env : SendEnv) (queued : QueuedFile) (k : Z)
    (reason : option string) : Prop :=
  0 ≤ k < sendFile_totalChunks (q_file queued)
  ∧ (∀ i, 0 ≤ i < k → arrayBuffer env queued i = read_ok)
  ∧ arrayBuffer env queued k = read_rejected reason.

(** The queue entry a segment removes ([finally] of [sendFile]). *)
Definition action_dequeues (a : Action) : option string :=
  match a with
  | act_complete queued_id _ | act_fail queued_id _ _ => Some queued_id
  | _ => None
  end.

(** The messages a run of the queue puts on the socket. *)
Definition sent_in_run (env : SendEnv) (scheds : list (list nat)) (st : Sender)
  : list Message :=
  drop (length (emitted st)) (emitted (handleSendQueuedFiles env true scheds st)).

(** ** The other handlers of the relay (file-share.ts, lines 39-89) *)

(** [client.leave(room)]: the adapter takes the socket out of the room's set
    and drops the room when the set gets empty. *)
Definition socket_leave (client room : js_string) (st : Relay) : Relay :=
  match rooms st !! room with
  | None => st
  | Some sockets =>
      let sockets' := sockets ∖ {[client]} in
      if decide (sockets' = ∅)
      then {| rooms := delete room (rooms st) |}
      else {| rooms := <[room := sockets']> (rooms st) |}
  end.

(** The body of [client.on("room:leave", ({ roomId }) => ...)], once the
    payload is destructured. *)
Definition on_room_leave (client : js_string) (roomId : js_value) (st : Relay)
  : Relay * list Packet :=
  match roomId with
  | js_str room =>
      if decide (trim room = [])
      then (st, [])
      else
        let st' := socket_leave client room st in
        (st', socket_to_emit client room peer_left st')
  | _ => (st, [])
  end.

(** The listener of [room:leave]; its parameter is the pattern [{ roomId }]
    as well. *)
Definition room_leave_listener (client : js_string) (payload : option js_value)
    (st : Relay) : Completion (Relay * list Packet) :=
  match payload with
  | None => throws_TypeError
  | Some roomId => returns (on_room_leave client roomId st)
  end.

(** The transfer events the relay forwards. *)
Inductive FileEvent : Type := ev_file_meta | ev_file_chunk | ev_file_complete | ev_file_error.

#[global] Instance FileEvent_eq_dec : EqDecision FileEvent.
Proof. solve_decision. Defined.

(** A forwarded packet: to which socket, which event, and the payload the
    relay got, as it got it. *)
Record Forwarded (P : Type) : Type := {
  fwd_to : js_string;
  fwd_event : FileEvent;
  fwd_payload : P
}.
Arguments fwd_to {P} _.
Arguments fwd_event {P} _.
Arguments fwd_payload {P} _.

(** [client.on("file:...", (payload) => ...)], the same for the four events.
    The payload is opaque but for its [roomId]; [None] is a missing payload,
    which [payload ?? {}] turns into an object without [roomId]. *)
Definition on_file_event {P : Type} (roomId_of : P → js_value) (event : FileEvent)
    (client : js_string) (payload : option P) (st : Relay) : list (Forwarded P) :=
  match payload with
  | None => []
  | Some p =>
      match roomId_of p with
      | js_str room =>
          if decide (trim room = []) then []
          else (λ peer, {| fwd_to := peer; fwd_event := event; fwd_payload := p |})
                 <$> elements (members st room ∖ {[client]})
      | _ => []
      end
  end.

(** The body of [client.on("disconnect", ...)], given what [client.rooms]
    holds when it runs. *)
Definition on_disconnect (client : js_string) (client_rooms : list js_string) (st : Relay)
  : list Packet :=
  let joinedRooms := filter (λ room, room ≠ client) client_rooms in
  joinedRooms ≫= (λ roomId, socket_to_emit client roomId peer_left st).

(** [client.rooms]: the rooms whose set holds the socket. *)
Definition rooms_of (client : js_string) (st : Relay) : list js_string :=
  (map_to_list (filter (λ entry, client ∈ entry.2) (rooms st))).*1.

(** What socket.io does with the rooms when a socket disconnects: the socket
    is taken out of every room it is in, and a room left empty is dropped. *)
Definition socket_leave_all (client : js_string) (st : Relay) : Relay :=
  {| rooms := omap (λ sockets,
                      if decide (client ∈ sockets)
                      then if decide (sockets ∖ {[client]} = ∅) then None
                           else Some (sockets ∖ {[client]})
                      else Some sockets) (rooms st) |}.

(** A socket disconnects: socket.io first takes it out of every room, then
    fires ["disconnect"], and the relay's listener reads [client.rooms]. *)
Definition socket_disconnect (client : js_string) (st : Relay) : Relay * list Packet :=
  let st' := socket_leave_all client st in
  (st', on_disconnect client (rooms_of client st') st').

(** The adapter keeps no empty room. *)
Definition no_empty_rooms (st : Relay) : Prop :=
  ∀ room, rooms st !! room ≠ Some ∅.

(** A payload for the forwarding handlers: its [roomId] and the rest. *)
Record DemoPayload : Type := { demo_roomId : js_value; demo_body : nat }.

(** ** Connecting (file-share-station.tsx, lines 50-61, 131-132 and 164-185;
    file-share-client.ts)

    What the component hands to socket.io when the user connects: the server
    to reach and, once connected, the [room:join] request. *)

(** The UTF-16 code units of an ASCII literal. *)
Definition code_units (s : string) : js_string := N_of_ascii <$> list_ascii_of_string s.

(** [s.startsWith(prefix)] *)
Definition startsWith (prefix s : js_string) : bool := bool_decide (prefix `prefix_of` s).

Definition ensureEndpoint (raw : js_string) : option js_string :=
  let trimmed := trim raw in
  if decide (trimmed = []) then None
  else if startsWith (code_units "http://") trimmed || startsWith (code_units "https://") trimmed
       then Some trimmed
       else Some (code_units "http://" ++ trimmed).

(** Where [io] connects: the page's own origin, or a URL. *)
Inductive IoTarget : Type := io_same_origin | io_url (url : js_string).

Definition connectFileShareSocket (endpoint : option js_string) : IoTarget :=
  match endpoint with
  | Some e =>
      if bool_decide (e ≠ []) && bool_decide (trim e ≠ [])
      then io_url (trim e) else io_same_origin
  | None => io_same_origin
  end.

(** The component's connection state; [effectiveRoomId] is the one the
    sender's environment carries. *)
Module Connect.

Definition effectiveRoomId (roomId : js_string) : js_string := trim roomId.

Definition canConnect (roomId : js_string) : bool :=
  bool_decide (0 < length (effectiveRoomId roomId))%nat.

Definition msg_room_required : string := "Room ID wajib diisi.".

(** [handleConnect]: refused with a message, or a socket opened to a target
    that sends the [room:join] payload when it connects. *)
Inductive ConnectOutcome : Type :=
  | connect_refused (message : string)
  | connect_started (target : IoTarget) (join_roomId : js_value).

Definition handleConnect (ipAddress roomId : js_string) : ConnectOutcome :=
  if negb (canConnect roomId) then connect_refused msg_room_required
  else connect_started (connectFileShareSocket (ensureEndpoint ipAddress))
                       (js_str (effectiveRoomId roomId)).

End Connect.

(** ** Identifiers (file-share-station.tsx, lines 65-81)

    [generateHexId] draws [byteLength] random bytes, from
    [crypto.getRandomValues] or from [Math.random], and prints them; the
    bytes drawn are the argument here. *)

(** The digit characters of [toString(16)]: 0-9 and a-f. *)
Definition hex_digit (d : N) : N := (if d <? 10 then 48 + d else 87 + d)%N.

Fixpoint toString16_digits (fuel : nat) (n : N) : js_string :=
  match fuel with
  | O => []
  | S fuel' =>
      if (n <? 16)%N then [hex_digit n]
      else toString16_digits fuel' (n / 16) ++ [hex_digit (n mod 16)]
  end.

(** [n.toString(16)] of a non-negative integer. *)
Definition toString16 (n : N) : js_string :=
  toString16_digits (S (N.to_nat (N.log2 n))) n.

(** [s.padStart(targetLength, fill)] for a one-character [fill]. *)
Definition padStart (targetLength : nat) (fill : N) (s : js_string) : js_string :=
  replicate (targetLength - length s) fill ++ s.

Definition byte_hex (b : byte) : js_string := padStart 2 48%N (toString16 (Byte.to_N b)).

(** [random i] is the byte drawn for index [i] of the buffer. *)
Definition generateHexId (byteLength : nat) (random : nat → byte) : js_string :=
  let buffer := random <$> seq 0 byteLength in
  mjoin (byte_hex <$> buffer).

Definition generateRoomId (random : nat → byte) : js_string := generateHexId 4 random.

Definition is_hex_char (c : N) : bool :=
  ((48 <=? c) && (c <=? 57) || (97 <=? c) && (c <=? 102))%N.

(** Reading an identifier back: the inverse used to compare identifiers. *)
Definition hex_value (c : N) : option N :=
  if ((48 <=? c) && (c <=? 57))%N then Some (c - 48)%N
  else if ((97 <=? c) && (c <=? 102))%N then Some (c - 87)%N
  else None.

Fixpoint parse_hex_bytes (s : js_string) : option (list byte) :=
  match s with
  | [] => Some []
  | hi :: lo :: s' =>
      h ← hex_value hi; l ← hex_value lo;
      b ← Byte.of_N (16 * h + l);
      rest ← parse_hex_bytes s';
      Some (b :: rest)
  | _ => None
  end.

Definition demo_ip : js_string := code_units " 192.168.1.7:3000 ".
Definition demo_random (i : nat) : byte :=
  nth i [x00; x9f; xa0; xff] x2a.
Definition demo_typed_room : js_string := code_units "  ab12 ".

(** ** Resetting (file-share-station.tsx, lines 147-162)

    [downloadUrls] holds the object URLs that are created and not revoked. *)

(** The [forEach] of [resetTransfers]: the URL of every listed transfer is
    revoked and forgotten. *)
Definition revoke_listed (live : gset N) (items : list IncomingTransfer) : gset N :=
  foldl (λ urls item,
           match downloadUrl item with
           | Some url => urls ∖ {[url]}
           | None => urls
           end) live items.

(** [resetTransfers], the receiving side. *)
Definition resetTransfers (st : Receiver) : Receiver :=
  {| incomingFiles := [];
     incomingBuffers := ∅;
     downloadUrls := revoke_listed (downloadUrls st) (incomingFiles st);
     nextUrl := nextUrl st |}.

(** The transfer identifiers announced by the [file:meta] messages. *)
Definition announced (msgs : list Message) : list string :=
  omap (λ msg, match msg with file_meta _ m => Some (transferId m) | _ => None end) msgs.

(** What the [file:error] messages for a transfer carry, in order. *)
Definition errors_for (tid : string) (msgs : list Message) : list (option string) :=
  omap (λ msg, match msg with
               | file_error _ tid' message =>
                   if decide (tid' = tid) then Some message else None
               | _ => None
               end) msgs.

(** A receiver at the start of a session (the component just mounted, or
    [handleConnect] having run [resetTransfers]): nothing is listed, no
    buffer is registered, and the URLs that earlier sessions left live are
    older than the next one. *)
Definition session_start (st : Receiver) : Prop :=
  incomingFiles st = [] ∧ incomingBuffers st = ∅
  ∧ ∀ u, u ∈ downloadUrls st → (u < nextUrl st)%N.

(** In a session started at [st0]: a live URL was live at the start or
    belongs to a listed transfer, the URLs of the start are still live, the
    URLs of the listed transfers were made in this session, every listed
    transfer was announced, and a transfer in flight has no URL yet. *)
Definition urls_owned (st0 : Receiver) (msgs : list Message) (st : Receiver) : Prop :=
  (∀ u, u ∈ downloadUrls st →
        u ∈ downloadUrls st0 ∨ ∃ t, t ∈ incomingFiles st ∧ downloadUrl t = Some u)
  ∧ (∀ u, u ∈ downloadUrls st0 → u ∈ downloadUrls st)
  ∧ (∀ t u, t ∈ incomingFiles st → downloadUrl t = Some u → (nextUrl st0 ≤ u)%N)
  ∧ (nextUrl st0 ≤ nextUrl st)%N
  ∧ (∀ u, u ∈ downloadUrls st → (u < nextUrl st)%N)
  ∧ (∀ t, t ∈ incomingFiles st → transferId (meta t) ∈ announced msgs)
  ∧ (∀ t, t ∈ incomingFiles st → status t = pending ∨ status t = receiving →
          downloadUrl t = None).

(** A session start with the URL of an earlier session still live. *)
Definition demo_restart : Receiver :=
  {| incomingFiles := []; incomingBuffers := ∅; downloadUrls := {[ 0%N ]}; nextUrl := 1 |}.



(** ** The notepad's list of notes (collaborative notepad component,
    printed after the relay in file-share.ts: [uniqueById], lines 115-126, and
    the updaters of the [notes] state, lines 143-199, 259-369 and 386-405) *)

Module Notepad.

(** [const uniqueById = <T extends { id: string }>(items: T[]): T[]] *)
Fixpoint uniqueById_loop {T : Type} (id_of : T → string) (items : list T)
    (seen : gset string) (unique : list T) : list T :=
  match items with
  | [] => unique
  | item :: rest =>
      if decide (id_of item ∈ seen) then uniqueById_loop id_of rest seen unique
      else uniqueById_loop id_of rest ({[id_of item]} ∪ seen) (unique ++ [item])
  end.

Definition uniqueById {T : Type} (id_of : T → string) (items : list T) : list T :=
  uniqueById_loop id_of items ∅ [].

(** [NoteState]: a note as the server gives it, [others] being the fields
    the component does not look at, and whether it is being saved. *)
Record NoteState (R : Type) : Type := {
  note_id : string;
  title : string;
  content : string;
  others : R;
  isSaving : option bool
}.
Arguments note_id {R} _.
Arguments title {R} _.
Arguments content {R} _.
Arguments others {R} _.
Arguments isSaving {R} _.

Record BroadcastPayload : Type := {
  payload_id : string;
  payload_title : option string;
  payload_content : option string
}.

Section updaters.
Context {R : Type}.

(** [prev.map((note) => note.id === id ? { ...note, ... } : note)] *)
Definition update_note (id : string) (f : NoteState R → NoteState R)
    (prev : list (NoteState R)) : list (NoteState R) :=
  (λ note, if decide (note_id note = id) then f note else note) <$> prev.

Definition markSaving (id : string) (saving : bool) (prev : list (NoteState R))
  : list (NoteState R) :=
  update_note id
    (λ note, {| note_id := note_id note; title := title note; content := content note;
                others := others note; isSaving := Some saving |}) prev.

Definition applyIncomingUpdate (payload : BroadcastPayload) (prev : list (NoteState R))
  : list (NoteState R) :=
  update_note (payload_id payload)
    (λ note, {| note_id := note_id note;
                title := default (title note) (payload_title payload);
                content := default (content note) (payload_content payload);
                others := others note; isSaving := isSaving note |}) prev.

(** [handleCreateNote], once the server has answered with the note. *)
Definition handleCreateNote (note : NoteState R) (prev : list (NoteState R))
  : list (NoteState R) :=
  note :: filter (λ item, note_id item ≠ note_id note) prev.

(** [handleDeleteNote], once the server has confirmed. *)
Definition handleDeleteNote (selectedNoteId : string) (prev : list (NoteState R))
  : list (NoteState R) :=
  uniqueById note_id (filter (λ note, note_id note ≠ selectedNoteId) prev).

Definition handleTitleChange (selectedNoteId value : string) (prev : list (NoteState R))
  : list (NoteState R) :=
  update_note selectedNoteId
    (λ note, {| note_id := note_id note; title := value; content := content note;
                others := others note; isSaving := isSaving note |}) prev.

Definition handleContentChange (selectedNoteId value : string) (prev : list (NoteState R))
  : list (NoteState R) :=
  update_note selectedNoteId
    (λ note, {| note_id := note_id note; title := title note; content := value;
                others := others note; isSaving := isSaving note |}) prev.

(** [socket.on("note:created", handleCreated)] *)
Definition handleCreated (note : NoteState R) (prev : list (NoteState R))
  : list (NoteState R) :=
  let exists_ := bool_decide (Exists (λ item, note_id item = note_id note) prev) in
  if exists_
  then (λ item, if decide (note_id item = note_id note) then note else item) <$> prev
  else note :: prev.

(** [socket.on("note:deleted", handleDeleted)] *)
Definition handleDeleted (id : string) (prev : list (NoteState R)) : list (NoteState R) :=
  filter (λ item, note_id item ≠ id) prev.

(** What can happen to the list of notes. *)
Inductive NotesEvent : Type :=
  | ev_markSaving (id : string) (saving : bool)
  | ev_incoming (payload : BroadcastPayload)
  | ev_create_ok (note : NoteState R)
  | ev_delete_ok (selectedNoteId : string)
  | ev_title (selectedNoteId value : string)
  | ev_content (selectedNoteId value : string)
  | ev_created (note : NoteState R)
  | ev_deleted (id : string).

Definition notes_step (prev : list (NoteState R)) (ev : NotesEvent) : list (NoteState R) :=
  match ev with
  | ev_markSaving id saving => markSaving id saving prev
  | ev_incoming payload => applyIncomingUpdate payload prev
  | ev_create_ok note => handleCreateNote note prev
  | ev_delete_ok selected => handleDeleteNote selected prev
  | ev_title selected value => handleTitleChange selected value prev
  | ev_content selected value => handleContentChange selected value prev
  | ev_created note => handleCreated note prev
  | ev_deleted id => handleDeleted id prev
  end.

(** The list after the events, from [useState(() => uniqueById(initialNotes))]. *)
Definition notes_after (initialNotes : list (NoteState R)) (events : list NotesEvent)
  : list (NoteState R) :=
  foldl notes_step (uniqueById note_id initialNotes) events.

(** [const notesList = useMemo(() => uniqueById(notes), [notes])] *)
Definition notesList (notes : list (NoteState R)) : list (NoteState R) :=
  uniqueById note_id notes.

End updaters.

(** The items that [uniqueById] keeps, given the identifiers seen so far. *)
Fixpoint first_by_id {T : Type} (id_of : T → string) (seen : gset string) (items : list T)
  : list T :=
  match items with
  | [] => []
  | item :: rest =>
      if decide (id_of item ∈ seen) then first_by_id id_of seen rest
      else item :: first_by_id id_of ({[id_of item]} ∪ seen) rest
  end.

Definition demo_note (id t : string) : NoteState unit :=
  {| note_id := id; title := t; content := t; others := (); isSaving := None |}.

End Notepad.

(** Where a directory write ends: the directories, then the file name. *)
Definition written_path (effect : SaveEffect) : list string :=
  match effect with
  | write_file segments fileName _ => segments ++ [fileName]
  | download_zip _ _ => []
  end.

Definition written_content (effect : SaveEffect) : option bytes :=
  match effect with
  | write_file _ _ content => Some content
  | download_zip _ _ => None
  end.

(** The [zip.file] call for a transfer that has its payload. *)
Definition zip_entry_of (transfer : IncomingTransfer) : string * bytes :=
  (default (name (meta transfer)) (relativePath (meta transfer)),
   default [] (blob transfer)).

Definition demo_docs_b_done : IncomingTransfer :=
  demo_incoming (Some "docs/sub/b.txt") complete (Some demo_chunk1).

(** ** Queueing the picked files (file-share-station.tsx, lines 333-384) *)

(** [s.startsWith(prefix)] on a string of characters. *)
Fixpoint str_startsWith (prefix s : string) : bool :=
  match prefix, s with
  | EmptyString, _ => true
  | String a prefix', String b s' => bool_decide (a = b) && str_startsWith prefix' s'
  | String _ _, EmptyString => false
  end.

(** [s.includes(pattern)]: the pattern starts somewhere in [s]. *)
Fixpoint includes (pattern s : string) : bool :=
  str_startsWith pattern s
  || match s with
     | String _ s' => includes pattern s'
     | EmptyString => false
     end.

(** [s.endsWith(suffix)]: [s] from some position on is the suffix. *)
Fixpoint endsWith (suffix s : string) : bool :=
  bool_decide (s = suffix)
  || match s with
     | String _ s' => endsWith suffix s'
     | EmptyString => false
     end.

(** [s.slice(1)] *)
Definition slice_1 (s : string) : string :=
  match s with
  | String _ s' => s'
  | EmptyString => EmptyString
  end.

Definition excludePatterns : list string :=
  [ "node_modules/"; ".git/"; ".next/"; "dist/"; "build/"; ".cache/"; "coverage/";
    ".nyc_output/"; "logs/"; "*.log"; ".DS_Store"; "Thumbs.db" ].

(** The callback of [excludePatterns.some]. *)
Definition pattern_matches (relativePath pattern : string) : bool :=
  if endsWith "/" pattern then includes pattern relativePath
  else if str_startsWith "*." pattern then endsWith (slice_1 pattern) relativePath
  else includes pattern relativePath.

(** [file.webkitRelativePath || file.name] *)
Definition path_or_name (file : File) : string :=
  if truthy_string (webkitRelativePath file)
  then default EmptyString (webkitRelativePath file)
  else file_name file.

(** The callback of [files.filter]. *)
Definition not_excluded (file : File) : bool :=
  negb (existsb (pattern_matches (path_or_name file)) excludePatterns).

Definition msg_filtered (dropped : nat) : string :=
  ("Disaring " ++ pretty dropped ++ " berkas (node_modules, .git, dll)")%string.

(** The callback of [filtered.map]; [id] is what [generateHexId(6)] gave. *)
Definition to_queued (id : string) (file : File) : QueuedFile :=
  {| q_id := id;
     q_file := file;
     q_name := file_name file;
     q_size := file_size file;
     q_type := file_type file;
     q_relativePath :=
       if truthy_string (webkitRelativePath file) then webkitRelativePath file else None |}.

(** The part of the component that [enqueueFiles] writes. *)
Record PickerState : Type := {
  picker_queue : list QueuedFile;
  picker_message : option string
}.

(** [enqueueFiles(fileList)]; [ids i] is the identifier drawn for the
    [i]-th file kept. *)
Definition enqueueFiles (ids : nat → string) (fileList : option (list File))
    (st : PickerState) : PickerState :=
  match fileList with
  | None | Some [] => st
  | Some files =>
      let filtered := filter (λ file, not_excluded file = true) files in
      let queued := imap (λ i file, to_queued (ids i) file) filtered in
      {| picker_queue := picker_queue st ++ queued;
         picker_message :=
           if decide (length filtered ≠ length files)
           then Some (msg_filtered (length files - length filtered))
           else picker_message st |}
  end.

(** [p] occurs in [s]. *)
Definition occurs_in (p s : string) : Prop :=
  ∃ before after : string, s = (before ++ p ++ after)%string.

(** The directories whose content is not sent, and the system files. *)
Definition excluded_directories : list string :=
  [ "node_modules"; ".git"; ".next"; "dist"; "build"; ".cache"; "coverage";
    ".nyc_output"; "logs" ].

Definition excluded_path (path : string) : Prop :=
  (∃ dir, dir ∈ excluded_directories ∧ occurs_in (dir ++ "/") path)
  ∨ occurs_in ".DS_Store" path ∨ occurs_in "Thumbs.db" path
  ∨ ∃ before : string, path = (before ++ ".log")%string.

Definition demo_picked : list File :=
  [ {| file_name := "a.txt"; file_type := "text/plain"; file_bytes := demo_chunk0;
       webkitRelativePath := Some "site/a.txt" |};
    {| file_name := "x.js"; file_type := "text/javascript"; file_bytes := demo_chunk1;
       webkitRelativePath := Some "site/rebuild/x.js" |};
    {| file_name := "run.log"; file_type := "text/plain"; file_bytes := demo_chunk1;
       webkitRelativePath := None |} ].
(** * Properties *)

(** ** The chunk count *)

Lemma Math_ceil_div_bounds (a b : Z) :
  0 < b → b * (Math_ceil_div a b - 1) < a ≤ b * Math_ceil_div a b.
Proof.
  intros Hb. unfold Math_ceil_div.
  pose proof (Z.div_mod (- a) b ltac:(lia)) as Hdm.
  pose proof (Z.mod_pos_bound (- a) b Hb) as Hm.
  nia.
Qed.

Lemma Math_ceil_div_unique (a b q : Z) :
  0 < b → b * (q - 1) < a ≤ b * q → Math_ceil_div a b = q.
Proof.
  intros Hb Hq. pose proof (Math_ceil_div_bounds a b Hb) as Hc. nia.
Qed.

Lemma Math_ceil_div_nonneg (a b : Z) : 0 < b → 0 ≤ a → 0 ≤ Math_ceil_div a b.
Proof. intros Hb Ha. pose proof (Math_ceil_div_bounds a b Hb). nia. Qed.

Lemma Math_ceil_div_pos (a b : Z) : 0 < b → 0 < a → 1 ≤ Math_ceil_div a b.
Proof. intros Hb Ha. pose proof (Math_ceil_div_bounds a b Hb). nia. Qed.

Lemma file_size_nonneg (f : File) : 0 ≤ file_size f.
Proof. unfold file_size. lia. Qed.

Lemma FILE_CHUNK_SIZE_pos : 0 < FILE_CHUNK_SIZE.
Proof. reflexivity. Qed.

Lemma sendFile_totalChunks_max (f : File) :
  sendFile_totalChunks f = Z.max 1 (Math_ceil_div (file_size f) FILE_CHUNK_SIZE).
Proof.
  unfold sendFile_totalChunks, or_default.
  pose proof (Math_ceil_div_nonneg (file_size f) FILE_CHUNK_SIZE
                FILE_CHUNK_SIZE_pos (file_size_nonneg f)).
  destruct (Z.eqb_spec (Math_ceil_div (file_size f) FILE_CHUNK_SIZE) 0); lia.
Qed.

Lemma sendFile_totalChunks_pos (f : File) : 1 ≤ sendFile_totalChunks f.
Proof. rewrite sendFile_totalChunks_max. lia. Qed.

(** The chunks cover the file: [totalChunks * FILE_CHUNK_SIZE] reaches its size. *)
Lemma sendFile_totalChunks_covers (f : File) :
  file_size f ≤ sendFile_totalChunks f * FILE_CHUNK_SIZE.
Proof.
  rewrite sendFile_totalChunks_max.
  pose proof (Math_ceil_div_bounds (file_size f) FILE_CHUNK_SIZE FILE_CHUNK_SIZE_pos).
  nia.
Qed.

(** The last chunk is needed: for a file that is not empty the chunks before
    it do not reach the end. *)
Lemma sendFile_totalChunks_tight (f : File) :
  0 < file_size f → (sendFile_totalChunks f - 1) * FILE_CHUNK_SIZE < file_size f.
Proof.
  intros Hs. rewrite sendFile_totalChunks_max.
  pose proof (Math_ceil_div_bounds (file_size f) FILE_CHUNK_SIZE FILE_CHUNK_SIZE_pos).
  pose proof (Math_ceil_div_pos (file_size f) FILE_CHUNK_SIZE FILE_CHUNK_SIZE_pos Hs).
  nia.
Qed.

Lemma Math_ceil_div_is_ceiling (a b : Z) : 0 < b → is_ceiling (Math_ceil_div a b) a b.
Proof.
  intros Hb. pose proof (Math_ceil_div_bounds a b Hb) as Hc.
  split; [lia |]. intros q' Hq'. nia.
Qed.

(** C2. For every file, the empty one included, the sender computes
    [totalChunks = max(1, ceil(size / chunkSize))] with the fixed chunk size
    of 512 KiB, puts it into the meta it emits first, and the count is at
    least 1. *)
Theorem C2_totalChunks_is_max_1_ceil (env : SendEnv) (queued : QueuedFile) :
  let f := q_file queued in
  FILE_CHUNK_SIZE = 524288
  ∧ (∃ q, is_ceiling q (file_size f) FILE_CHUNK_SIZE
          ∧ sendFile_totalChunks f = Z.max 1 q)
  ∧ 1 ≤ sendFile_totalChunks f
  ∧ (∃ m rest, sendFile env queued = act_start m :: rest
               ∧ totalChunks m = sendFile_totalChunks f
               ∧ size m = file_size f).
Proof.
  intros f. split; [reflexivity |]. split.
  - exists (Math_ceil_div (file_size f) FILE_CHUNK_SIZE). split.
    + apply Math_ceil_div_is_ceiling, FILE_CHUNK_SIZE_pos.
    + apply sendFile_totalChunks_max.
  - split; [apply sendFile_totalChunks_pos |].
    eexists _, _. split; [reflexivity |]. split; reflexivity.
Qed.

Example totalChunks_empty_file (f : File) :
  file_bytes f = [] → sendFile_totalChunks f = 1.
Proof. intros H. unfold sendFile_totalChunks, file_size. rewrite H. reflexivity. Qed.

(** ** The receiver's handlers *)

Section receiver_handlers.
Implicit Types (st : Receiver) (tid room : string) (t : IncomingTransfer).
Implicit Types (buffers : js_array bytes) (chunk : bytes).

Lemma new_Array_Some {A : Type} (n : Z) :
  is_array_length n = true → new_Array (A := A) n = Some (replicate (Z.to_nat n) None).
Proof. intros H. unfold new_Array. by rewrite H. Qed.

Lemma is_array_length_spec (n : Z) :
  is_array_length n = true ↔ 0 ≤ n ≤ MAX_ARRAY_LENGTH.
Proof. unfold is_array_length. rewrite andb_true_iff, !Z.leb_le. done. Qed.

Lemma array_set_lookup {A : Type} (a : js_array A) (i : Z) (x : A) :
  0 ≤ i < MAX_ARRAY_LENGTH → array_set a i x !! Z.to_nat i = Some (Some x).
Proof.
  intros Hi. unfold array_set.
  replace ((0 <=? i) && (i <? MAX_ARRAY_LENGTH)) with true
    by (symmetry; rewrite andb_true_iff, Z.leb_le, Z.ltb_lt; lia).
  apply list_lookup_insert_eq. rewrite length_app, length_replicate. lia.
Qed.

Lemma array_set_lookup_ne {A : Type} (a : js_array A) (i : Z) (x : A) (j : nat) :
  j ≠ Z.to_nat i → (j < length a)%nat → array_set a i x !! j = a !! j.
Proof.
  intros Hne Hj. unfold array_set. case_match; [| done].
  rewrite list_lookup_insert_ne by done. by rewrite lookup_app_l.
Qed.

Lemma array_set_length {A : Type} (a : js_array A) (i : Z) (x : A) :
  (length a ≤ length (array_set a i x))%nat.
Proof.
  unfold array_set. case_match; [| done].
  rewrite length_insert, length_app. lia.
Qed.

Lemma array_set_twice {A : Type} (a : js_array A) (i : Z) (x y : A) :
  array_set (array_set a i x) i y = array_set a i y.
Proof.
  unfold array_set. case_match; [| done].
  rewrite length_insert, length_app, length_replicate.
  replace (S (Z.to_nat i) - (length a + (S (Z.to_nat i) - length a)))%nat with 0%nat by lia.
  simpl. rewrite app_nil_r. apply list_insert_insert_eq.
Qed.

Lemma chunk_update_same tid chunk t :
  transferId (meta t) = tid →
  chunk_update tid chunk t =
    {| meta := meta t;
       receivedBytes := receivedBytes t + Z.of_nat (length chunk);
       receivedChunks := receivedChunks t + 1;
       status := receiving;
       errorMessage := errorMessage t;
       downloadUrl := downloadUrl t;
       blob := blob t |}.
Proof. intros H. unfold chunk_update. case_decide; [done | reflexivity]. Qed.

Lemma chunk_update_other tid chunk t :
  transferId (meta t) ≠ tid → chunk_update tid chunk t = t.
Proof. intros H. unfold chunk_update. by case_decide. Qed.

Lemma complete_update_other tid url b t :
  transferId (meta t) ≠ tid → complete_update tid url b t = t.
Proof. intros H. unfold complete_update. by case_decide. Qed.

Lemma error_update_other tid message t :
  transferId (meta t) ≠ tid → error_update tid message t = t.
Proof. intros H. unfold error_update. by case_decide. Qed.

Lemma on_file_chunk_registered tid idx chunk st buffers :
  incomingBuffers st !! tid = Some buffers →
  on_file_chunk tid idx chunk st =
    {| incomingFiles := chunk_update tid chunk <$> incomingFiles st;
       incomingBuffers := <[tid := array_set buffers idx chunk]> (incomingBuffers st);
       downloadUrls := downloadUrls st;
       nextUrl := nextUrl st |}.
Proof. intros H. unfold on_file_chunk. by rewrite H. Qed.

Lemma on_file_complete_registered tid st buffers :
  incomingBuffers st !! tid = Some buffers →
  on_file_complete tid st =
    {| incomingFiles :=
         complete_update tid (nextUrl st) (new_Blob (filter_Boolean buffers))
           <$> incomingFiles st;
       incomingBuffers := delete tid (incomingBuffers st);
       downloadUrls := {[nextUrl st]} ∪ downloadUrls st;
       nextUrl := N.succ (nextUrl st) |}.
Proof. intros H. unfold on_file_complete. by rewrite H. Qed.

Lemma on_file_meta_valid m st :
  is_array_length (totalChunks m) = true →
  on_file_meta m st =
    {| incomingFiles :=
         filter (λ item, transferId (meta item) ≠ transferId m) (incomingFiles st)
         ++ [fresh_incoming m];
       incomingBuffers :=
         <[transferId m := replicate (Z.to_nat (totalChunks m)) None]> (incomingBuffers st);
       downloadUrls := downloadUrls st;
       nextUrl := nextUrl st |}.
Proof. intros H. unfold on_file_meta. by rewrite new_Array_Some. Qed.

End receiver_handlers.

(** C6. A [file:chunk] whose transferId has no registered slot buffer is a
    no-op: the receiver is left exactly as it was, so no counter, status or
    buffer of any registered transfer changes. *)
Theorem C6_chunk_without_buffer_is_noop
    (room tid : string) (chunkIndex : Z) (chunk : bytes) (st : Receiver) :
  incomingBuffers st !! tid = None →
  receive (file_chunk room tid chunkIndex chunk) st = st.
Proof. intros H. simpl. unfold on_file_chunk. by rewrite H. Qed.

(** C7. For a [file:chunk] with a registered buffer the receiver writes the
    bytes into [slot[chunkIndex]] (for a chunk index that is an array index),
    whatever the slot held (the last write wins), adds the chunk's byte length
    to [receivedBytes] and one to [receivedChunks] for every message: the same
    chunk delivered twice counts twice, while the buffers, and so the whole
    state after completion with its assembled payload, are those after one
    delivery. *)
Theorem C7_chunk_counts_every_message
    (room tid : string) (chunkIndex : Z) (chunk : bytes) (st : Receiver)
    (buffers : js_array bytes) :
  incomingBuffers st !! tid = Some buffers →
  let st1 := receive (file_chunk room tid chunkIndex chunk) st in
  let st2 := receive (file_chunk room tid chunkIndex chunk) st1 in
  (0 ≤ chunkIndex < MAX_ARRAY_LENGTH →
   ∃ slots, incomingBuffers st1 !! tid = Some slots
            ∧ slots !! Z.to_nat chunkIndex = Some (Some chunk)
            ∧ ∀ j, j ≠ Z.to_nat chunkIndex → (j < length buffers)%nat →
                   slots !! j = buffers !! j)
  ∧ (∀ k t, incomingFiles st !! k = Some t → transferId (meta t) = tid →
       ∃ t1 t2, incomingFiles st1 !! k = Some t1
                ∧ incomingFiles st2 !! k = Some t2
                ∧ receivedBytes t1 = receivedBytes t + Z.of_nat (length chunk)
                ∧ receivedChunks t1 = receivedChunks t + 1
                ∧ status t1 = receiving
                ∧ receivedBytes t2 = receivedBytes t + 2 * Z.of_nat (length chunk)
                ∧ receivedChunks t2 = receivedChunks t + 2
                ∧ status t2 = receiving)
  ∧ incomingBuffers st2 = incomingBuffers st1
  ∧ receive (file_complete room tid) st2 = receive (file_complete room tid) st1.
Proof.
  intros Hbuf st1 st2.
  assert (Hst1 : st1 = on_file_chunk tid chunkIndex chunk st) by reflexivity.
  rewrite (on_file_chunk_registered _ _ _ _ _ Hbuf) in Hst1.
  assert (Hbuf1 : incomingBuffers st1 !! tid = Some (array_set buffers chunkIndex chunk)).
  { rewrite Hst1. simpl. apply lookup_insert_eq. }
  assert (Hst2 : st2 = on_file_chunk tid chunkIndex chunk st1) by reflexivity.
  rewrite (on_file_chunk_registered _ _ _ _ _ Hbuf1) in Hst2.
  assert (Hsame : incomingBuffers st2 = incomingBuffers st1).
  { rewrite Hst2. simpl. rewrite array_set_twice. rewrite Hst1. simpl.
    by rewrite insert_insert_eq. }
  split; [| split; [| split]].
  - intros Hidx. exists (array_set buffers chunkIndex chunk). split; [done |]. split.
    + by apply array_set_lookup.
    + intros j Hj Hlen. by apply array_set_lookup_ne.
  - intros k t Hk Htid.
    exists (chunk_update tid chunk t), (chunk_update tid chunk (chunk_update tid chunk t)).
    split; [| split].
    + rewrite Hst1. simpl. by rewrite list_lookup_fmap, Hk.
    + rewrite Hst2, Hst1. simpl. by rewrite !list_lookup_fmap, Hk.
    + rewrite (chunk_update_same _ _ t Htid). simpl.
      rewrite chunk_update_same by done. simpl. repeat split; lia.
  - done.
  - simpl. rewrite (on_file_complete_registered _ _ _ Hbuf1).
    assert (Hbuf2 : incomingBuffers st2 !! tid = Some (array_set buffers chunkIndex chunk))
      by (by rewrite Hsame).
    rewrite (on_file_complete_registered _ _ _ Hbuf2).
    rewrite Hsame. f_equal; [| by rewrite Hst2 | by rewrite Hst2].
    rewrite Hst2. simpl. rewrite <- list_fmap_compose.
    apply list_fmap_ext. intros i t _. simpl.
    unfold complete_update, chunk_update.
    destruct (decide (transferId (meta t) ≠ tid)) as [Hne | Heq].
    + reflexivity.
    + simpl. apply dec_stable in Heq. rewrite !decide_True by done. reflexivity.
Qed.

(** C10. When [file:complete] is handled for a transfer with a registered
    buffer, [receivedBytes] becomes the declared [meta.size] and
    [receivedChunks] the declared [meta.totalChunks], whatever arrived; the
    payload is what the filled slots hold, in index order. *)
Theorem C10_complete_overwrites_counters
    (room tid : string) (st : Receiver) (buffers : js_array bytes) :
  incomingBuffers st !! tid = Some buffers →
  let st' := receive (file_complete room tid) st in
  ∀ k t, incomingFiles st !! k = Some t → transferId (meta t) = tid →
    ∃ t', incomingFiles st' !! k = Some t'
          ∧ meta t' = meta t
          ∧ receivedBytes t' = size (meta t)
          ∧ receivedChunks t' = totalChunks (meta t)
          ∧ status t' = complete
          ∧ blob t' = Some (new_Blob (filter_Boolean buffers)).
Proof.
  intros Hbuf st' k t Hk Htid. subst st'. simpl.
  rewrite (on_file_complete_registered _ _ _ Hbuf). simpl.
  rewrite list_lookup_fmap, Hk. simpl. eexists. split; [reflexivity |].
  unfold complete_update. rewrite decide_True by done. simpl. done.
Qed.

Lemma filter_fmap_preserved {A : Type} (P : A → Prop) `{!∀ x, Decision (P x)}
    (f : A → A) (l : list A) :
  (∀ x, P (f x) ↔ P x) → filter P (f <$> l) = f <$> filter P l.
Proof.
  intros Hf. induction l as [| x l IH]; [done |].
  rewrite fmap_cons, !filter_cons.
  destruct (decide (P x)) as [Hx | Hx].
  - rewrite decide_True by (by apply Hf). by rewrite fmap_cons, IH.
  - rewrite decide_False by (by rewrite Hf). done.
Qed.

Lemma on_file_meta_entries (m : TransferMeta) (l : list IncomingTransfer) :
  filter (λ item, transferId (meta item) = transferId m)
    (filter (λ item, transferId (meta item) ≠ transferId m) l ++ [fresh_incoming m])
  = [fresh_incoming m].
Proof.
  rewrite filter_app, list_filter_filter.
  rewrite (filter_singleton_True _ _ []) by reflexivity.
  replace (filter _ l) with (@nil IncomingTransfer); [done |].
  symmetry. induction l as [| x l IH]; [done |].
  rewrite filter_cons_False by tauto. exact IH.
Qed.

(** C5. [file:meta] is an idempotent reset: whatever was registered under the
    transferId before, afterwards there is exactly one transfer with it, in
    pending status with both counters at 0 and no payload, and a buffer of
    [totalChunks] empty slots; the other transfers are kept, and a second
    identical meta changes nothing more.  The meta's [totalChunks] is an
    array length, as the data model has it. *)
Theorem C5_meta_is_idempotent_reset (room : string) (m : TransferMeta) (st : Receiver) :
  is_array_length (totalChunks m) = true →
  let st' := receive (file_meta room m) st in
  (∃ slots, incomingBuffers st' !! transferId m = Some slots
            ∧ Z.of_nat (length slots) = totalChunks m
            ∧ Forall (λ slot, slot = None) slots)
  ∧ (∃ t, filter (λ item, transferId (meta item) = transferId m) (incomingFiles st') = [t]
          ∧ meta t = m ∧ status t = pending
          ∧ receivedBytes t = 0 ∧ receivedChunks t = 0
          ∧ blob t = None ∧ downloadUrl t = None ∧ errorMessage t = None)
  ∧ filter (λ item, transferId (meta item) ≠ transferId m) (incomingFiles st')
    = filter (λ item, transferId (meta item) ≠ transferId m) (incomingFiles st)
  ∧ receive (file_meta room m) st' = st'.
Proof.
  intros Hlen st'. subst st'. simpl.
  rewrite !(on_file_meta_valid _ _ Hlen). simpl.
  apply is_array_length_spec in Hlen.
  split; [| split; [| split]].
  - eexists. split; [apply lookup_insert_eq |]. split.
    + rewrite length_replicate. lia.
    + apply Forall_replicate. reflexivity.
  - exists (fresh_incoming m). split; [apply on_file_meta_entries | done].
  - rewrite filter_app, list_filter_filter.
    rewrite (filter_singleton_False _ _ []) by (simpl; tauto).
    rewrite app_nil_r. apply list_filter_iff. tauto.
  - f_equal.
    + rewrite filter_app, list_filter_filter.
      rewrite (filter_singleton_False _ _ []) by (simpl; tauto).
      rewrite app_nil_r. f_equal. apply list_filter_iff. tauto.
    + by rewrite insert_insert_eq.
Qed.

Lemma C6_chunk_without_buffer_is_noop_witness :
  incomingBuffers demo_receiving !! "t2" = None
  ∧ receive (file_chunk "ab12" "t2" 0 demo_chunk0) demo_receiving = demo_receiving.
Proof.
  split; [reflexivity |].
  apply (C6_chunk_without_buffer_is_noop "ab12" "t2" 0 demo_chunk0 demo_receiving).
  reflexivity.
Defined.

Lemma C7_chunk_counts_every_message_witness :
  let st1 := receive (file_chunk "ab12" "t1" 0 demo_chunk1) demo_receiving in
  let st2 := receive (file_chunk "ab12" "t1" 0 demo_chunk1) st1 in
  (∃ slots, incomingBuffers st1 !! "t1" = Some slots
            ∧ slots !! 0%nat = Some (Some demo_chunk1)
            ∧ ∀ j, j ≠ 0%nat → (j < 2)%nat → slots !! j = [Some demo_chunk0; None] !! j)
  ∧ (receivedChunks <$> incomingFiles st2 = [3]
     ∧ receivedBytes <$> incomingFiles st2 = [9])
  ∧ incomingBuffers st2 = incomingBuffers st1
  ∧ receive (file_complete "ab12" "t1") st2 = receive (file_complete "ab12" "t1") st1.
Proof.
  destruct (C7_chunk_counts_every_message "ab12" "t1" 0 demo_chunk1 demo_receiving
              [Some demo_chunk0; None] eq_refl)
    as (Hslot & _ & Hbuffers & Hpayload).
  split; [apply Hslot; unfold MAX_ARRAY_LENGTH; lia |].
  split; [split; reflexivity |]. split; [exact Hbuffers | exact Hpayload].
Defined.

Lemma C10_complete_overwrites_counters_witness :
  ∃ t', incomingFiles (receive (file_complete "ab12" "t1") demo_receiving) !! 0%nat = Some t'
        ∧ meta t' = demo_meta
        ∧ receivedBytes t' = 6
        ∧ receivedChunks t' = 2
        ∧ status t' = complete
        ∧ blob t' = Some demo_chunk0.
Proof.
  apply (C10_complete_overwrites_counters "ab12" "t1" demo_receiving
           [Some demo_chunk0; None] eq_refl 0%nat
           (chunk_update "t1" demo_chunk0 (fresh_incoming demo_meta)));
    reflexivity.
Defined.

Lemma C5_meta_is_idempotent_reset_witness :
  is_array_length (totalChunks demo_meta) = true
  ∧ ∃ t, filter (λ item, transferId (meta item) = "t1")
           (incomingFiles (receive (file_meta "ab12" demo_meta) demo_receiving)) = [t]
         ∧ meta t = demo_meta ∧ status t = pending
         ∧ receivedBytes t = 0 ∧ receivedChunks t = 0
         ∧ blob t = None ∧ downloadUrl t = None ∧ errorMessage t = None.
Proof.
  split; [reflexivity |].
  apply (C5_meta_is_idempotent_reset "ab12" demo_meta demo_receiving). reflexivity.
Defined.

(** ** Terminal statuses *)

Lemma terminal_released_receive (msg : Message) (st : Receiver) :
  terminal_released st → terminal_released (receive msg st).
Proof.
  intros Hinv. destruct msg as [room m | room tid idx chunk | room tid | room tid message];
    simpl.
  - unfold on_file_meta. destruct (new_Array (totalChunks m)) as [slots |]; [| done].
    intros t Ht Hterm. simpl in *.
    apply elem_of_app in Ht as [Ht | Ht].
    + apply list_elem_of_filter in Ht as [Hne Ht].
      rewrite lookup_insert_ne by done. by apply Hinv.
    + apply list_elem_of_singleton in Ht as ->. simpl in Hterm.
      destruct Hterm; discriminate.
  - unfold on_file_chunk. destruct (incomingBuffers st !! tid) as [buffers |] eqn:Hb; [| done].
    intros t Ht Hterm. simpl in *.
    apply list_elem_of_fmap in Ht as (t0 & -> & Ht0).
    unfold chunk_update in *. destruct (decide (transferId (meta t0) ≠ tid)) as [Hne | Heq].
    + rewrite lookup_insert_ne by done. by apply Hinv.
    + simpl in Hterm. destruct Hterm; discriminate.
  - unfold on_file_complete. destruct (incomingBuffers st !! tid) as [buffers |] eqn:Hb; [| done].
    intros t Ht Hterm. simpl in *.
    apply list_elem_of_fmap in Ht as (t0 & -> & Ht0).
    unfold complete_update in *. destruct (decide (transferId (meta t0) = tid)) as [Heq | Hne].
    + simpl. rewrite Heq. apply lookup_delete_eq.
    + rewrite lookup_delete_ne by done. by apply Hinv.
  - intros t Ht Hterm. simpl in *.
    apply list_elem_of_fmap in Ht as (t0 & -> & Ht0).
    unfold error_update in *. destruct (decide (transferId (meta t0) = tid)) as [Heq | Hne].
    + simpl. rewrite Heq. apply lookup_delete_eq.
    + rewrite lookup_delete_ne by done. by apply Hinv.
Qed.

Lemma reachable_terminal_released (st : Receiver) : reachable st → terminal_released st.
Proof.
  induction 1 as [| msg st _ IH].
  - intros t Ht. by apply elem_of_nil in Ht.
  - by apply terminal_released_receive.
Qed.

(** What does hold of terminal statuses: in a reachable state a transfer in
    error stays in error under every chunk, complete and error message, and a
    complete transfer stays complete under every chunk and complete message. *)
Lemma terminal_status_kept (msg : Message) (st : Receiver) (k : nat) (t : IncomingTransfer) :
  reachable st →
  incomingFiles st !! k = Some t →
  match msg with
  | file_meta _ _ => False
  | file_chunk _ _ _ _ | file_complete _ _ => is_terminal (status t) = true
  | file_error _ _ _ => status t = error
  end →
  ∃ t', incomingFiles (receive msg st) !! k = Some t' ∧ status t' = status t.
Proof.
  intros Hreach Hk Hmsg.
  pose proof (reachable_terminal_released st Hreach t) as Hrel.
  assert (Hin : t ∈ incomingFiles st) by (apply list_elem_of_lookup; eauto).
  destruct msg as [room m | room tid idx chunk | room tid | room tid message];
    simpl in *; [done | | |].
  - unfold on_file_chunk.
    destruct (incomingBuffers st !! tid) as [buffers |] eqn:Hb; [| eauto].
    simpl. rewrite list_lookup_fmap, Hk. simpl. eexists. split; [reflexivity |].
    rewrite chunk_update_other; [done |]. intros Heq. subst tid.
    rewrite Hrel in Hb; [done | done |]. destruct (status t); auto; discriminate.
  - unfold on_file_complete.
    destruct (incomingBuffers st !! tid) as [buffers |] eqn:Hb; [| eauto].
    simpl. rewrite list_lookup_fmap, Hk. simpl. eexists. split; [reflexivity |].
    rewrite complete_update_other; [done |]. intros Heq. subst tid.
    rewrite Hrel in Hb; [done | done |]. destruct (status t); auto; discriminate.
  - rewrite list_lookup_fmap, Hk. simpl. eexists. split; [reflexivity |].
    unfold error_update. case_decide; [by simpl | done].
Qed.

(** C3. The status of a complete transfer is changed by a later [file:error]
    for its transferId: after meta, two chunks and [file:complete] the
    transfer is complete with its payload, and a [file:error] then puts it in
    error (the payload and its URL still attached). *)
Theorem C3_error_after_complete_changes_status :
  let st' := receive (file_error "ab12" "t1" None) demo_completed in
  reachable demo_completed
  ∧ status <$> incomingFiles demo_completed = [complete]
  ∧ blob <$> incomingFiles demo_completed = [Some (demo_chunk0 ++ demo_chunk1)]
  ∧ status <$> incomingFiles st' = [error]
  ∧ blob <$> incomingFiles st' = [Some (demo_chunk0 ++ demo_chunk1)].
Proof.
  split; [| repeat split; reflexivity].
  unfold demo_completed, demo_receiving, receive_all. cbn [foldl].
  repeat apply reachable_receive. apply reachable_empty.
Qed.

(** ** Splitting a file into chunks and putting it together again *)

Lemma byte_range_lookup (b : list byte) (lo hi : Z) (p : nat) :
  0 ≤ lo ≤ hi → hi ≤ Z.of_nat (length b) → Z.of_nat p < hi - lo →
  byte_range b lo hi !! p = b !! (Z.to_nat lo + p)%nat.
Proof.
  intros Hlo Hhi Hp. unfold byte_range.
  rewrite lookup_take_lt by lia. by rewrite lookup_drop.
Qed.

Lemma byte_range_length (b : list byte) (lo hi : Z) :
  0 ≤ lo ≤ hi → hi ≤ Z.of_nat (length b) →
  Z.of_nat (length (byte_range b lo hi)) = hi - lo.
Proof.
  intros Hlo Hhi. unfold byte_range. rewrite length_take, length_drop. lia.
Qed.

Lemma Blob_slice_range (b : list byte) (lo hi : Z) :
  0 ≤ lo ≤ hi → hi ≤ Z.of_nat (length b) → Blob_slice b lo hi = byte_range b lo hi.
Proof.
  intros Hlo Hhi. unfold Blob_slice, byte_range.
  destruct (Z.ltb_spec lo 0); [lia |]. destruct (Z.ltb_spec hi 0); [lia |].
  rewrite (Z.min_l lo), (Z.min_l hi), Z.max_l by lia. reflexivity.
Qed.

Lemma take_min_length {A : Type} (l : list A) (n : nat) :
  take (n `min` length l) l = take n l.
Proof.
  destruct (Nat.le_ge_cases n (length l)) as [H | H].
  - by rewrite Nat.min_l.
  - rewrite Nat.min_r by done. by rewrite !take_ge.
Qed.

Section slicing.
Variable chunkSize : nat.
Hypothesis chunkSize_pos : (0 < chunkSize)%nat.
Implicit Types (b : list byte) (k r : nat).

(** A slice of one chunk size (cut at the end of the blob), on lists. *)
Lemma Blob_slice_chunk b k :
  Blob_slice b (Z.of_nat k * Z.of_nat chunkSize)
    (Z.min (Z.of_nat k * Z.of_nat chunkSize + Z.of_nat chunkSize) (Z.of_nat (length b)))
  = take chunkSize (drop (k * chunkSize) b).
Proof.
  unfold Blob_slice.
  destruct (Z.ltb_spec (Z.of_nat k * Z.of_nat chunkSize) 0) as [Hneg | _]; [lia |].
  destruct (Z.ltb_spec (Z.min (Z.of_nat k * Z.of_nat chunkSize + Z.of_nat chunkSize)
                              (Z.of_nat (length b))) 0) as [Hneg | _]; [lia |].
  destruct (Nat.le_gt_cases (k * chunkSize) (length b)) as [Hin | Hout].
  - replace (Z.to_nat (Z.min (Z.of_nat k * Z.of_nat chunkSize) (Z.of_nat (length b))))
      with (k * chunkSize)%nat by lia.
    rewrite <- (take_min_length (drop _ b) chunkSize), length_drop.
    f_equal. lia.
  - rewrite (drop_ge b (k * chunkSize)) by lia.
    replace (Z.to_nat (Z.min (Z.of_nat k * Z.of_nat chunkSize) (Z.of_nat (length b))))
      with (length b) by lia.
    rewrite drop_all. by rewrite !take_nil.
Qed.

Lemma concat_chunks b k r :
  concat ((λ j, take chunkSize (drop (j * chunkSize) b)) <$> seq k r)
  = take (r * chunkSize) (drop (k * chunkSize) b).
Proof.
  revert k. induction r as [| r IH]; intros k.
  - reflexivity.
  - cbn [seq fmap list_fmap concat]. rewrite IH.
    replace (S k * chunkSize)%nat with (k * chunkSize + chunkSize)%nat by lia.
    rewrite <- drop_drop, take_take_drop. f_equal.
Qed.

Lemma concat_all_chunks b r :
  (length b ≤ r * chunkSize)%nat →
  concat ((λ j, take chunkSize (drop (j * chunkSize) b)) <$> seq 0 r) = b.
Proof. intros H. rewrite concat_chunks. simpl. by rewrite take_ge. Qed.

End slicing.

(** ** What the sender emits *)

Lemma emitted_run_actions (room : string) (acts : list Action) (st : Sender) :
  emitted (run_actions room acts st) = emitted st ++ concat (action_emits room <$> acts).
Proof.
  revert st. induction acts as [| a acts IH]; intros st.
  - simpl. by rewrite app_nil_r.
  - unfold run_actions in *. cbn [foldl fmap list_fmap concat].
    rewrite IH. simpl. by rewrite <- app_assoc.
Qed.

Lemma sendFile_loop_ok (env : SendEnv) (queued : QueuedFile) (tid : string)
    (r : nat) (idx : Z) :
  (∀ i, idx ≤ i < idx + Z.of_nat r → arrayBuffer env queued i = read_ok) →
  sendFile_loop env queued tid r idx
  = ((λ i, act_chunk tid i (sendFile_chunk (q_file queued) i)) <$> seqZ idx (Z.of_nat r))
    ++ [act_complete (q_id queued) tid].
Proof.
  revert idx. induction r as [| r IH]; intros idx Hok.
  - reflexivity.
  - cbn [sendFile_loop]. rewrite Hok by lia.
    rewrite seqZ_cons by lia. cbn [fmap list_fmap app]. f_equal.
    rewrite IH by (intros i Hi; apply Hok; lia).
    do 3 f_equal; lia.
Qed.

Lemma chunk_messages_fmap (room tid : string) (g : Z → list byte) (r : nat) (k : Z) :
  concat (action_emits room <$> ((λ i, act_chunk tid i (g i)) <$> seqZ k (Z.of_nat r)))
  = chunk_messages room tid k (g <$> seqZ k (Z.of_nat r)).
Proof.
  revert k. induction r as [| r IH]; intros k.
  - reflexivity.
  - rewrite seqZ_cons by lia. cbn [fmap list_fmap concat chunk_messages action_emits app].
    f_equal. replace (Z.pred (Z.of_nat (S r))) with (Z.of_nat r) by lia.
    rewrite IH. f_equal; lia.
Qed.

Lemma chunk_messages_fmap' (room tid : string) (g : Z → list byte) (r : nat) (k : Z) :
  chunk_messages room tid k (g <$> seqZ k (Z.of_nat r))
  = (λ i, file_chunk room tid i (g i)) <$> seqZ k (Z.of_nat r).
Proof.
  revert k. induction r as [| r IH]; intros k.
  - reflexivity.
  - rewrite seqZ_cons by lia. cbn [fmap list_fmap chunk_messages].
    f_equal. replace (Z.pred (Z.of_nat (S r))) with (Z.of_nat r) by lia.
    rewrite <- IH. f_equal; lia.
Qed.

(** With no read failing a file goes out as its meta, its chunks in index
    order, and the completion marker. *)
Lemma sendFile_messages_ok (env : SendEnv) (queued : QueuedFile) :
  let f := q_file queued in
  let tid := generateTransferId env queued in
  let room := effectiveRoomId env in
  (∀ i, 0 ≤ i < sendFile_totalChunks f → arrayBuffer env queued i = read_ok) →
  sendFile_messages env queued
  = file_meta room (sendFile_meta queued tid)
    :: chunk_messages room tid 0 (sendFile_chunk f <$> seqZ 0 (sendFile_totalChunks f))
    ++ [file_complete room tid].
Proof.
  intros f tid room Hok. unfold sendFile_messages.
  rewrite emitted_run_actions. cbn [emitted app].
  unfold sendFile. fold f tid room.
  pose proof (sendFile_totalChunks_pos f) as Hpos.
  rewrite sendFile_loop_ok by (intros i Hi; apply Hok; lia).
  cbn [fmap list_fmap concat action_emits app]. f_equal.
  rewrite fmap_app, concat_app. cbn [fmap list_fmap concat action_emits app].
  rewrite chunk_messages_fmap. by rewrite Z2Nat.id by lia.
Qed.

Lemma sendFile_chunk_take_drop (f : File) (k : nat) :
  sendFile_chunk f (Z.of_nat k)
  = take (Z.to_nat FILE_CHUNK_SIZE) (drop (k * Z.to_nat FILE_CHUNK_SIZE) (file_bytes f)).
Proof.
  unfold sendFile_chunk, file_size.
  assert (HC : FILE_CHUNK_SIZE = Z.of_nat (Z.to_nat FILE_CHUNK_SIZE)).
  { pose proof FILE_CHUNK_SIZE_pos. lia. }
  assert (Hpos : (0 < Z.to_nat FILE_CHUNK_SIZE)%nat).
  { pose proof FILE_CHUNK_SIZE_pos. lia. }
  generalize dependent (Z.to_nat FILE_CHUNK_SIZE). intros c -> Hpos.
  by apply Blob_slice_chunk.
Qed.

(** Chunk [i] is the byte range [i*C, min((i+1)*C, s)) of the file. *)
Lemma sendFile_chunk_byte_range (f : File) (i : Z) :
  0 ≤ i → i * FILE_CHUNK_SIZE ≤ file_size f →
  sendFile_chunk f i
  = byte_range (file_bytes f) (i * FILE_CHUNK_SIZE)
      (Z.min ((i + 1) * FILE_CHUNK_SIZE) (file_size f)).
Proof.
  intros Hi Hin. unfold sendFile_chunk.
  pose proof FILE_CHUNK_SIZE_pos as HC.
  replace ((i + 1) * FILE_CHUNK_SIZE) with (i * FILE_CHUNK_SIZE + FILE_CHUNK_SIZE) by lia.
  apply Blob_slice_range; unfold file_size in *; lia.
Qed.

(** The chunks of a file, one after the other, are the file. *)
Lemma concat_sendFile_chunks (f : File) :
  concat (sendFile_chunk f <$> seqZ 0 (sendFile_totalChunks f)) = file_bytes f.
Proof.
  pose proof (sendFile_totalChunks_pos f) as Hpos.
  pose proof (sendFile_totalChunks_covers f) as Hcov.
  pose proof FILE_CHUNK_SIZE_pos as HC.
  assert (HC' : (0 < Z.to_nat FILE_CHUNK_SIZE)%nat) by lia.
  unfold seqZ. rewrite <- list_fmap_compose.
  rewrite <- (concat_all_chunks (Z.to_nat FILE_CHUNK_SIZE) HC'
                (file_bytes f) (Z.to_nat (sendFile_totalChunks f))).
  - f_equal. apply list_fmap_ext. intros j k _. simpl.
    rewrite Z.add_0_r. apply sendFile_chunk_take_drop.
  - unfold file_size in Hcov. nia.
Qed.

(** ** Delivery to the receiver *)

Lemma filter_fmap_frame {A : Type} (P : A → Prop) `{!∀ x, Decision (P x)}
    (f : A → A) (l : list A) :
  (∀ x, P (f x) ↔ P x) → (∀ x, P x → f x = x) → filter P (f <$> l) = filter P l.
Proof.
  intros Hiff Hid. rewrite filter_fmap_preserved by done.
  transitivity (id <$> filter P l); [| apply list_fmap_id].
  apply list_fmap_ext. intros i x Hx. apply Hid.
  apply list_elem_of_lookup_2 in Hx. by apply list_elem_of_filter in Hx as [? _].
Qed.

Lemma filter_cons_inv {A : Type} (P : A → Prop) `{!∀ x, Decision (P x)}
    (l : list A) (x : A) (rest : list A) :
  filter P l = x :: rest →
  ∃ l1 l2, l = l1 ++ x :: l2 ∧ Forall (λ y, ¬ P y) l1 ∧ filter P l2 = rest.
Proof.
  induction l as [| y l IH]; [done |]. rewrite filter_cons.
  destruct (decide (P y)) as [Hy | Hy]; intros Heq.
  - injection Heq as -> <-. by exists [], l.
  - destruct (IH Heq) as (l1 & l2 & Hl & Hl1 & Hl2).
    exists (y :: l1), l2. split; [by rewrite Hl |]. split; [by constructor | done].
Qed.

Lemma filter_snoc_inv {A : Type} (P : A → Prop) `{!∀ x, Decision (P x)}
    (l : list A) (x : A) (rest : list A) :
  filter P l = rest ++ [x] →
  ∃ l1 l2, l = l1 ++ x :: l2 ∧ filter P l1 = rest ∧ Forall (λ y, ¬ P y) l2.
Proof.
  induction l as [| y l IH] using rev_ind.
  - intros Heq. by destruct rest.
  - rewrite filter_app, filter_cons, filter_nil.
    destruct (decide (P y)) as [Hy | Hy]; intros Heq.
    + apply app_inj_tail in Heq as [Hrest ->]. by exists l, [].
    + rewrite app_nil_r in Heq. destruct (IH Heq) as (l1 & l2 & Hl & Hl1 & Hl2).
      exists l1, (l2 ++ [y]). split; [by rewrite Hl, <- app_assoc |]. split; [done |].
      apply Forall_app. split; [done | by constructor].
Qed.

Lemma chunk_update_meta tid chunk t : meta (chunk_update tid chunk t) = meta t.
Proof. unfold chunk_update. by case_decide. Qed.

Lemma complete_update_meta tid url b t : meta (complete_update tid url b t) = meta t.
Proof. unfold complete_update. by case_decide. Qed.

Lemma error_update_meta tid message t : meta (error_update tid message t) = meta t.
Proof. unfold error_update. by case_decide. Qed.

Lemma receive_all_app (l1 l2 : list Message) (st : Receiver) :
  receive_all (l1 ++ l2) st = receive_all l2 (receive_all l1 st).
Proof. unfold receive_all. apply foldl_app. Qed.

Lemma array_set_fill {A : Type} (done_ : list A) (r : nat) (x : A) :
  Z.of_nat (length done_) < MAX_ARRAY_LENGTH →
  array_set ((Some <$> done_) ++ replicate (S r) None) (Z.of_nat (length done_)) x
  = (Some <$> (done_ ++ [x])) ++ replicate r None.
Proof.
  intros Hidx. unfold array_set.
  replace ((0 <=? Z.of_nat (length done_)) && (Z.of_nat (length done_) <? MAX_ARRAY_LENGTH))
    with true by (symmetry; rewrite andb_true_iff, Z.leb_le, Z.ltb_lt; lia).
  rewrite Nat2Z.id.
  replace (S (length done_) - length ((Some <$> done_) ++ replicate (S r) None))%nat
    with 0%nat by (rewrite length_app, length_fmap, length_replicate; lia).
  cbn [replicate]. rewrite app_nil_r.
  rewrite insert_app_r_alt by (rewrite length_fmap; lia).
  rewrite length_fmap, Nat.sub_diag. cbn [replicate].
  rewrite fmap_app, <- app_assoc. reflexivity.
Qed.

Section delivery.
Variable tid : string.
Implicit Types (st : Receiver) (msg : Message).

(** A message of another transfer touches neither the buffer nor the
    entries of this one. *)
Lemma receive_foreign msg st :
  msg_tid msg ≠ tid →
  incomingBuffers (receive msg st) !! tid = incomingBuffers st !! tid
  ∧ filter (incoming_of tid) (incomingFiles (receive msg st)) = filter (incoming_of tid) (incomingFiles st).
Proof.
  intros Hne. destruct msg as [room m | room tid' idx chunk | room tid' | room tid' message];
    simpl in *.
  - unfold on_file_meta. destruct (new_Array (totalChunks m)) as [slots |]; [| done].
    simpl. split; [by rewrite lookup_insert_ne |].
    rewrite filter_app, (filter_singleton_False _ _ []) by (simpl; congruence).
    rewrite app_nil_r. apply list_filter_filter_l. simpl. congruence.
  - unfold on_file_chunk. destruct (incomingBuffers st !! tid') as [buffers |]; [| done].
    simpl. split; [by rewrite lookup_insert_ne |].
    apply filter_fmap_frame; simpl.
    + intros x. by rewrite chunk_update_meta.
    + intros x Hx. apply chunk_update_other. congruence.
  - unfold on_file_complete. destruct (incomingBuffers st !! tid') as [buffers |]; [| done].
    simpl. split; [by rewrite lookup_delete_ne |].
    apply filter_fmap_frame; simpl.
    + intros x. by rewrite complete_update_meta.
    + intros x Hx. apply complete_update_other. congruence.
  - split; [by rewrite lookup_delete_ne |].
    apply filter_fmap_frame; simpl.
    + intros x. by rewrite error_update_meta.
    + intros x Hx. apply error_update_other. congruence.
Qed.

Lemma receive_all_foreign (l : list Message) st :
  Forall (λ msg, ¬ msg_tid msg = tid) l →
  incomingBuffers (receive_all l st) !! tid = incomingBuffers st !! tid
  ∧ filter (incoming_of tid) (incomingFiles (receive_all l st)) = filter (incoming_of tid) (incomingFiles st).
Proof.
  intros Hl. revert st. induction Hl as [| msg l Hmsg _ IH]; intros st; [done |].
  unfold receive_all in *. cbn [foldl].
  destruct (IH (receive msg st)) as [-> ->]. by apply receive_foreign.
Qed.

Lemma filling_foreign (l : list Message) st m done_ r :
  Forall (λ msg, ¬ msg_tid msg = tid) l →
  filling tid m done_ r st → filling tid m done_ r (receive_all l st).
Proof.
  intros Hl [Hbuf Hfiles]. destruct (receive_all_foreign l st Hl) as [Hb Hf].
  split; [by rewrite Hb |]. by rewrite Hf.
Qed.

(** The meta opens the transfer with all its slots empty. *)
Lemma filling_meta room m st :
  transferId m = tid → is_array_length (totalChunks m) = true →
  filling tid m [] (Z.to_nat (totalChunks m)) (receive (file_meta room m) st).
Proof.
  intros Htid Hlen. cbn [receive]. rewrite (on_file_meta_valid _ _ Hlen).
  rewrite <- Htid. split; cbn [incomingBuffers incomingFiles].
  - by rewrite lookup_insert_eq.
  - exists (fresh_incoming m). split; [apply on_file_meta_entries | done].
Qed.

(** The next chunk in order fills the first empty slot. *)
Lemma filling_chunk room chunk st m done_ r :
  Z.of_nat (length done_) < MAX_ARRAY_LENGTH →
  filling tid m done_ (S r) st →
  filling tid m (done_ ++ [chunk]) r
    (receive (file_chunk room tid (Z.of_nat (length done_)) chunk) st).
Proof.
  intros Hidx [Hbuf (t & Ht & Hmeta)]. cbn [receive].
  rewrite (on_file_chunk_registered _ _ _ _ _ Hbuf).
  split; cbn [incomingBuffers incomingFiles].
  - rewrite lookup_insert_eq. f_equal. by apply array_set_fill.
  - exists (chunk_update tid chunk t). split; [| by rewrite chunk_update_meta].
    rewrite filter_fmap_preserved by (intros x; by rewrite chunk_update_meta).
    by rewrite Ht.
Qed.

(** The chunks of the transfer arrive in order, with messages of other
    transfers anywhere between them. *)
Lemma filling_chunks room (l : list Message) :
  ∀ (cs done_ : list (list byte)) st m r,
    filter (λ msg, msg_tid msg = tid) l
    = chunk_messages room tid (Z.of_nat (length done_)) cs →
    Z.of_nat (length done_ + length cs) ≤ MAX_ARRAY_LENGTH →
    filling tid m done_ (length cs + r) st →
    filling tid m (done_ ++ cs) r (receive_all l st).
Proof.
  induction l as [| msg l IH]; intros cs done_ st m r Hl Hmax Hfill.
  - destruct cs; [| done]. by rewrite app_nil_r.
  - rewrite filter_cons in Hl. unfold receive_all in *. cbn [foldl].
    destruct (decide (msg_tid msg = tid)) as [Hmine | Hother].
    + destruct cs as [| c cs]; [done |]. cbn [chunk_messages] in Hl.
      injection Hl as -> Hl. simpl in Hfill, Hmax.
      rewrite (cons_middle c done_ cs), app_assoc.
      apply IH.
      * rewrite Hl, length_app. simpl. f_equal. lia.
      * rewrite length_app. simpl. lia.
      * apply filling_chunk; [lia | done].
    + apply IH; [done | done |].
      apply (filling_foreign [msg]); [by constructor | done].
Qed.

Lemma filter_Boolean_filled {A : Type} (done_ : list A) (r : nat) :
  filter_Boolean ((Some <$> done_) ++ replicate r None) = done_.
Proof.
  unfold filter_Boolean. rewrite omap_app.
  replace (omap id (replicate r (@None A))) with (@nil A)
    by (induction r; [done | by simpl]).
  rewrite app_nil_r. induction done_ as [| x l IH]; [done |].
  simpl. f_equal. exact IH.
Qed.

(** The completion marker assembles the filled slots in order. *)
Lemma filling_complete room st m done_ r :
  filling tid m done_ r st →
  incomingBuffers (receive (file_complete room tid) st) !! tid = None
  ∧ ∃ t, filter (incoming_of tid) (incomingFiles (receive (file_complete room tid) st)) = [t]
         ∧ meta t = m ∧ status t = complete
         ∧ receivedBytes t = size m ∧ receivedChunks t = totalChunks m
         ∧ blob t = Some (concat done_).
Proof.
  intros [Hbuf (t & Ht & Hmeta)]. simpl.
  rewrite (on_file_complete_registered _ _ _ Hbuf). simpl.
  split; [apply lookup_delete_eq |].
  rewrite filter_Boolean_filled.
  rewrite filter_fmap_preserved by (intros x; by rewrite complete_update_meta).
  rewrite Ht. simpl. eexists. split; [reflexivity |].
  assert (Hmine : transferId (meta t) = tid).
  { assert (Hin : t ∈ filter (incoming_of tid) (incomingFiles st)) by (rewrite Ht; by left).
    by apply list_elem_of_filter in Hin as [? _]. }
  unfold complete_update. rewrite decide_True by done. simpl.
  by rewrite Hmeta.
Qed.

End delivery.

(** C1. Round trip.  For every file of size [s > 0] the sender emits, after
    the meta, the chunks indexed [0 .. totalChunks - 1], chunk [i] carrying
    the byte range [i*C, min((i+1)*C, s)) of the file for [C] = 512 KiB, and
    then the completion marker; when a peer gets these messages in the order
    they were sent (messages of other transfers may come between them), its
    assembly on [file:complete] is the file, byte for byte.  The chunk count
    is within the length of an array, which holds for every file below
    2^51 bytes. *)
Theorem C1_chunked_transfer_roundtrip
    (env : SendEnv) (queued : QueuedFile) (delivered : list Message) (st : Receiver) :
  let f := q_file queued in
  let tid := generateTransferId env queued in
  let room := effectiveRoomId env in
  let s := file_size f in
  let n := sendFile_totalChunks f in
  0 < s →
  is_array_length n = true →
  (∀ i, 0 ≤ i < n → arrayBuffer env queued i = read_ok) →
  filter (λ msg, msg_tid msg = tid) delivered = sendFile_messages env queued →
  FILE_CHUNK_SIZE = 512 * 1024
  ∧ sendFile_messages env queued
    = file_meta room (sendFile_meta queued tid)
      :: ((λ i, file_chunk room tid i
                  (byte_range (file_bytes f) (i * FILE_CHUNK_SIZE)
                     (Z.min ((i + 1) * FILE_CHUNK_SIZE) s))) <$> seqZ 0 n)
      ++ [file_complete room tid]
  ∧ ∃ t, filter (λ item, transferId (meta item) = tid)
           (incomingFiles (receive_all delivered st)) = [t]
         ∧ meta t = sendFile_meta queued tid
         ∧ status t = complete
         ∧ blob t = Some (file_bytes f).
Proof.
  intros f tid room s n Hs Hlen Hok Hdelivered.
  pose proof (sendFile_messages_ok env queued Hok) as Hmsgs.
  fold f tid room n in Hmsgs.
  split; [reflexivity |]. split.
  - rewrite Hmsgs. f_equal. f_equal.
    pose proof (sendFile_totalChunks_pos f) as Hpos. fold n in Hpos.
    rewrite <- (Z2Nat.id n) by lia. rewrite chunk_messages_fmap'.
    apply list_fmap_ext. intros k i Hi. apply lookup_seqZ in Hi as [-> Hk].
    f_equal. apply sendFile_chunk_byte_range; [lia |].
    pose proof (sendFile_totalChunks_tight f Hs) as Htight. fold n s in Htight.
    pose proof FILE_CHUNK_SIZE_pos. fold s. nia.
  - rewrite Hmsgs in Hdelivered.
    apply filter_cons_inv in Hdelivered as (before & rest & Hsplit & Hbefore & Hrest).
    apply filter_snoc_inv in Hrest as (between & after & Hsplit' & Hbetween & Hafter).
    rewrite Hsplit, Hsplit'.
    rewrite receive_all_app. unfold receive_all at 1. cbn [foldl].
    fold (receive_all (between ++ file_complete room tid :: after)
            (receive (file_meta room (sendFile_meta queued tid)) (receive_all before st))).
    rewrite receive_all_app. unfold receive_all at 1. cbn [foldl].
    fold (receive_all after
            (receive (file_complete room tid)
               (receive_all between
                  (receive (file_meta room (sendFile_meta queued tid))
                     (receive_all before st))))).
    set (st1 := receive (file_meta room (sendFile_meta queued tid)) (receive_all before st)).
    assert (Hfill1 : filling tid (sendFile_meta queued tid) [] (Z.to_nat n) st1).
    { apply (filling_meta tid room (sendFile_meta queued tid)); done. }
    set (cs := sendFile_chunk f <$> seqZ 0 n) in *.
    assert (Hcs : length cs = Z.to_nat n) by (unfold cs; by rewrite length_fmap, length_seqZ).
    apply is_array_length_spec in Hlen.
    assert (Hfill2 : filling tid (sendFile_meta queued tid) ([] ++ cs) 0
                       (receive_all between st1)).
    { apply (filling_chunks tid room between cs [] st1).
      - exact Hbetween.
      - simpl. lia.
      - by rewrite Hcs, Nat.add_0_r. }
    rewrite app_nil_l in Hfill2.
    destruct (filling_complete tid room _ _ _ _ Hfill2)
      as (_ & t & Ht & Hmeta & Hstatus & _ & _ & Hblob).
    destruct (receive_all_foreign tid after
                (receive (file_complete room tid) (receive_all between st1)) Hafter)
      as [_ Hkeep].
    exists t. rewrite Hkeep. split; [exact Ht |]. split; [exact Hmeta |].
    split; [exact Hstatus |]. rewrite Hblob. f_equal.
    apply concat_sendFile_chunks.
Qed.

Lemma C1_chunked_transfer_roundtrip_witness :
  ∃ t, filter (λ item, transferId (meta item) = "tid-q1")
         (incomingFiles (receive_all demo_delivered demo_receiving)) = [t]
       ∧ meta t = sendFile_meta demo_queued "tid-q1"
       ∧ status t = complete
       ∧ blob t = Some [x61; x62; x63].
Proof.
  apply (C1_chunked_transfer_roundtrip demo_env demo_queued demo_delivered demo_receiving).
  - reflexivity.
  - reflexivity.
  - intros i _. reflexivity.
  - vm_compute. reflexivity.
Defined.

(** ** Batches *)

Lemma batch_loop_concat (fuel i : nat) (queue : list QueuedFile) :
  (length queue - i ≤ fuel)%nat → concat (batch_loop fuel i queue) = drop i queue.
Proof.
  revert i. induction fuel as [| fuel IH]; intros i Hfuel.
  - simpl. by rewrite drop_ge by lia.
  - cbn [batch_loop]. destruct (decide (i < length queue)%nat) as [Hi | Hi].
    + cbn [concat]. rewrite IH by (unfold PARALLEL_LIMIT; lia).
      rewrite <- drop_drop. apply take_drop.
    + simpl. by rewrite drop_ge by lia.
Qed.

Lemma batch_loop_sizes (fuel i : nat) (queue : list QueuedFile) :
  Forall (λ batch, (1 ≤ length batch ≤ PARALLEL_LIMIT)%nat) (batch_loop fuel i queue).
Proof.
  revert i. induction fuel as [| fuel IH]; intros i; [constructor |].
  cbn [batch_loop]. destruct (decide (i < length queue)%nat) as [Hi | Hi]; [| constructor].
  constructor; [| apply IH].
  rewrite length_take, length_drop. unfold PARALLEL_LIMIT. lia.
Qed.

Lemma batches_concat (queue : list QueuedFile) : concat (batches queue) = queue.
Proof. unfold batches. by rewrite batch_loop_concat by lia. Qed.

Lemma batches_sizes (queue : list QueuedFile) :
  Forall (λ batch, (1 ≤ length batch ≤ PARALLEL_LIMIT)%nat) (batches queue).
Proof. apply batch_loop_sizes. Qed.

(** ** Interleavings *)

Lemma filter_nil_Forall {A : Type} (P : A → Prop) `{!∀ x, Decision (P x)} (l : list A) :
  Forall (λ x, ¬ P x) l → filter P l = [].
Proof.
  induction 1 as [| x l Hx _ IH]; [done |]. by rewrite filter_cons_False.
Qed.

Lemma filter_all_Forall {A : Type} (P : A → Prop) `{!∀ x, Decision (P x)} (l : list A) :
  Forall P l → filter P l = l.
Proof.
  induction 1 as [| x l Hx _ IH]; [done |]. rewrite filter_cons_True by done. by rewrite IH.
Qed.

Section interleavings.
Context {A : Type}.
Implicit Types (tasks : list (list A)) (sched : list nat).

Lemma concat_insert_tail tasks (k : nat) (a : A) (rest : list A) :
  tasks !! k = Some (a :: rest) →
  tasks = take k tasks ++ (a :: rest) :: drop (S k) tasks
  ∧ <[k := rest]> tasks = take k tasks ++ rest :: drop (S k) tasks.
Proof.
  intros Hk. split.
  - symmetry. by apply take_drop_middle.
  - pose proof (lookup_lt_Some _ _ _ Hk) as Hlt.
    rewrite <- (take_drop_middle tasks k (a :: rest) Hk) at 1.
    rewrite insert_app_r_alt by (rewrite length_take; lia).
    rewrite length_take, Nat.min_l by lia. by rewrite Nat.sub_diag.
Qed.

(** An interleaving runs every segment of every task once. *)
Lemma interleave_Permutation sched tasks : interleave sched tasks ≡ₚ concat tasks.
Proof.
  revert tasks. induction sched as [| k sched IH]; intros tasks; [done |].
  cbn [interleave]. destruct (tasks !! k) as [[| a rest] |] eqn:Hk; [apply IH | | apply IH].
  destruct (concat_insert_tail tasks k a rest Hk) as [Htasks Hins].
  rewrite IH, Hins. rewrite Htasks at 3.
  rewrite !concat_app. cbn [concat app].
  apply Permutation_middle.
Qed.

(** The segments of one task keep their order: when the segments that
    satisfy [P] all sit in one task, an interleaving shows them as that
    task has them. *)
Lemma interleave_filter (P : A → Prop) `{!∀ x, Decision (P x)} sched tasks (k0 : nat) :
  (∀ j task, j ≠ k0 → tasks !! j = Some task → Forall (λ a, ¬ P a) task) →
  filter P (interleave sched tasks) = filter P (concat tasks).
Proof.
  revert tasks. induction sched as [| k sched IH]; intros tasks Hothers; [done |].
  cbn [interleave].
  destruct (tasks !! k) as [[| a rest] |] eqn:Hk; [by apply IH | | by apply IH].
  destruct (concat_insert_tail tasks k a rest Hk) as [Htasks Hins].
  assert (Hothers' : ∀ j task, j ≠ k0 → <[k := rest]> tasks !! j = Some task →
                               Forall (λ a, ¬ P a) task).
  { intros j task Hj Hlook. destruct (decide (j = k)) as [-> | Hjk].
    - rewrite list_lookup_insert_eq in Hlook by (by eapply lookup_lt_Some).
      injection Hlook as <-.
      pose proof (Hothers k _ Hj Hk) as Hall. by inversion Hall.
    - rewrite list_lookup_insert_ne in Hlook by done. by eapply Hothers. }
  assert (Hc : concat tasks
               = concat (take k tasks) ++ (a :: rest) ++ concat (drop (S k) tasks)).
  { rewrite Htasks at 1. by rewrite concat_app. }
  rewrite filter_cons, (IH _ Hothers'), Hins, Hc.
  rewrite !concat_app. cbn [concat app]. rewrite !filter_app, filter_cons, !filter_app.
  destruct (decide (P a)) as [Ha | Ha]; [| done].
  replace (filter P (concat (take k tasks))) with (@nil A); [done |].
  symmetry. apply filter_nil_Forall.
  apply Forall_concat. apply Forall_forall. intros task Htask.
  apply list_elem_of_lookup in Htask as [j Hj].
  pose proof (lookup_lt_Some _ _ _ Hj) as Hlt. rewrite length_take in Hlt.
  rewrite lookup_take_lt in Hj by lia.
  apply (Hothers j); [| done]. intros ->.
  destruct (decide (k = k0)) as [-> | Hkk]; [lia |].
  pose proof (Hothers k _ Hkk Hk) as Hall. by inversion Hall.
Qed.

End interleavings.

(** [interleave] gives interleavings, and every interleaving comes from a
    schedule. *)
Lemma interleaving_sequential {A : Type} (tasks : list (list A)) :
  ∀ finished, Forall (λ task, task = []) finished →
    interleaving (finished ++ tasks) (concat tasks).
Proof.
  induction tasks as [| task tasks IH]; intros finished Hfin.
  - rewrite app_nil_r. by constructor.
  - induction task as [| a rest IHtask].
    + rewrite (cons_middle [] finished tasks), app_assoc. cbn [concat app].
      apply IH. apply Forall_app. split; [done | by repeat constructor].
    + cbn [concat app]. apply (interleaving_step _ (length finished) a rest).
      * by rewrite list_lookup_middle.
      * rewrite <- (Nat.add_0_r (length finished)), insert_app_r. exact IHtask.
Qed.

Lemma interleave_sound {A : Type} (sched : list nat) (tasks : list (list A)) :
  interleaving tasks (interleave sched tasks).
Proof.
  revert tasks. induction sched as [| k sched IH]; intros tasks.
  - apply (interleaving_sequential tasks []). constructor.
  - cbn [interleave]. destruct (tasks !! k) as [[| a rest] |] eqn:Hk; [apply IH | | apply IH].
    by apply (interleaving_step _ k a rest).
Qed.

Lemma interleave_complete {A : Type} (tasks : list (list A)) (trace : list A) :
  interleaving tasks trace → ∃ sched, interleave sched tasks = trace.
Proof.
  induction 1 as [tasks Hdone | tasks k a rest trace Hk _ [sched IH]].
  - exists []. cbn [interleave]. induction Hdone as [| ? ? -> _ IH]; [done | exact IH].
  - exists (k :: sched). cbn [interleave]. by rewrite Hk, IH.
Qed.

(** ** The sender's view of one transfer *)

Section sender_runs.
Variable tid : string.
Implicit Types (prev : list OutgoingTransfer) (a : Action) (st : Sender).


Lemma outgoing_run_actions (room : string) (acts : list Action) st :
  outgoingFiles (run_actions room acts st) = foldl outgoing_step (outgoingFiles st) acts.
Proof.
  revert st. induction acts as [| a acts IH]; intros st; [done |].
  unfold run_actions in *. cbn [foldl]. by rewrite IH.
Qed.

Lemma set_outgoing_meta (f : OutgoingTransfer → OutgoingTransfer) (tid' : string)
    (item : OutgoingTransfer) :
  (∀ x, out_meta (f x) = out_meta x) → out_meta (set_outgoing f tid' item) = out_meta item.
Proof. intros Hf. unfold set_outgoing. by case_decide. Qed.

Lemma set_outgoing_other (f : OutgoingTransfer → OutgoingTransfer) (tid' : string)
    (item : OutgoingTransfer) :
  transferId (out_meta item) ≠ tid' → set_outgoing f tid' item = item.
Proof. intros H. unfold set_outgoing. by case_decide. Qed.

(** A segment of another transfer leaves the entries of this one alone. *)
Lemma action_outgoing_foreign a prev :
  action_tid a ≠ tid → filter (outgoing_of tid) (action_outgoing a prev) = filter (outgoing_of tid) prev.
Proof.
  intros Hne. destruct a as [m | tid' idx chunk | qid tid' | qid tid' message]; simpl in *.
  - rewrite filter_app, (filter_singleton_False _ _ []) by (simpl; congruence).
    rewrite app_nil_r. apply list_filter_filter_l. simpl. congruence.
  - apply filter_fmap_frame; simpl.
    + intros x. by rewrite set_outgoing_meta.
    + intros x Hx. apply set_outgoing_other. congruence.
  - apply filter_fmap_frame; simpl.
    + intros x. by rewrite set_outgoing_meta.
    + intros x Hx. apply set_outgoing_other. congruence.
  - apply filter_fmap_frame; simpl.
    + intros x. by rewrite set_outgoing_meta.
    + intros x Hx. apply set_outgoing_other. congruence.
Qed.

(** A segment of this transfer acts on its entries as it does on all. *)
Lemma action_outgoing_own a prev :
  action_tid a = tid → filter (outgoing_of tid) (action_outgoing a prev) = action_outgoing a (filter (outgoing_of tid) prev).
Proof.
  intros Heq. destruct a as [m | tid' idx chunk | qid tid' | qid tid' message]; simpl in *.
  - rewrite filter_app, (filter_singleton_True _ _ []) by done.
    f_equal. rewrite !list_filter_filter. apply list_filter_iff. tauto.
  - apply filter_fmap_preserved. intros x. by rewrite set_outgoing_meta.
  - apply filter_fmap_preserved. intros x. by rewrite set_outgoing_meta.
  - apply filter_fmap_preserved. intros x. by rewrite set_outgoing_meta.
Qed.

Lemma outgoing_projection (acts : list Action) prev :
  filter (outgoing_of tid) (foldl outgoing_step prev acts)
  = foldl outgoing_step (filter (outgoing_of tid) prev) (filter (λ a, action_tid a = tid) acts).
Proof.
  revert prev. induction acts as [| a acts IH]; intros prev; [done |].
  cbn [foldl]. rewrite IH, filter_cons.
  destruct (decide (action_tid a = tid)) as [Ha | Ha].
  - cbn [foldl]. by rewrite action_outgoing_own.
  - by rewrite action_outgoing_foreign.
Qed.

(** The loop of [sendFile] on the entry of its transfer: complete when
    every read succeeds, error as soon as one is rejected. *)
Lemma sendFile_loop_status (env : SendEnv) (queued : QueuedFile) (r : nat) :
  ∀ (idx : Z) (e : OutgoingTransfer),
    transferId (out_meta e) = tid →
    ∃ e', foldl outgoing_step [e] (sendFile_loop env queued tid r idx) = [e']
          ∧ out_meta e' = out_meta e
          ∧ ((∀ i, idx ≤ i < idx + Z.of_nat r → arrayBuffer env queued i = read_ok) →
             out_status e' = out_complete)
          ∧ ((∃ i, idx ≤ i < idx + Z.of_nat r ∧ arrayBuffer env queued i ≠ read_ok) →
             out_status e' = out_error).
Proof.
  induction r as [| r IH]; intros idx e He.
  - cbn [sendFile_loop foldl action_outgoing fmap list_fmap].
    unfold set_outgoing. rewrite decide_True by done.
    eexists. split; [reflexivity |]. simpl. split; [done |]. split; [done |].
    intros (i & Hi & _). lia.
  - cbn [sendFile_loop]. destruct (arrayBuffer env queued idx) as [| reason] eqn:Hread.
    + cbn [foldl action_outgoing fmap list_fmap].
      unfold set_outgoing. rewrite decide_True by done.
      match goal with |- context [foldl _ [?e1] _] =>
        destruct (IH (idx + 1) e1 He) as (e' & Hrun & Hmeta & Hok & Hfail) end.
      exists e'. split; [exact Hrun |]. split; [exact Hmeta |]. split.
      * intros Hall. apply Hok. intros i Hi. apply Hall. lia.
      * intros (i & Hi & Hbad). apply Hfail. exists i. split; [| done].
        destruct (decide (i = idx)) as [-> | Hne]; [congruence | lia].
    + cbn [foldl action_outgoing fmap list_fmap].
      unfold set_outgoing. rewrite decide_True by done.
      eexists. split; [reflexivity |]. simpl. split; [done |]. split; [| done].
      intros Hall. rewrite Hall in Hread by lia. discriminate.
Qed.

(** One file's segments alone, on the entries of its transfer. *)
Lemma sendFile_status (env : SendEnv) (queued : QueuedFile) prev :
  generateTransferId env queued = tid →
  Forall (outgoing_of tid) prev →
  ∃ e', foldl outgoing_step prev (sendFile env queued) = [e']
        ∧ out_meta e' = sendFile_meta queued tid
        ∧ (reads_ok env queued → out_status e' = out_complete)
        ∧ (read_fails env queued → out_status e' = out_error).
Proof.
  intros Htid Hprev. unfold sendFile. rewrite Htid. cbn [foldl action_outgoing].
  replace (filter (λ item, transferId (out_meta item) ≠ transferId (sendFile_meta queued tid))
             prev) with (@nil OutgoingTransfer).
  2:{ symmetry. apply filter_nil_Forall. eapply Forall_impl; [exact Hprev |].
      simpl. intros x Hx. tauto. }
  cbn [app].
  pose proof (sendFile_totalChunks_pos (q_file queued)) as Hpos.
  match goal with |- context [foldl _ [?e1] _] =>
    destruct (sendFile_loop_status env queued
                (Z.to_nat (sendFile_totalChunks (q_file queued))) 0 e1 eq_refl)
      as (e' & Hrun & Hmeta & Hok & Hfail) end.
  exists e'. split; [exact Hrun |]. split; [exact Hmeta |]. split.
  - intros Hall. apply Hok. intros i Hi. apply Hall. lia.
  - intros (i & Hi & Hbad). apply Hfail. exists i. split; [lia | done].
Qed.

End sender_runs.

(** ** A whole run of the send queue *)

Lemma sendFile_loop_action_tid (env : SendEnv) (queued : QueuedFile) (tid : string)
    (r : nat) (idx : Z) :
  Forall (λ a, action_tid a = tid) (sendFile_loop env queued tid r idx).
Proof.
  revert idx. induction r as [| r IH]; intros idx; cbn [sendFile_loop].
  - by repeat constructor.
  - destruct (arrayBuffer env queued idx); by repeat constructor.
Qed.

Lemma sendFile_action_tid (env : SendEnv) (queued : QueuedFile) :
  Forall (λ a, action_tid a = generateTransferId env queued) (sendFile env queued).
Proof. unfold sendFile. constructor; [done | apply sendFile_loop_action_tid]. Qed.

Lemma filter_tasks_none (env : SendEnv) (queue : list QueuedFile) (tid : string) :
  tid ∉ generateTransferId env <$> queue →
  filter (λ a, action_tid a = tid) (concat (sendFile env <$> queue)) = [].
Proof.
  induction queue as [| q queue IH]; intros Hnotin; [done |].
  rewrite fmap_cons in Hnotin. apply not_elem_of_cons in Hnotin as [Hne Hnotin].
  cbn [fmap list_fmap concat]. rewrite filter_app, (IH Hnotin), app_nil_r.
  apply filter_nil_Forall. eapply Forall_impl; [apply sendFile_action_tid |].
  simpl. congruence.
Qed.

Lemma filter_tasks_own (env : SendEnv) (queue : list QueuedFile) (queued : QueuedFile) :
  NoDup (generateTransferId env <$> queue) → queued ∈ queue →
  filter (λ a, action_tid a = generateTransferId env queued)
    (concat (sendFile env <$> queue)) = sendFile env queued.
Proof.
  induction queue as [| q queue IH]; intros Hnodup Hin; [by apply elem_of_nil in Hin |].
  rewrite fmap_cons in Hnodup. apply NoDup_cons in Hnodup as [Hfresh Hnodup].
  cbn [fmap list_fmap concat]. rewrite filter_app.
  destruct (decide (generateTransferId env q = generateTransferId env queued)) as [Heq | Hne].
  - assert (queued = q) as ->.
    { apply elem_of_cons in Hin as [-> | Hin]; [done |]. exfalso. apply Hfresh.
      rewrite Heq. apply list_elem_of_fmap. eauto. }
    rewrite filter_tasks_none by done. rewrite app_nil_r.
    apply filter_all_Forall, sendFile_action_tid.
  - apply elem_of_cons in Hin as [-> | Hin]; [done |].
    rewrite (IH Hnodup Hin).
    rewrite (filter_nil_Forall _ (sendFile env q)); [done |].
    eapply Forall_impl; [apply sendFile_action_tid |]. simpl. congruence.
Qed.

Lemma NoDup_at_most_one {A : Type} `{!EqDecision A} (l : list A) (x : A) :
  NoDup l → ∃ k0 : nat, ∀ j, j ≠ k0 → l !! j ≠ Some x.
Proof.
  intros Hnodup. destruct (decide (x ∈ l)) as [Hin | Hnotin].
  - apply list_elem_of_lookup in Hin as [k0 Hk0]. exists k0. intros j Hj Hlook.
    apply Hj. by eapply NoDup_lookup.
  - exists 0%nat. intros j _ Hlook. apply Hnotin. by eapply list_elem_of_lookup_2.
Qed.

(** What one transfer sees of a whole run is its own segments in order,
    whatever the schedules are. *)
Lemma sendAll_trace_filter (env : SendEnv) (tid : string) (bs : list (list QueuedFile)) :
  ∀ scheds, NoDup (generateTransferId env <$> concat bs) →
    filter (λ a, action_tid a = tid) (sendAll_trace env scheds bs)
    = filter (λ a, action_tid a = tid) (concat (sendFile env <$> concat bs)).
Proof.
  induction bs as [| batch bs IH]; intros scheds Hnodup; [done |].
  cbn [sendAll_trace concat] in *. rewrite fmap_app in Hnodup.
  apply NoDup_app in Hnodup as (Hbatch & _ & Hrest).
  rewrite fmap_app, concat_app, !filter_app. rewrite (IH _ Hrest). f_equal.
  destruct (NoDup_at_most_one _ tid Hbatch) as [k0 Hk0].
  apply (interleave_filter _ _ _ k0). intros j task Hj Hlook.
  rewrite list_lookup_fmap in Hlook.
  destruct (batch !! j) as [q |] eqn:Hq; [| done]. injection Hlook as <-.
  eapply Forall_impl; [apply sendFile_action_tid |]. simpl. intros a -> Heq.
  apply (Hk0 j Hj). by rewrite list_lookup_fmap, Hq, <- Heq.
Qed.

(** A run is made of one trace per batch, each an interleaving of the
    segments of the files of its batch. *)
Lemma handleSendQueuedFiles_connected (env : SendEnv) (scheds : list (list nat)) (st : Sender) :
  handleSendQueuedFiles env true scheds st
  = run_actions (effectiveRoomId env)
      (sendAll_trace env scheds (batches (queuedFiles st))) st.
Proof.
  unfold handleSendQueuedFiles. cbn [negb].
  destruct (decide (length (queuedFiles st) = 0%nat)) as [Hempty | _]; [| done].
  apply length_zero_iff_nil in Hempty. by rewrite Hempty.
Qed.

Lemma elem_of_concat {A : Type} (x : A) (ls : list (list A)) :
  x ∈ concat ls ↔ ∃ l, l ∈ ls ∧ x ∈ l.
Proof.
  induction ls as [| l ls IH]; cbn [concat].
  - split; [by intros H%elem_of_nil | by intros (l & H%elem_of_nil & _)].
  - rewrite elem_of_app, IH. split.
    + intros [Hx | (l' & Hl' & Hx)]; [exists l; split; [by left | done] |].
      exists l'. split; [by right | done].
    + intros (l' & [-> | Hl']%elem_of_cons & Hx); [by left | right; eauto].
Qed.

Lemma queue_run_actions (room : string) (acts : list Action) (st : Sender) :
  queuedFiles (run_actions room acts st)
  = filter (λ item, q_id item ∉ omap action_dequeues acts) (queuedFiles st).
Proof.
  revert st. induction acts as [| a acts IH]; intros st.
  - cbn. symmetry. apply filter_all_Forall, Forall_forall. intros x _. apply not_elem_of_nil.
  - unfold run_actions in *. cbn [foldl]. rewrite IH. cbn [queuedFiles apply_action].
    destruct a as [m | tid idx chunk | qid tid | qid tid message];
      cbn [action_queue omap list_omap action_dequeues]; try done.
    + rewrite list_filter_filter. apply list_filter_iff. intros x.
      rewrite not_elem_of_cons. tauto.
    + rewrite list_filter_filter. apply list_filter_iff. intros x.
      rewrite not_elem_of_cons. tauto.
Qed.

Lemma sendFile_loop_dequeues (env : SendEnv) (queued : QueuedFile) (tid : string)
    (r : nat) (idx : Z) :
  q_id queued ∈ omap action_dequeues (sendFile_loop env queued tid r idx).
Proof.
  revert idx. induction r as [| r IH]; intros idx; cbn [sendFile_loop].
  - by left.
  - destruct (arrayBuffer env queued idx); [| by left].
    cbn [omap list_omap action_dequeues]. apply IH.
Qed.

Lemma sendAll_trace_Permutation (env : SendEnv) (bs : list (list QueuedFile)) :
  ∀ scheds, sendAll_trace env scheds bs ≡ₚ concat (sendFile env <$> concat bs).
Proof.
  induction bs as [| batch bs IH]; intros scheds; [done |].
  cbn [sendAll_trace concat]. rewrite fmap_app, concat_app.
  by rewrite interleave_Permutation, IH.
Qed.

Lemma sendAll_trace_batches (env : SendEnv) (bs : list (list QueuedFile)) :
  ∀ scheds, ∃ traces,
    sendAll_trace env scheds bs = concat traces
    ∧ Forall2 (λ trace batch, trace ≡ₚ concat (sendFile env <$> batch)) traces bs.
Proof.
  induction bs as [| batch bs IH]; intros scheds.
  - exists []. split; [done | constructor].
  - destruct (IH (tail scheds)) as (traces & Htrace & Hall).
    exists (interleave (hd [] scheds) (sendFile env <$> batch) :: traces).
    cbn [sendAll_trace concat]. rewrite Htrace. split; [done |].
    constructor; [apply interleave_Permutation | done].
Qed.

Lemma sendFile_loop_dequeues_once (env : SendEnv) (queued : QueuedFile) (tid : string)
    (r : nat) (idx : Z) :
  omap action_dequeues (sendFile_loop env queued tid r idx) = [q_id queued].
Proof.
  revert idx. induction r as [| r IH]; intros idx; cbn [sendFile_loop]; [done |].
  destruct (arrayBuffer env queued idx); [| done].
  cbn [omap list_omap action_dequeues]. apply IH.
Qed.

Lemma sendFile_dequeues_once (env : SendEnv) (queued : QueuedFile) :
  omap action_dequeues (sendFile env queued) = [q_id queued].
Proof.
  unfold sendFile. cbn [omap list_omap action_dequeues]. apply sendFile_loop_dequeues_once.
Qed.

Lemma batch_dequeues (env : SendEnv) (files : list QueuedFile) :
  omap action_dequeues (concat (sendFile env <$> files)) = q_id <$> files.
Proof.
  induction files as [| queued files IH]; [done |].
  cbn [fmap list_fmap concat]. by rewrite omap_app, sendFile_dequeues_once, IH.
Qed.

Lemma sendAll_trace_interleavings (env : SendEnv) (bs : list (list QueuedFile)) :
  ∀ scheds, ∃ traces,
    sendAll_trace env scheds bs = concat traces
    ∧ Forall2 (λ trace batch,
                 interleaving (sendFile env <$> batch) trace
                 ∧ trace ≡ₚ concat (sendFile env <$> batch)) traces bs.
Proof.
  induction bs as [| batch bs IH]; intros scheds.
  - exists []. split; [done | constructor].
  - destruct (IH (tail scheds)) as (traces & Htrace & Hall).
    exists (interleave (hd [] scheds) (sendFile env <$> batch) :: traces).
    cbn [sendAll_trace concat]. rewrite Htrace. split; [done |].
    constructor; [| done]. split; [apply interleave_sound | apply interleave_Permutation].
Qed.

Lemma traces_dequeue (env : SendEnv) (traces : list (list Action))
    (bs : list (list QueuedFile)) (k : nat) :
  Forall2 (λ trace batch,
             interleaving (sendFile env <$> batch) trace
             ∧ trace ≡ₚ concat (sendFile env <$> batch)) traces bs →
  omap action_dequeues (concat (take k traces)) ≡ₚ q_id <$> concat (take k bs).
Proof.
  intros Hall. revert k. induction Hall as [| trace batch traces bs [_ Hperm] _ IH];
    intros k; [by rewrite !take_nil |].
  destruct k as [| k]; [done |]. cbn [take concat].
  by rewrite omap_app, fmap_app, Hperm, batch_dequeues, IH.
Qed.

Lemma filter_not_dequeued (ids : list string) (gone left : list QueuedFile) :
  ids ≡ₚ q_id <$> gone → NoDup (q_id <$> (gone ++ left)) →
  filter (λ item, q_id item ∉ ids) (gone ++ left) = left.
Proof.
  intros Hids Hnodup. rewrite fmap_app in Hnodup.
  apply NoDup_app in Hnodup as (_ & Hdisjoint & _).
  rewrite filter_app, filter_nil_Forall, filter_all_Forall; [done | |].
  - apply Forall_forall. intros x Hx Hin. rewrite Hids in Hin.
    by apply (Hdisjoint (q_id x)); [| apply list_elem_of_fmap_2].
  - apply Forall_forall. intros x Hx Hnotin. apply Hnotin. rewrite Hids.
    by apply list_elem_of_fmap_2.
Qed.

Lemma run_drains_queue (env : SendEnv) (scheds : list (list nat)) (st : Sender) :
  queuedFiles (handleSendQueuedFiles env true scheds st) = [].
Proof.
  rewrite handleSendQueuedFiles_connected, queue_run_actions.
  apply filter_nil_Forall, Forall_forall. intros queued Hin Hnot. apply Hnot.
  rewrite sendAll_trace_Permutation, batches_concat, batch_dequeues.
  by apply list_elem_of_fmap_2.
Qed.

(** C4. [sendAll] cuts the queue into batches of at most 3 files, in queue
    order; the run is one trace per batch, the next batch starting when all
    files of the one before are finished, each trace an interleaving of the
    segments of the files of its batch (every file's segments in their own
    order).  The queue is drained batch by batch: when the first [k] batches
    are finished the queue holds exactly the files of the batches after them
    (the queue entries having distinct identifiers), and at the end of the
    run it is empty.  Whatever the interleavings, a file all of whose reads
    succeed ends with status complete and a file with a rejected read ends
    with status error: failures do not reach the other transfers.  The
    transfer identifiers drawn in a run are distinct. *)
Theorem C4_sendAll_batches_isolate_failures
    (env : SendEnv) (scheds : list (list nat)) (st : Sender) :
  let queue := queuedFiles st in
  let final := handleSendQueuedFiles env true scheds st in
  NoDup (generateTransferId env <$> queue) →
  concat (batches queue) = queue
  ∧ Forall (λ batch, (1 ≤ length batch ≤ 3)%nat) (batches queue)
  ∧ (∃ traces,
        final = run_actions (effectiveRoomId env) (concat traces) st
        ∧ Forall2 (λ trace batch,
                     interleaving (sendFile env <$> batch) trace
                     ∧ trace ≡ₚ concat (sendFile env <$> batch))
            traces (batches queue)
        ∧ (NoDup (q_id <$> queue) →
           ∀ k, queuedFiles (run_actions (effectiveRoomId env) (concat (take k traces)) st)
                = concat (drop k (batches queue))))
  ∧ queuedFiles final = []
  ∧ ∀ queued, queued ∈ queue →
      (reads_ok env queued →
       outgoing_status (generateTransferId env queued) final = [out_complete])
      ∧ (read_fails env queued →
         outgoing_status (generateTransferId env queued) final = [out_error]).
Proof.
  intros queue final Hnodup.
  assert (Hfinal : final = run_actions (effectiveRoomId env)
                             (sendAll_trace env scheds (batches queue)) st).
  { unfold final, handleSendQueuedFiles. cbn [negb].
    destruct (decide (length (queuedFiles st) = 0%nat)) as [Hempty | _]; [| done].
    apply length_zero_iff_nil in Hempty. unfold queue. by rewrite Hempty. }
  split; [apply batches_concat |]. split; [apply batches_sizes |]. split; [| split].
  - destruct (sendAll_trace_interleavings env (batches queue) scheds)
      as (traces & Htrace & Hall).
    exists traces. split; [by rewrite <- Htrace |]. split; [done |].
    intros Hids k. rewrite queue_run_actions. fold queue.
    pose proof (traces_dequeue env traces (batches queue) k Hall) as Hgone.
    assert (Hsplit : queue = concat (take k (batches queue))
                             ++ concat (drop k (batches queue))).
    { by rewrite <- concat_app, take_drop, batches_concat. }
    rewrite Hsplit at 1. apply filter_not_dequeued; [done |]. by rewrite <- Hsplit.
  - apply run_drains_queue.
  - intros queued Hin.
    set (tid := generateTransferId env queued).
    assert (Hview : filter (λ item, transferId (out_meta item) = tid) (outgoingFiles final)
                    = foldl (λ prev a, action_outgoing a prev)
                        (filter (λ item, transferId (out_meta item) = tid) (outgoingFiles st))
                        (sendFile env queued)).
    { subst tid. rewrite Hfinal, outgoing_run_actions, outgoing_projection.
      rewrite sendAll_trace_filter by (by rewrite batches_concat).
      rewrite batches_concat. by rewrite filter_tasks_own. }
    destruct (sendFile_status tid env queued
                (filter (λ item, transferId (out_meta item) = tid) (outgoingFiles st))
                eq_refl)
      as (e' & Hrun & _ & Hok & Hfail).
    { apply Forall_forall. intros x Hx. by apply list_elem_of_filter in Hx as [? _]. }
    unfold outgoing_status. rewrite Hview, Hrun.
    split; intros H; simpl; f_equal; auto.
Qed.

Lemma C4_sendAll_batches_isolate_failures_witness :
  let final := handleSendQueuedFiles demo_env5 true demo_scheds demo_sender5 in
  NoDup (generateTransferId demo_env5 <$> demo_queue5)
  ∧ length <$> batches demo_queue5 = [3; 2]%nat
  ∧ queuedFiles final = []
  ∧ outgoing_status "tid-q1" final = [out_complete]
  ∧ outgoing_status "tid-q2" final = [out_error]
  ∧ outgoing_status "tid-q3" final = [out_complete]
  ∧ outgoing_status "tid-q4" final = [out_error]
  ∧ outgoing_status "tid-q5" final = [out_complete].
Proof.
  assert (Hnodup : NoDup (generateTransferId demo_env5 <$> demo_queue5)).
  { apply (bool_decide_unpack _). vm_compute. exact I. }
  destruct (C4_sendAll_batches_isolate_failures demo_env5 demo_scheds demo_sender5 Hnodup)
    as (_ & _ & _ & Hdrained & Hfiles).
  assert (Hok : ∀ qid path,
             String.eqb qid "q2" = false → String.eqb qid "q4" = false →
             reads_ok demo_env5 (demo_queue_entry qid demo_file path)).
  { intros qid path H2 H4 i _. simpl. by rewrite H2, H4. }
  assert (Hfail : ∀ qid path,
             (String.eqb qid "q2" || String.eqb qid "q4")%bool = true →
             read_fails demo_env5 (demo_queue_entry qid demo_file path)).
  { intros qid path H. exists 0. split; [split; [lia | reflexivity] |].
    simpl. by rewrite H. }
  split; [exact Hnodup |]. split; [reflexivity |]. split; [exact Hdrained |].
  split; [| split; [| split; [| split]]].
  - apply (Hfiles (demo_queue_entry "q1" demo_file None));
      [simpl; repeat constructor | by apply Hok].
  - apply (Hfiles (demo_queue_entry "q2" demo_file None));
      [simpl; repeat constructor | by apply Hfail].
  - apply (Hfiles (demo_queue_entry "q3" demo_file (Some "docs/a.txt")));
      [simpl; repeat constructor | by apply Hok].
  - apply (Hfiles (demo_queue_entry "q4" demo_file (Some "docs/sub/b.txt")));
      [simpl; repeat constructor | by apply Hfail].
  - apply (Hfiles (demo_queue_entry "q5" demo_file None));
      [simpl; repeat constructor | by apply Hok].
Defined.

Example sendAll_five_files_two_failures :
  (λ item, (transferId (out_meta item), out_status item))
    <$> outgoingFiles (handleSendQueuedFiles demo_env5 true demo_scheds demo_sender5)
  = [("tid-q3", out_complete); ("tid-q1", out_complete); ("tid-q2", out_error);
     ("tid-q5", out_complete); ("tid-q4", out_error)].
Proof. vm_compute. reflexivity. Qed.

(** ** Joining a room *)

Lemma trimStart_nil_iff (s : list N) :
  trimStart s = [] ↔ Forall (λ c, is_js_whitespace c = true) s.
Proof.
  induction s as [| c s IH]; [done |]. cbn [trimStart].
  destruct (is_js_whitespace c) eqn:Hc.
  - rewrite IH. split; [by constructor | by inversion 1].
  - split; [done |]. inversion 1; congruence.
Qed.

Lemma trimStart_suffix (s : list N) : ∃ ws, s = ws ++ trimStart s.
Proof.
  induction s as [| c s [ws IH]]; [by exists [] |]. cbn [trimStart].
  destruct (is_js_whitespace c); [| by exists []].
  exists (c :: ws). simpl. by rewrite <- IH.
Qed.

Lemma trimStart_head (s : list N) (c : N) (s' : list N) :
  trimStart s = c :: s' → is_js_whitespace c = false.
Proof.
  induction s as [| d s IH]; [done |]. cbn [trimStart].
  destruct (is_js_whitespace d) eqn:Hd; [exact IH |]. by intros [= <- _].
Qed.

(** [trim] leaves nothing exactly of the strings made of white space only
    (the empty string among them). *)
Lemma trim_nil_iff (s : list N) :
  trim s = [] ↔ Forall (λ c, is_js_whitespace c = true) s.
Proof.
  unfold trim. split.
  - intros H. apply (f_equal reverse) in H. rewrite reverse_involutive, reverse_nil in H.
    apply trimStart_nil_iff in H. rewrite Forall_reverse in H.
    destruct (trimStart s) as [| c s'] eqn:Hs; [by apply trimStart_nil_iff |].
    apply trimStart_head in Hs. inversion H as [| ? ? Hc _]. congruence.
  - intros H. apply trimStart_nil_iff in H. by rewrite H.
Qed.

Lemma received_app (who : list N) (event : RelayEvent) (l1 l2 : list Packet) :
  received who event (l1 ++ l2) = (received who event l1 + received who event l2)%nat.
Proof. unfold received. by rewrite filter_app, length_app. Qed.

Lemma received_broadcast (who room : list N) (event event' : RelayEvent) (peers : list (list N)) :
  NoDup peers →
  received who event
    ((λ peer, {| pkt_to := peer; pkt_event := event'; pkt_roomId := room |}) <$> peers)
  = if decide (who ∈ peers ∧ event' = event) then 1%nat else 0%nat.
Proof.
  unfold received. induction 1 as [| peer peers Hfresh _ IH]; cbn [fmap list_fmap].
  - rewrite filter_nil. rewrite decide_False; [done |]. intros [H _]. by apply elem_of_nil in H.
  - rewrite filter_cons. cbn [pkt_to pkt_event].
    destruct (decide (peer = who ∧ event' = event)) as [[-> ->] | Hne].
    + cbn [length]. rewrite IH. rewrite decide_False by tauto.
      rewrite decide_True; [done |]. split; [by left | done].
    + rewrite IH. apply decide_ext. rewrite elem_of_cons. split; [tauto |].
      intros [[-> | H] Hev]; [by destruct Hne | done].
Qed.

Lemma members_socket_join (client room other : list N) (st : Relay) :
  members (socket_join client room st) other
  = if decide (room = other) then {[client]} ∪ members st room else members st other.
Proof.
  unfold members, socket_join. cbn [rooms]. rewrite lookup_insert.
  by case_decide; subst.
Qed.

(** C8. A [room:join] packet without payload, or with [null], makes the
    listener throw a [TypeError] while it destructures its parameter, before
    the guard: it is not rejected silently.  With any other payload the
    listener returns, and then: a [roomId] that is not a string, or is blank
    or white space only, is dropped, no membership changes and nothing is
    sent.  Otherwise the sender is added to the members of the room, it gets
    exactly one [room:joined] and no [peer:joined], every other member of the
    room gets exactly one [peer:joined], and nobody else gets anything. *)
Theorem C8_room_join (client : list N) (roomId : js_value) (st : Relay) :
  let st' := (on_room_join client roomId st).1 in
  let pkts := (on_room_join client roomId st).2 in
  room_join_listener client None st = throws_TypeError
  ∧ room_join_listener client (Some roomId) st = returns (st', pkts)
  ∧ ((∀ room, roomId = js_str room → Forall (λ c, is_js_whitespace c = true) room) →
     st' = st ∧ pkts = [])
  ∧ (∀ room, roomId = js_str room → ¬ Forall (λ c, is_js_whitespace c = true) room →
       members st' room = {[client]} ∪ members st room
       ∧ (∀ other, other ≠ room → members st' other = members st other)
       ∧ received client room_joined pkts = 1%nat
       ∧ received client peer_joined pkts = 0%nat
       ∧ (∀ peer, peer ∈ members st room → peer ≠ client →
            received peer peer_joined pkts = 1%nat
            ∧ received peer room_joined pkts = 0%nat)
       ∧ (∀ who event, who ≠ client → who ∉ members st room →
            received who event pkts = 0%nat)
       ∧ Forall (λ p, pkt_roomId p = room) pkts).
Proof.
  intros st' pkts. split; [done |].
  split; [subst st' pkts; cbn [room_join_listener]; by destruct (on_room_join client roomId st) |].
  split.
  - intros Hblank. subst st' pkts. unfold on_room_join.
    destruct roomId as [| | b | z | room |]; try done.
    rewrite decide_True; [done |]. apply trim_nil_iff. by apply Hblank.
  - intros room -> Hroom. subst st' pkts. unfold on_room_join.
    rewrite decide_False by (by rewrite trim_nil_iff). cbn [fst snd].
    assert (Hmem : members (socket_join client room st) room = {[client]} ∪ members st room).
    { rewrite members_socket_join. by rewrite decide_True. }
    unfold socket_emit, socket_to_emit. rewrite Hmem.
    split; [done |].
    split. { intros other Hother. rewrite members_socket_join. by rewrite decide_False. }
    pose proof (NoDup_elements (({[client]} ∪ members st room) ∖ {[client]})) as Hnodup.
    assert (Hpeers : ∀ who, who ∈ elements (({[client]} ∪ members st room) ∖ {[client]})
                            ↔ who ∈ members st room ∧ who ≠ client).
    { intros who. rewrite elem_of_elements, elem_of_difference, elem_of_union,
        !elem_of_singleton. tauto. }
    split; [| split; [| split; [| split]]].
    + rewrite (received_app _ _ [_]), received_broadcast by done.
      rewrite decide_False by (intros [_ ?]; done).
      unfold received. rewrite filter_cons_True by done. done.
    + rewrite (received_app _ _ [_]), received_broadcast by done.
      rewrite decide_False by (rewrite Hpeers; tauto).
      unfold received. rewrite filter_cons_False by (intros [_ ?]; done). done.
    + intros peer Hpeer Hne. split.
      * rewrite (received_app _ _ [_]), received_broadcast by done.
        rewrite decide_True by (by rewrite Hpeers).
        unfold received. rewrite filter_cons_False by (intros [? _]; done). done.
      * rewrite (received_app _ _ [_]), received_broadcast by done.
        rewrite decide_False by (intros [_ ?]; done).
        unfold received. rewrite filter_cons_False by (intros [? _]; done). done.
    + intros who event Hwho Hnotin.
      rewrite (received_app _ _ [_]), received_broadcast by done.
      rewrite decide_False by (rewrite Hpeers; tauto).
      unfold received. rewrite filter_cons_False by (intros [? _]; done). done.
    + constructor; [done |]. apply Forall_fmap, Forall_forall. done.
Qed.

Lemma C8_room_join_witness :
  let pkts := (on_room_join socket_B (js_str demo_room) demo_relay).2 in
  room_join_listener socket_B None demo_relay = throws_TypeError
  ∧ ((on_room_join socket_B (js_str [32; 9; 160]%N) demo_relay).1 = demo_relay
   ∧ (on_room_join socket_B (js_str [32; 9; 160]%N) demo_relay).2 = [])
  ∧ received socket_B room_joined pkts = 1%nat
  ∧ received socket_B peer_joined pkts = 0%nat
  ∧ received socket_A peer_joined pkts = 1%nat.
Proof.
  destruct (C8_room_join socket_B (js_str [32; 9; 160]%N) demo_relay)
    as (Hthrows & _ & Hdrop & _).
  destruct (C8_room_join socket_B (js_str demo_room) demo_relay) as (_ & _ & _ & Hjoin).
  destruct (Hjoin demo_room eq_refl) as (_ & _ & Hack & Hself & Hpeers & _).
  { intros H. inversion H. discriminate. }
  split; [exact Hthrows |]. split.
  - apply Hdrop. intros room [= <-]. repeat constructor.
  - split; [exact Hack |]. split; [exact Hself |].
    apply (Hpeers socket_A); [| discriminate].
    apply (bool_decide_unpack _). vm_compute. exact I.
Defined.

(** ** Folder groups *)

Lemma split_slash_head (p : string) : ∃ rest, split_slash p = first_segment p :: rest.
Proof.
  induction p as [| c p [rest IH]]; [by exists [] |].
  cbn [split_slash first_segment]. destruct (decide (c = "/"%char)); [by eexists |].
  rewrite IH. by eexists.
Qed.

Lemma folderGroups_step_folder_of (groups : list FolderGroup) (t : IncomingTransfer) :
  folderGroups_step groups t
  = match folder_of t with
    | Some rootFolder => groups_push rootFolder t groups
    | None => groups
    end.
Proof.
  unfold folderGroups_step, folder_of.
  destruct (relativePath (meta t)) as [[| c p] |]; [done | | done].
  cbn [truthy_string negb default from_option id].
  destruct (split_slash_head (String c p)) as [rest ->].
  destruct (first_segment (String c p)) as [| c' root]; [done |].
  by rewrite decide_False by done.
Qed.

Lemma folderGroups_snoc (incoming : list IncomingTransfer) (t : IncomingTransfer) :
  folderGroups (incoming ++ [t]) = folderGroups_step (folderGroups incoming) t.
Proof. unfold folderGroups. by rewrite foldl_app. Qed.

Lemma groups_push_names (rootFolder : string) (t : IncomingTransfer) (groups : list FolderGroup) :
  folderName <$> groups_push rootFolder t groups
  = if decide (rootFolder ∈ folderName <$> groups) then folderName <$> groups
    else (folderName <$> groups) ++ [rootFolder].
Proof.
  induction groups as [| g groups IH]; cbn [groups_push fmap list_fmap].
  - rewrite decide_False; [done |]. by intros H%elem_of_nil.
  - destruct (decide (folderName g = rootFolder)) as [<- | Hne].
    + cbn [fmap list_fmap]. rewrite decide_True; [done | by left].
    + cbn [fmap list_fmap]. rewrite IH.
      destruct (decide (rootFolder ∈ folderName <$> groups)) as [Hin | Hnotin].
      * rewrite decide_True; [done | by right].
      * rewrite decide_False; [done |].
        intros [? | ?]%elem_of_cons; [congruence | done].
Qed.

Section grouping.
Implicit Types (incoming : list IncomingTransfer) (groups : list FolderGroup).

Lemma groups_push_exact rootFolder (t : IncomingTransfer) incoming groups :
  folder_of t = Some rootFolder →
  NoDup (folderName <$> groups) →
  (rootFolder ∉ folderName <$> groups →
   filter (λ t', folder_of t' = Some rootFolder) incoming = []) →
  Forall (exact_group incoming) groups →
  Forall (exact_group (incoming ++ [t])) (groups_push rootFolder t groups).
Proof.
  intros Ht. assert (Hroot : rootFolder ≠ EmptyString).
  { unfold folder_of in Ht. destruct (relativePath (meta t)); [| done].
    case_decide; [done |]. congruence. }
  assert (Hkeep : ∀ g, folderName g ≠ rootFolder →
                       exact_group incoming g → exact_group (incoming ++ [t]) g).
  { intros g Hne (Hfiles & Hname & Hnonempty). split; [| done].
    rewrite filter_app, (filter_singleton_False _ _ []) by (simpl; congruence).
    by rewrite app_nil_r. }
  induction groups as [| g groups IH]; intros Hnodup Hfresh Hall; cbn [groups_push].
  - constructor; [| constructor]. cbn [files folderName].
    split; [| done].
    rewrite filter_app, Hfresh by (by intros H%elem_of_nil).
    by rewrite (filter_singleton_True _ _ []).
  - rewrite fmap_cons in Hnodup. apply NoDup_cons in Hnodup as [Hg Hnodup].
    apply Forall_cons in Hall as [(Hfiles & Hname & Hnonempty) Hall].
    destruct (decide (folderName g = rootFolder)) as [Heq | Hne].
    + constructor.
      * cbn [files folderName]. split; [| split; [done | by destruct (files g)]].
        rewrite filter_app, <- Hfiles, Heq.
        by rewrite (filter_singleton_True _ _ []).
      * apply Forall_forall. intros g' Hin.
        apply Hkeep; [| by eapply (proj1 (Forall_forall _ _) Hall)]. intros Heq'. apply Hg. rewrite Heq, <- Heq'.
        apply list_elem_of_fmap. eauto.
    + constructor; [by apply Hkeep |]. apply IH; [done | | done].
      intros Hnotin. apply Hfresh. rewrite fmap_cons.
      intros [? | ?]%elem_of_cons; [congruence | done].
Qed.

Lemma folderGroups_exact incoming :
  NoDup (folderName <$> folderGroups incoming)
  ∧ Forall (exact_group incoming) (folderGroups incoming)
  ∧ ∀ t rootFolder, t ∈ incoming → folder_of t = Some rootFolder →
      rootFolder ∈ folderName <$> folderGroups incoming.
Proof.
  induction incoming as [| t incoming (Hnodup & Hexact & Hcover)] using rev_ind.
  - split; [constructor |]. split; [constructor |]. by intros t r H%elem_of_nil.
  - rewrite folderGroups_snoc, folderGroups_step_folder_of.
    destruct (folder_of t) as [rootFolder |] eqn:Ht.
    + assert (Hfresh : rootFolder ∉ folderName <$> folderGroups incoming →
                       filter (λ t', folder_of t' = Some rootFolder) incoming = []).
      { intros Hnotin. apply filter_nil_Forall, Forall_forall.
        intros t' Hin Hfolder. apply Hnotin. by eapply Hcover. }
      split; [| split].
      * rewrite groups_push_names. case_decide; [done |].
        apply NoDup_app. split; [done |]. split; [| apply NoDup_singleton].
        intros x Hx ->%list_elem_of_singleton. done.
      * by apply groups_push_exact.
      * intros t' r [Hin | ->%list_elem_of_singleton]%elem_of_app Hfolder;
          rewrite groups_push_names; case_decide.
        -- by eapply Hcover.
        -- apply elem_of_app. left. by eapply Hcover.
        -- congruence.
        -- apply elem_of_app. right. rewrite Ht in Hfolder.
           injection Hfolder as ->. by left.
    + split; [done |]. split.
      * eapply Forall_impl; [exact Hexact |]. intros g (Hfiles & Hname & Hnonempty).
        split; [| done].
        rewrite filter_app, (filter_singleton_False _ _ []) by (simpl; congruence).
        by rewrite app_nil_r.
      * intros t' r [Hin | ->%list_elem_of_singleton]%elem_of_app Hfolder;
          [by eapply Hcover | congruence].
Qed.

Lemma find_group groups (g : FolderGroup) :
  NoDup (folderName <$> groups) → g ∈ groups →
  List.find (λ group, bool_decide (folderName group = folderName g)) groups = Some g.
Proof.
  induction groups as [| g' groups IH]; intros Hnodup Hin; [by apply elem_of_nil in Hin |].
  rewrite fmap_cons in Hnodup. apply NoDup_cons in Hnodup as [Hg' Hnodup].
  cbn [List.find]. destruct (decide (folderName g' = folderName g)) as [Heq | Hne].
  - rewrite bool_decide_eq_true_2 by done.
    apply elem_of_cons in Hin as [-> | Hin]; [done |].
    exfalso. apply Hg'. rewrite Heq. apply list_elem_of_fmap. eauto.
  - rewrite bool_decide_eq_false_2 by done.
    apply elem_of_cons in Hin as [-> | Hin]; [done |]. by apply IH.
Qed.

Lemma find_no_group groups (folder : string) :
  folder ∉ folderName <$> groups →
  List.find (λ group, bool_decide (folderName group = folder)) groups = None.
Proof.
  induction groups as [| g groups IH]; intros Hnotin; [done |].
  rewrite fmap_cons in Hnotin. apply not_elem_of_cons in Hnotin as [Hne Hnotin].
  cbn [List.find]. rewrite bool_decide_eq_false_2 by done. by apply IH.
Qed.

Lemma existsb_incomplete (l : list IncomingTransfer) :
  existsb incomplete_file l = false ↔ Forall ready l.
Proof.
  induction l as [| t l IH]; cbn [existsb]; [split; [constructor | done] |].
  rewrite orb_false_iff, IH, Forall_cons. unfold incomplete_file, ready.
  rewrite orb_false_iff, !negb_false_iff, !bool_decide_eq_true. tauto.
Qed.

End grouping.

Example folderGroups_docs :
  folderGroups [demo_docs_a; demo_loose; demo_docs_b; demo_rooted]
  = [ {| folderName := "docs"; files := [demo_docs_a; demo_docs_b] |} ].
Proof. reflexivity. Qed.

(** C9, as the claim words it, fails: a transfer whose relativePath starts
    with the separator has a relativePath, and its first segment is the empty
    string, yet it is in no group. *)
Lemma C9_rooted_path_in_no_group :
  relativePath (meta demo_rooted) = Some "/a.txt"
  ∧ folderGroups [demo_rooted] = []
  ∧ ¬ grouped_by_first_segment [demo_rooted].
Proof.
  split; [reflexivity |]. split; [reflexivity |].
  intros Hclaim.
  destruct (Hclaim demo_rooted "/a.txt") as (g & Hg & _); [by left | reflexivity |].
  by apply elem_of_nil in Hg.
Qed.

(** C9, amended.  The folder groups have distinct, non-empty names; the
    files of a group are exactly the incoming transfers whose relativePath has
    the group's name as its first segment, in arrival order; every transfer
    whose path has a non-empty first segment is in the group of that name,
    and a transfer without a relativePath (or with an empty first segment) is
    in no group.  Saving a folder does something outside the component only
    when the folder is a group all of whose members are complete with their
    payload; when a member is not, it only sets the refusal message, and when
    there is no such group, the not-found message. *)
Theorem C9_folder_groups_and_save (incoming : list IncomingTransfer) :
  NoDup (folderName <$> folderGroups incoming)
  ∧ (∀ g, g ∈ folderGroups incoming →
       folderName g ≠ EmptyString
       ∧ files g = filter (λ t, folder_of t = Some (folderName g)) incoming)
  ∧ (∀ t rootFolder, t ∈ incoming → folder_of t = Some rootFolder →
       ∃ g, g ∈ folderGroups incoming ∧ folderName g = rootFolder ∧ t ∈ files g)
  ∧ (∀ t g, folder_of t = None → g ∈ folderGroups incoming → t ∉ files g)
  ∧ ∀ (env : SaveEnv) (folder : string) (ui : FolderUi),
      let result := handleSaveFolder env folder incoming ui in
      (result.2 ≠ [] →
       ∃ g, g ∈ folderGroups incoming ∧ folderName g = folder ∧ Forall ready (files g))
      ∧ (∀ g, g ∈ folderGroups incoming → folderName g = folder →
           ¬ Forall ready (files g) →
           result = (set_message msg_incomplete ui, []))
      ∧ (folder ∉ folderName <$> folderGroups incoming →
         result = (set_message msg_not_found ui, [])).
Proof.
  destruct (folderGroups_exact incoming) as (Hnodup & Hexact & Hcover).
  rewrite Forall_forall in Hexact.
  split; [exact Hnodup |]. split; [| split; [| split]].
  - intros g Hg. destruct (Hexact g Hg) as (Hfiles & Hname & _). done.
  - intros t rootFolder Hin Hfolder.
    pose proof (Hcover t rootFolder Hin Hfolder) as Hname.
    apply list_elem_of_fmap in Hname as (g & -> & Hg).
    exists g. split; [done |]. split; [done |].
    destruct (Hexact g Hg) as (-> & _). by apply list_elem_of_filter.
  - intros t g Hnone Hg Hin. destruct (Hexact g Hg) as (Hfiles & _).
    rewrite Hfiles in Hin. apply list_elem_of_filter in Hin as [Hfolder _]. congruence.
  - intros env folder ui result. subst result. unfold handleSaveFolder.
    destruct (decide (folder ∈ folderName <$> folderGroups incoming)) as [Hin | Hnotin].
    + apply list_elem_of_fmap in Hin as (g & -> & Hg).
      rewrite (find_group _ g Hnodup Hg).
      destruct (existsb incomplete_file (files g)) eqn:Hready.
      * assert (Hnot : ¬ Forall ready (files g)).
        { intros H. apply existsb_incomplete in H. congruence. }
        split; [done |]. split; [| by intros []; apply list_elem_of_fmap; eauto].
        done.
      * apply existsb_incomplete in Hready.
        split; [intros _; by exists g |].
        split; [| by intros []; apply list_elem_of_fmap; eauto].
        intros g' Hg' Hname Hnot. exfalso. apply Hnot.
        assert (g' = g) as ->; [| done].
        pose proof (find_group _ g' Hnodup Hg') as Hfind. rewrite Hname in Hfind.
        rewrite (find_group _ g Hnodup Hg) in Hfind. congruence.
    + rewrite (find_no_group _ _ Hnotin). split; [done |]. split; [| done].
      intros g Hg <-. exfalso. apply Hnotin. apply list_elem_of_fmap. eauto.
Qed.

Lemma C9_folder_groups_and_save_witness :
  let incoming := [demo_docs_a; demo_loose; demo_docs_b; demo_rooted] in
  (∃ g, g ∈ folderGroups incoming ∧ folderName g = "docs" ∧ demo_docs_b ∈ files g)
  ∧ handleSaveFolder zip_ok "docs" incoming demo_ui = (set_message msg_incomplete demo_ui, [])
  ∧ handleSaveFolder directory_ok "a.txt" incoming demo_ui
    = (set_message msg_not_found demo_ui, []).
Proof.
  intros incoming.
  destruct (C9_folder_groups_and_save incoming) as (_ & _ & Hmember & _ & Hsave).
  split; [| split].
  - apply (Hmember demo_docs_b "docs"); [| reflexivity].
    unfold incoming. repeat constructor.
  - destruct (Hsave zip_ok "docs" demo_ui) as (_ & Hrefuse & _).
    apply (Hrefuse {| folderName := "docs"; files := [demo_docs_a; demo_docs_b] |}).
    + by left.
    + reflexivity.
    + intros Hready. inversion Hready as [| ? ? _ Hrest].
      inversion Hrest as [| ? ? [Hstatus _] _]. discriminate.
  - destruct (Hsave directory_ok "a.txt" demo_ui) as (_ & _ & Hmissing).
    apply Hmissing. intros Hin. apply list_elem_of_fmap in Hin as (g & Hname & Hg).
    apply list_elem_of_singleton in Hg as ->. discriminate.
Defined.

Example save_ready_folder_as_zip :
  handleSaveFolder zip_ok "docs"
    [demo_docs_a; demo_incoming (Some "docs/sub/b.txt") complete (Some demo_chunk1)] demo_ui
  = ({| folderActionMessage := Some (msg_zipped "docs"); processingFolder := None |},
     [download_zip "docs.zip"
        [("docs/a.txt", demo_chunk0); ("docs/sub/b.txt", demo_chunk1)]]).
Proof. reflexivity. Qed.

(** * Further properties of the program *)

(** ** Invariants of the receiver *)



Lemma buffers_in_flight_receive (msg : Message) (st : Receiver) :
  buffers_in_flight st → buffers_in_flight (receive msg st).
Proof.
  intros [Hiff Hentry].
  destruct msg as [room m | room tid idx chunk | room tid | room tid message]; simpl.
  - unfold on_file_meta. destruct (new_Array (totalChunks m)) as [slots |]; [| done].
    split; cbn [incomingFiles incomingBuffers].
    + intros t [Ht | Ht]%elem_of_app.
      * apply list_elem_of_filter in Ht as [Hne Ht].
        rewrite lookup_insert_ne by done. by apply Hiff.
      * apply list_elem_of_singleton in Ht as ->. cbn.
        rewrite lookup_insert_eq. split; [by left | by eexists].
    + intros tid. destruct (decide (tid = transferId m)) as [-> | Hne].
      * intros _. exists (fresh_incoming m). split; [| done].
        apply elem_of_app. right. by left.
      * rewrite lookup_insert_ne by done. intros (t & Ht & <-)%Hentry.
        exists t. split; [| done]. apply elem_of_app. left.
        by apply list_elem_of_filter.
  - unfold on_file_chunk. destruct (incomingBuffers st !! tid) as [buffers |] eqn:Hb; [| done].
    split; cbn [incomingFiles incomingBuffers].
    + intros t (t0 & -> & Ht0)%list_elem_of_fmap. rewrite chunk_update_meta.
      unfold chunk_update. destruct (decide (transferId (meta t0) ≠ tid)) as [Hne | Heq].
      * rewrite lookup_insert_ne by done. by apply Hiff.
      * apply dec_stable in Heq. rewrite Heq, lookup_insert_eq. cbn.
        split; [by right | by eexists].
    + intros tid' Hsome.
      assert (Hold : is_Some (incomingBuffers st !! tid')).
      { destruct (decide (tid = tid')) as [<- | Hne]; [by eexists |].
        by rewrite lookup_insert_ne in Hsome. }
      destruct (Hentry tid' Hold) as (t & Ht & <-).
      exists (chunk_update tid chunk t). split; [| by rewrite chunk_update_meta].
      apply list_elem_of_fmap. eauto.
  - unfold on_file_complete. destruct (incomingBuffers st !! tid) as [buffers |] eqn:Hb; [| done].
    split; cbn [incomingFiles incomingBuffers].
    + intros t (t0 & -> & Ht0)%list_elem_of_fmap. rewrite complete_update_meta.
      unfold complete_update. destruct (decide (transferId (meta t0) = tid)) as [Heq | Hne].
      * rewrite Heq, lookup_delete_eq. cbn. split; [by intros [] | by intros [|]].
      * rewrite lookup_delete_ne by done. by apply Hiff.
    + intros tid' Hsome.
      assert (Hold : is_Some (incomingBuffers st !! tid')).
      { destruct (decide (tid = tid')) as [<- | Hne];
          [by rewrite lookup_delete_eq in Hsome; destruct Hsome |].
        by rewrite lookup_delete_ne in Hsome. }
      destruct (Hentry tid' Hold) as (t & Ht & <-).
      eexists. split; [apply list_elem_of_fmap; eauto |]. by rewrite complete_update_meta.
  - unfold on_file_error. split; cbn [incomingFiles incomingBuffers].
    + intros t (t0 & -> & Ht0)%list_elem_of_fmap. rewrite error_update_meta.
      unfold error_update. destruct (decide (transferId (meta t0) = tid)) as [Heq | Hne].
      * rewrite Heq, lookup_delete_eq. cbn. split; [by intros [] | by intros [|]].
      * rewrite lookup_delete_ne by done. by apply Hiff.
    + intros tid' Hsome.
      assert (Hold : is_Some (incomingBuffers st !! tid')).
      { destruct (decide (tid = tid')) as [<- | Hne];
          [by rewrite lookup_delete_eq in Hsome; destruct Hsome |].
        by rewrite lookup_delete_ne in Hsome. }
      destruct (Hentry tid' Hold) as (t & Ht & <-).
      eexists. split; [apply list_elem_of_fmap; eauto |]. by rewrite error_update_meta.
Qed.










(** ** Assembly from the chunk messages received *)

Lemma array_set_index {A : Type} (a : list (option A)) (k : Z) (x : A) :
  array_set a k x
  = if is_array_index k
    then <[Z.to_nat k := Some x]> (a ++ replicate (S (Z.to_nat k) - length a) None)
    else a.
Proof. reflexivity. Qed.

Lemma array_set_mjoin {A : Type} (a : list (option A)) (k : Z) (x : A) (i : nat) :
  mjoin (array_set a k x !! i)
  = if is_array_index k && (Z.to_nat k =? i)%nat then Some x else mjoin (a !! i).
Proof.
  rewrite array_set_index. destruct (is_array_index k); [| done]. cbn [andb].
  destruct (Nat.eqb_spec (Z.to_nat k) i) as [<- | Hne].
  - rewrite list_lookup_insert_eq; [done |]. rewrite length_app, length_replicate. lia.
  - rewrite list_lookup_insert_ne by done.
    destruct (decide (i < length a)%nat) as [Hlt | Hge].
    + by rewrite lookup_app_l.
    + rewrite lookup_app_r by lia. rewrite (lookup_ge_None_2 a i) by lia.
      destruct (replicate _ _ !! _) as [o |] eqn:Hrep; [| done].
      apply lookup_replicate in Hrep as [-> _]. done.
Qed.

Lemma array_set_length_index {A : Type} (a : list (option A)) (k : Z) (x : A) :
  length (array_set a k x)
  = if is_array_index k then (length a `max` S (Z.to_nat k))%nat else length a.
Proof.
  rewrite array_set_index. destruct (is_array_index k); [| done].
  rewrite length_insert, length_app, length_replicate. lia.
Qed.

Lemma chunk_writes_cons_foreign (tid : string) (msg : Message) (msgs : list Message) :
  msg_tid msg ≠ tid → chunk_writes tid (msg :: msgs) = chunk_writes tid msgs.
Proof.
  intros Hne. unfold chunk_writes. cbn [omap list_omap].
  destruct msg as [room m | room t k c | room t | room t message]; try done.
  cbn in Hne. by rewrite decide_False.
Qed.

Lemma chunk_writes_cons_own (tid room : string) (k : Z) (c : list byte) (msgs : list Message) :
  chunk_writes tid (file_chunk room tid k c :: msgs) = (k, c) :: chunk_writes tid msgs.
Proof. unfold chunk_writes. cbn [omap list_omap]. by rewrite decide_True. Qed.

(** The buffer and the entry of a transfer after any chunk messages for it,
    with messages of other transfers between them. *)
Lemma receive_writes (tid : string) (delivered : list Message) :
  ∀ (st : Receiver) (slots0 : list (option (list byte))) (t0 : IncomingTransfer),
    only_chunks_of tid delivered →
    incomingBuffers st !! tid = Some slots0 →
    filter (incoming_of tid) (incomingFiles st) = [t0] →
    let writes := chunk_writes tid delivered in
    ∃ slots t,
      incomingBuffers (receive_all delivered st) !! tid = Some slots
      ∧ filter (incoming_of tid) (incomingFiles (receive_all delivered st)) = [t]
      ∧ meta t = meta t0
      ∧ receivedChunks t = receivedChunks t0 + Z.of_nat (length writes)
      ∧ receivedBytes t = receivedBytes t0 + writes_bytes writes
      ∧ (∀ len, (length slots0 ≤ len)%nat →
           (∀ k c, (k, c) ∈ writes → is_array_index k = true → (Z.to_nat k < len)%nat) →
           (length slots ≤ len)%nat)
      ∧ ∀ i, mjoin (slots !! i)
             = from_option Some (mjoin (slots0 !! i)) (last_write writes i).
Proof.
  induction delivered as [| msg delivered IH]; intros st slots0 t0 Honly Hbuf Hentry writes.
  - exists slots0, t0. subst writes. cbn. repeat split; try done; lia.
  - apply Forall_cons in Honly as [Hmsg Honly]. unfold receive_all. cbn [foldl].
    fold (receive_all delivered (receive msg st)).
    destruct (decide (msg_tid msg = tid)) as [Hown | Hforeign].
    + destruct (Hmsg Hown) as (room & k & c & ->). subst writes.
      rewrite chunk_writes_cons_own. cbn [receive].
      rewrite (on_file_chunk_registered _ _ _ _ _ Hbuf).
      match goal with |- context [receive_all delivered ?s] => set (st1 := s) end.
      destruct (IH st1 (array_set slots0 k c) (chunk_update tid c t0) Honly)
        as (slots & t & Hslots & Ht & Hmeta & Hchunks & Hbytes & Hlen & Hjoin).
      { subst st1. cbn. apply lookup_insert_eq. }
      { subst st1. cbn [incomingFiles].
        rewrite filter_fmap_preserved by (intros x; by rewrite chunk_update_meta).
        by rewrite Hentry. }
      assert (Hmine : transferId (meta t0) = tid).
      { assert (Hin : t0 ∈ filter (incoming_of tid) (incomingFiles st))
          by (rewrite Hentry; by left).
        by apply list_elem_of_filter in Hin as [? _]. }
      exists slots, t. split; [done |]. split; [done |].
      rewrite chunk_update_same in Hchunks, Hbytes by done. cbn in Hchunks, Hbytes.
      split; [by rewrite Hmeta, chunk_update_meta |].
      split; [cbn [length]; lia |].
      split; [unfold writes_bytes in *; cbn [foldr snd]; lia |].
      split.
      * intros len Hlen0 Hidx. apply Hlen.
        -- rewrite array_set_length_index.
           destruct (is_array_index k) eqn:Hk; [| done].
           pose proof (Hidx k c ltac:(by left) Hk). lia.
        -- intros k' c' Hin Hk'. apply (Hidx k' c'); [by right | done].
      * intros i. rewrite Hjoin, array_set_mjoin. cbn [last_write].
        destruct (last_write (chunk_writes tid delivered) i); cbn; [done |].
        by destruct (is_array_index k && (Z.to_nat k =? i)%nat).
    + subst writes. rewrite chunk_writes_cons_foreign by done.
      destruct (receive_foreign tid msg st Hforeign) as [Hb Hf].
      apply IH; [done | by rewrite Hb | by rewrite Hf].
Qed.

Lemma omap_all_None {A B : Type} (f : A → option B) (l : list A) :
  (∀ x, x ∈ l → f x = None) → omap f l = [].
Proof.
  induction l as [| x l IH]; intros Hf; [done |]. cbn [omap list_omap].
  rewrite (Hf x) by (by left). apply IH. intros y Hy. apply Hf. by right.
Qed.

Lemma omap_all_Some {A B : Type} (f : A → option B) (g : A → B) (l : list A) :
  (∀ x, x ∈ l → f x = Some (g x)) → omap f l = g <$> l.
Proof.
  induction l as [| x l IH]; intros Hf; [done |]. cbn [omap list_omap fmap list_fmap].
  rewrite (Hf x) by (by left). f_equal. apply IH. intros y Hy. apply Hf. by right.
Qed.

Lemma omap_seq_shift {B : Type} (f : nat → option B) (start len : nat) :
  omap f (seq (S start) len) = omap (λ i, f (S i)) (seq start len).
Proof.
  revert start. induction len as [| len IH]; intros start; [done |].
  cbn [seq omap list_omap]. by rewrite IH.
Qed.

(** The filled slots of an array, in order, read off by index. *)
Lemma filter_Boolean_by_index {A : Type} (slots : list (option A)) :
  ∀ (len : nat) (f : nat → option A),
    (length slots ≤ len)%nat → (∀ i, mjoin (slots !! i) = f i) →
    filter_Boolean slots = omap f (seq 0 len).
Proof.
  unfold filter_Boolean. induction slots as [| slot slots IH]; intros len f Hlen Hf.
  - symmetry. apply omap_all_None. intros i _. by rewrite <- Hf.
  - destruct len as [| len]; [cbn in Hlen; lia |].
    cbn [seq omap list_omap]. rewrite <- (Hf 0%nat). rewrite omap_seq_shift.
    rewrite <- (IH len (λ i, f (S i))); [by destruct slot | cbn in Hlen; lia |].
    intros i. by rewrite <- Hf.
Qed.

(** After the meta, any chunk messages and the completion marker, the
    payload is the concatenation, in index order, of the bytes last written
    at each index. *)
Lemma assembled_after_writes (room : string) (m : TransferMeta) (delivered : list Message)
    (st : Receiver) (len : nat) :
  let tid := transferId m in
  let writes := chunk_writes tid delivered in
  let st1 := receive_all delivered (receive (file_meta room m) st) in
  let st2 := receive (file_complete room tid) st1 in
  is_array_length (totalChunks m) = true →
  only_chunks_of tid delivered →
  (Z.to_nat (totalChunks m) ≤ len)%nat →
  (∀ k c, (k, c) ∈ writes → is_array_index k = true → (Z.to_nat k < len)%nat) →
  (∃ t, filter (incoming_of tid) (incomingFiles st1) = [t]
        ∧ meta t = m
        ∧ receivedChunks t = Z.of_nat (length writes)
        ∧ receivedBytes t = writes_bytes writes)
  ∧ ∃ t, filter (incoming_of tid) (incomingFiles st2) = [t]
         ∧ meta t = m
         ∧ status t = complete
         ∧ blob t = Some (concat (omap (last_write writes) (seq 0 len))).
Proof.
  intros tid writes st1 st2 Hvalid Honly Hlen Hidx. subst tid writes st1 st2.
  destruct (filling_meta (transferId m) room m st eq_refl Hvalid)
    as [Hbuf0 (t0 & Ht0 & Hmeta0)].
  assert (Hfresh : t0 = fresh_incoming m).
  { cbn [receive] in Ht0. rewrite (on_file_meta_valid _ _ Hvalid) in Ht0.
    cbn [incomingFiles] in Ht0. rewrite on_file_meta_entries in Ht0. congruence. }
  destruct (receive_writes (transferId m) delivered _ _ t0 Honly Hbuf0 Ht0)
    as (slots & t & Hslots & Ht & Hmeta & Hchunks & Hbytes & Hbound & Hjoin).
  rewrite Hfresh in Hchunks, Hbytes. cbn in Hchunks, Hbytes.
  split.
  - exists t. split; [done |]. split; [congruence |]. split; lia.
  - change (receive (file_complete room (transferId m)) ?s)
      with (on_file_complete (transferId m) s).
    rewrite (on_file_complete_registered _ _ _ Hslots).
    cbn [incomingFiles].
    rewrite filter_fmap_preserved by (intros x; by rewrite complete_update_meta).
    rewrite Ht. cbn [fmap list_fmap]. eexists. split; [reflexivity |].
    assert (Hmine : transferId (meta t) = transferId m) by (by rewrite Hmeta, Hmeta0).
    unfold complete_update. rewrite decide_True by done. cbn.
    split; [congruence |]. split; [done |]. do 2 f_equal.
    apply filter_Boolean_by_index.
    + apply Hbound; [| done]. cbn. rewrite length_replicate. lia.
    + intros i. rewrite Hjoin. cbn [fmap list_fmap app].
      destruct (replicate _ _ !! i) as [o |] eqn:Hrep.
      * apply lookup_replicate in Hrep as [-> _]. cbn.
        by destruct (last_write _ i).
      * cbn. by destruct (last_write _ i).
Qed.

(** X4. After a [file:meta], any sequence of [file:chunk] messages for the
    transfer (in any order, repeated or missing, with messages of other
    transfers between them) and the [file:complete], the payload is the
    concatenation, in index order, of the bytes last written at each index;
    an index that never got a chunk contributes nothing, so a gap shortens
    the payload silently.  Before the completion [receivedChunks] is the
    number of chunk messages and [receivedBytes] their total length. *)
Theorem X4_payload_is_last_write_per_index
    (room : string) (m : TransferMeta) (delivered : list Message) (st : Receiver)
    (len : nat) :
  let tid := transferId m in
  let writes := chunk_writes tid delivered in
  let st1 := receive_all delivered (receive (file_meta room m) st) in
  let st2 := receive (file_complete room tid) st1 in
  is_array_length (totalChunks m) = true →
  only_chunks_of tid delivered →
  (Z.to_nat (totalChunks m) ≤ len)%nat →
  (∀ k c, (k, c) ∈ writes → is_array_index k = true → (Z.to_nat k < len)%nat) →
  (∃ t, filter (incoming_of tid) (incomingFiles st1) = [t]
        ∧ meta t = m
        ∧ receivedChunks t = Z.of_nat (length writes)
        ∧ receivedBytes t = writes_bytes writes)
  ∧ ∃ t, filter (incoming_of tid) (incomingFiles st2) = [t]
         ∧ meta t = m
         ∧ status t = complete
         ∧ blob t = Some (concat (omap (last_write writes) (seq 0 len))).
Proof. apply assembled_after_writes. Qed.

Lemma X4_payload_is_last_write_per_index_witness :
  let st1 := receive_all demo_gap_delivered (receive (file_meta "ab12" demo_meta3) demo_completed) in
  let st2 := receive (file_complete "ab12" "t1") st1 in
  (∃ t, filter (incoming_of "t1") (incomingFiles st1) = [t]
        ∧ meta t = demo_meta3
        ∧ receivedChunks t = 2
        ∧ receivedBytes t = 6)
  ∧ ∃ t, filter (incoming_of "t1") (incomingFiles st2) = [t]
         ∧ meta t = demo_meta3
         ∧ status t = complete
         ∧ blob t = Some (demo_chunk0 ++ demo_chunk1).
Proof.
  apply (X4_payload_is_last_write_per_index "ab12" demo_meta3 demo_gap_delivered
           demo_completed 3).
  - reflexivity.
  - repeat (constructor; [intros H; try discriminate H; by eexists _, _, _ |]).
    constructor.
  - cbn. lia.
  - intros k c Hin _. cbn in Hin.
    apply elem_of_cons in Hin as [[= -> _] | Hin]; [cbn; lia |].
    apply list_elem_of_singleton in Hin as [= -> _]. cbn. lia.
Defined.

Lemma last_write_elem (writes : list (Z * list byte)) (i : nat) (c : list byte) :
  last_write writes i = Some c →
  ∃ k, (k, c) ∈ writes ∧ is_array_index k = true ∧ Z.to_nat k = i.
Proof.
  induction writes as [| [k c'] writes IH]; [done |]. cbn [last_write].
  destruct (last_write writes i) as [c'' |].
  - intros [= <-]. destruct (IH eq_refl) as (k' & Hin & Hk').
    exists k'. split; [by right | done].
  - destruct (is_array_index k) eqn:Hk; [| done]. cbn [andb].
    destruct (Nat.eqb_spec (Z.to_nat k) i) as [Heq | _]; [| done].
    intros [= <-]. exists k. split; [by left | done].
Qed.

Lemma last_write_is_Some (writes : list (Z * list byte)) (k : Z) (c : list byte) :
  (k, c) ∈ writes → is_array_index k = true → is_Some (last_write writes (Z.to_nat k)).
Proof.
  induction writes as [| [k' c'] writes IH]; [by intros H%elem_of_nil |].
  intros Hin Hk. cbn [last_write].
  destruct (last_write writes (Z.to_nat k)) as [c'' |] eqn:Hlast; [by eexists |].
  apply elem_of_cons in Hin as [[= <- <-] | Hin].
  - rewrite Hk, Nat.eqb_refl. by eexists.
  - destruct (IH Hin Hk) as [x Hx]. congruence.
Qed.

Lemma writes_bytes_Permutation (w1 w2 : list (Z * list byte)) :
  w1 ≡ₚ w2 → writes_bytes w1 = writes_bytes w2.
Proof.
  unfold writes_bytes. induction 1 as [| x l l' _ IH | x y l | l l' l'' _ IH1 _ IH2];
    cbn [foldr]; lia.
Qed.

Lemma writes_bytes_indexed (g : Z → list byte) (l : list Z) :
  writes_bytes ((λ i, (i, g i)) <$> l) = Z.of_nat (length (concat (g <$> l))).
Proof.
  unfold writes_bytes. induction l as [| i l IH]; [done |].
  cbn [fmap list_fmap foldr concat snd]. rewrite length_app, IH. lia.
Qed.

(** X5. The order of the chunks does not matter: after the meta of a file,
    its chunk messages in any order (each once, messages of other transfers
    between them) and the completion marker, the payload is the file, byte
    for byte, the empty file included; already before the completion
    [receivedChunks] is [totalChunks] and [receivedBytes] the size of the
    file. *)
Theorem X5_chunks_in_any_order
    (env : SendEnv) (queued : QueuedFile) (delivered : list Message) (st : Receiver) :
  let f := q_file queued in
  let tid := generateTransferId env queued in
  let room := effectiveRoomId env in
  let m := sendFile_meta queued tid in
  let st1 := receive_all delivered (receive (file_meta room m) st) in
  let st2 := receive (file_complete room tid) st1 in
  is_array_length (sendFile_totalChunks f) = true →
  only_chunks_of tid delivered →
  chunk_writes tid delivered
    ≡ₚ (λ i, (i, sendFile_chunk f i)) <$> seqZ 0 (sendFile_totalChunks f) →
  (∃ t, filter (incoming_of tid) (incomingFiles st1) = [t]
        ∧ receivedChunks t = totalChunks m
        ∧ receivedBytes t = size m)
  ∧ ∃ t, filter (incoming_of tid) (incomingFiles st2) = [t]
         ∧ meta t = m
         ∧ status t = complete
         ∧ blob t = Some (file_bytes f).
Proof.
  intros f tid room m st1 st2 Hvalid Honly Hperm.
  pose proof (sendFile_totalChunks_pos f) as Hpos.
  pose proof (proj1 (is_array_length_spec _) Hvalid) as Hmax.
  assert (Hcanon : ∀ k c, (k, c) ∈ chunk_writes tid delivered ↔
                          c = sendFile_chunk f k ∧ 0 ≤ k < sendFile_totalChunks f).
  { intros k c. rewrite Hperm, list_elem_of_fmap. split.
    - intros (i & [= -> ->] & Hi). apply elem_of_seqZ in Hi. split; [done | lia].
    - intros [-> Hk]. exists k. split; [done |]. apply elem_of_seqZ. lia. }
  destruct (assembled_after_writes room m delivered st (Z.to_nat (sendFile_totalChunks f)))
    as ((t1 & Ht1 & Hm1 & Hchunks & Hbytes) & (t2 & Ht2 & Hm2 & Hstatus & Hblob)).
  { exact Hvalid. }
  { exact Honly. }
  { apply Nat.le_refl. }
  { intros k c Hin _. apply Hcanon in Hin as [_ Hk]. lia. }
  cbn [transferId m sendFile_meta] in *. fold tid room in Ht1, Ht2. fold st1 in Ht1.
  split.
  - exists t1. split; [exact Ht1 |]. split.
    + rewrite Hchunks, Hperm, length_fmap, length_seqZ.
      unfold m. cbn [totalChunks sendFile_meta]. fold f. lia.
    + rewrite Hbytes, (writes_bytes_Permutation _ _ Hperm), writes_bytes_indexed.
      rewrite concat_sendFile_chunks. reflexivity.
  - exists t2. split; [exact Ht2 |]. split; [exact Hm2 |]. split; [exact Hstatus |].
    rewrite Hblob. f_equal.
    transitivity (concat (sendFile_chunk f <$> seqZ 0 (sendFile_totalChunks f)));
      [| apply concat_sendFile_chunks].
    f_equal. unfold seqZ. rewrite <- list_fmap_compose.
    apply omap_all_Some. intros i Hi. apply elem_of_seq in Hi. cbn.
    rewrite Z.add_0_r.
    assert (Hin : (Z.of_nat i, sendFile_chunk f (Z.of_nat i)) ∈ chunk_writes tid delivered).
    { apply Hcanon. split; [done | lia]. }
    assert (Hidx : is_array_index (Z.of_nat i) = true).
    { unfold is_array_index. apply andb_true_iff. rewrite Z.leb_le, Z.ltb_lt. lia. }
    destruct (last_write_is_Some _ _ _ Hin Hidx) as [c Hc]. rewrite Nat2Z.id in Hc.
    rewrite Hc. f_equal.
    apply last_write_elem in Hc as (k & Hk & _ & Hki).
    apply Hcanon in Hk as [-> Hk]. f_equal. lia.
Qed.

Lemma X5_chunks_in_any_order_witness :
  let m := sendFile_meta demo_queued "tid-q1" in
  let st1 := receive_all demo_any_order (receive (file_meta "ab12" m) demo_receiving) in
  let st2 := receive (file_complete "ab12" "tid-q1") st1 in
  (∃ t, filter (incoming_of "tid-q1") (incomingFiles st1) = [t]
        ∧ receivedChunks t = 1
        ∧ receivedBytes t = 3)
  ∧ ∃ t, filter (incoming_of "tid-q1") (incomingFiles st2) = [t]
         ∧ meta t = m
         ∧ status t = complete
         ∧ blob t = Some [x61; x62; x63].
Proof.
  apply (X5_chunks_in_any_order demo_env demo_queued demo_any_order demo_receiving).
  - reflexivity.
  - repeat (constructor; [intros H; try discriminate H; by eexists _, _, _ |]).
    constructor.
  - vm_compute. reflexivity.
Defined.

Lemma error_update_twice (tid : string) (m m' : option string) (t : IncomingTransfer) :
  error_update tid m (error_update tid m' t) = error_update tid m t.
Proof. unfold error_update. by repeat case_decide. Qed.

Lemma announced_snoc (msgs : list Message) (msg : Message) :
  announced (msgs ++ [msg])
  = announced msgs ++ match msg with file_meta _ m => [transferId m] | _ => [] end.
Proof. unfold announced. rewrite omap_app. by destruct msg. Qed.

Lemma announced_mono (msgs : list Message) (msg : Message) (x : string) :
  x ∈ announced msgs → x ∈ announced (msgs ++ [msg]).
Proof. intros Hx. rewrite announced_snoc. apply elem_of_app. by left. Qed.

Lemma errors_for_snoc (tid : string) (msgs : list Message) (msg : Message) :
  errors_for tid (msgs ++ [msg])
  = errors_for tid msgs
    ++ match msg with
       | file_error _ tid' message => if decide (tid' = tid) then [message] else []
       | _ => []
       end.
Proof.
  unfold errors_for. rewrite omap_app. f_equal.
  destruct msg as [| | | room tid' message]; try done. cbn. by case_decide.
Qed.

Lemma released_stays_released (tid : string) (later : list Message) (st : Receiver) :
  incomingBuffers st !! tid = None → tid ∉ announced later →
  incomingBuffers (receive_all later st) !! tid = None
  ∧ filter (incoming_of tid) (incomingFiles (receive_all later st))
    = match last (errors_for tid later) with
      | None => filter (incoming_of tid) (incomingFiles st)
      | Some message => error_update tid message <$> filter (incoming_of tid) (incomingFiles st)
      end.
Proof.
  intros Hnone. induction later as [| msg later IH] using rev_ind; intros Hfresh; [done |].
  rewrite announced_snoc in Hfresh. apply not_elem_of_app in Hfresh as [Hfresh Hmsg].
  destruct (IH Hfresh) as [Hbuf Hview]. clear IH.
  rewrite receive_all_app, errors_for_snoc. unfold receive_all at 1 3. cbn [foldl].
  destruct (decide (msg_tid msg = tid)) as [Hown | Hforeign].
  - destruct msg as [room m | room tid' idx chunk | room tid' | room tid' message];
      cbn [msg_tid] in Hown; subst; cbn [receive].
    + exfalso. apply Hmsg. by left.
    + unfold on_file_chunk. rewrite Hbuf. by rewrite app_nil_r.
    + unfold on_file_complete. rewrite Hbuf. by rewrite app_nil_r.
    + rewrite decide_True by done. rewrite last_snoc.
      unfold on_file_error. cbn [incomingBuffers incomingFiles].
      split; [apply lookup_delete_eq |].
      rewrite filter_fmap_preserved by (intros x; by rewrite error_update_meta).
      rewrite Hview. destruct (last (errors_for tid later)) as [earlier |]; [| done].
      rewrite <- list_fmap_compose. apply list_fmap_ext. intros i t _.
      apply error_update_twice.
  - destruct (receive_foreign tid msg (receive_all later st) Hforeign) as [-> ->].
    split; [done |]. rewrite Hview.
    destruct msg as [room m | room tid' idx chunk | room tid' | room tid' message];
      cbn [msg_tid] in Hforeign; rewrite ?decide_False by done; by rewrite app_nil_r.
Qed.

(** X6. After a [file:complete] or a [file:error] for a transfer, and until a
    [file:meta] announces its identifier again, whatever is received: no slot
    buffer is registered for the transfer, so every [file:chunk] and
    [file:complete] for it is dropped; its entry is what it was, unless a
    [file:error] for it came, and is then that entry put in error with the
    message of the last one (a complete transfer is put in error as well).
    So its meta, payload, URL and counters do not change any more, and its
    status only by going to error. *)
Theorem X6_settled_after_finalisation
    (room tid : string) (final : Message) (later : list Message) (st : Receiver) :
  final = file_complete room tid ∨ (∃ message, final = file_error room tid message) →
  tid ∉ announced later →
  let st1 := receive final st in
  let st2 := receive_all later st1 in
  let view1 := filter (incoming_of tid) (incomingFiles st1) in
  let view2 := filter (incoming_of tid) (incomingFiles st2) in
  incomingBuffers st1 !! tid = None
  ∧ incomingBuffers st2 !! tid = None
  ∧ view2 = match last (errors_for tid later) with
            | None => view1
            | Some message => error_update tid message <$> view1
            end
  ∧ Forall2 (λ t t', meta t' = meta t ∧ blob t' = blob t
                     ∧ downloadUrl t' = downloadUrl t
                     ∧ receivedBytes t' = receivedBytes t
                     ∧ receivedChunks t' = receivedChunks t
                     ∧ (status t' = status t ∧ errorMessage t' = errorMessage t
                        ∨ status t' = error)) view1 view2.
Proof.
  intros Hfinal Hfresh st1 st2 view1 view2.
  assert (Hnone : incomingBuffers st1 !! tid = None).
  { subst st1. destruct Hfinal as [-> | [message ->]]; cbn [receive].
    - unfold on_file_complete.
      destruct (incomingBuffers st !! tid) as [buffers |] eqn:Hb; [| done].
      cbn. apply lookup_delete_eq.
    - unfold on_file_error. cbn. apply lookup_delete_eq. }
  destruct (released_stays_released tid later st1 Hnone Hfresh) as [Hbuf Hview].
  fold st2 in Hbuf, Hview. fold view1 view2 in Hview.
  split; [done |]. split; [done |]. split; [done |].
  rewrite Hview. destruct (last (errors_for tid later)) as [message |].
  - apply Forall2_fmap_r, Forall_Forall2_diag, Forall_forall. intros t Ht.
    unfold compose, error_update. case_decide.
    + cbn [meta blob downloadUrl receivedBytes receivedChunks status errorMessage].
      do 5 (split; [done |]). by right.
    + do 5 (split; [done |]). by left.
  - apply Forall_Forall2_diag, Forall_forall. intros t _.
    do 5 (split; [done |]). by left.
Qed.

Lemma X6_settled_after_finalisation_witness :
  let st2 := receive_all [file_chunk "ab12" "t1" 0 demo_chunk1; file_error "ab12" "t1" None;
                          file_complete "ab12" "t1"] demo_completed in
  incomingBuffers st2 !! "t1" = None
  ∧ blob <$> incomingFiles st2 = [Some (demo_chunk0 ++ demo_chunk1)]
  ∧ status <$> incomingFiles st2 = [error].
Proof.
  destruct (X6_settled_after_finalisation "ab12" "t1" (file_complete "ab12" "t1")
              [file_chunk "ab12" "t1" 0 demo_chunk1; file_error "ab12" "t1" None;
               file_complete "ab12" "t1"]
              (receive (file_chunk "ab12" "t1" 1 demo_chunk1) demo_receiving))
    as (_ & Hbuf & _).
  - by left.
  - vm_compute. intros H. inversion H.
  - split; [exact Hbuf |]. split; reflexivity.
Defined.

(** ** Runs of the send queue: what is emitted and what is left *)

Lemma filter_emits (room tid : string) (acts : list Action) :
  filter (λ msg, msg_tid msg = tid) (concat (action_emits room <$> acts))
  = concat (action_emits room <$> filter (λ a, action_tid a = tid) acts).
Proof.
  induction acts as [| a acts IH]; [done |].
  cbn [fmap list_fmap concat]. rewrite filter_app, IH, filter_cons.
  destruct (decide (action_tid a = tid)) as [Ha | Ha].
  - cbn [fmap list_fmap concat]. f_equal.
    apply filter_all_Forall. destruct a; by repeat constructor.
  - rewrite filter_nil_Forall; [done |]. destruct a; by repeat constructor.
Qed.

Lemma sendFile_messages_emits (env : SendEnv) (queued : QueuedFile) :
  sendFile_messages env queued
  = concat (action_emits (effectiveRoomId env) <$> sendFile env queued).
Proof. unfold sendFile_messages. by rewrite emitted_run_actions. Qed.

Lemma sent_in_run_emits (env : SendEnv) (scheds : list (list nat)) (st : Sender) :
  sent_in_run env scheds st
  = concat (action_emits (effectiveRoomId env)
              <$> sendAll_trace env scheds (batches (queuedFiles st))).
Proof.
  unfold sent_in_run. rewrite handleSendQueuedFiles_connected, emitted_run_actions.
  by rewrite drop_app_length.
Qed.

(** In a run, the messages of one file are those of the file sent alone, in
    the same order. *)
Lemma sent_in_run_filter (env : SendEnv) (scheds : list (list nat)) (st : Sender)
    (queued : QueuedFile) :
  NoDup (generateTransferId env <$> queuedFiles st) → queued ∈ queuedFiles st →
  filter (λ msg, msg_tid msg = generateTransferId env queued) (sent_in_run env scheds st)
  = sendFile_messages env queued.
Proof.
  intros Hnodup Hin. rewrite sent_in_run_emits, filter_emits.
  rewrite sendAll_trace_filter by (by rewrite batches_concat).
  rewrite batches_concat, filter_tasks_own by done.
  by rewrite sendFile_messages_emits.
Qed.

Lemma sendFile_loop_fail (env : SendEnv) (queued : QueuedFile) (tid : string)
    (k : Z) (reason : option string) (r : nat) :
  ∀ idx, idx ≤ k < idx + Z.of_nat r →
    (∀ i, idx ≤ i < k → arrayBuffer env queued i = read_ok) →
    arrayBuffer env queued k = read_rejected reason →
    sendFile_loop env queued tid r idx
    = ((λ i, act_chunk tid i (sendFile_chunk (q_file queued) i))
         <$> seqZ idx (Z.of_nat (Z.to_nat (k - idx))))
      ++ [act_fail (q_id queued) tid (default default_send_error reason)].
Proof.
  induction r as [| r IH]; intros idx Hk Hok Hbad; [lia |].
  cbn [sendFile_loop]. destruct (decide (k = idx)) as [-> | Hne].
  - rewrite Hbad. by rewrite Z.sub_diag.
  - rewrite Hok by lia. rewrite (IH (idx + 1)); [| lia | intros i Hi; apply Hok; lia | done].
    rewrite (seqZ_cons idx) by lia. cbn [fmap list_fmap app]. do 3 f_equal.
    f_equal; lia.
Qed.

(** A file whose read of chunk [k] is the first rejected goes out as its
    meta, the chunks before [k], and the error message. *)
Lemma sendFile_messages_fail (env : SendEnv) (queued : QueuedFile) (k : Z)
    (reason : option string) :
  let f := q_file queued in
  let tid := generateTransferId env queued in
  let room := effectiveRoomId env in
  first_failure env queued k reason →
  sendFile_messages env queued
  = file_meta room (sendFile_meta queued tid)
    :: chunk_messages room tid 0 (sendFile_chunk f <$> seqZ 0 k)
    ++ [file_error room tid (Some (default default_send_error reason))].
Proof.
  intros f tid room (Hk & Hok & Hbad). fold f in Hk. rewrite sendFile_messages_emits.
  unfold sendFile. fold f tid room.
  rewrite (sendFile_loop_fail env queued tid k reason); [| lia | done | done].
  cbn [fmap list_fmap concat action_emits app]. f_equal.
  rewrite fmap_app, concat_app. cbn [fmap list_fmap concat action_emits app].
  rewrite Z.sub_0_r, chunk_messages_fmap. by rewrite Z2Nat.id by lia.
Qed.

(** X7. In a run of the queue, whatever the interleaving, the messages of
    each file's transfer are emitted in the order of the file sent alone: the
    meta, the chunks in index order, then the completion marker when every
    read succeeds, or, when the read of chunk [k] is the first rejected, the
    chunks before [k] and then the error message with the reason (the default
    text when the reason is not an [Error]); nothing of the transfer follows
    the error. *)
Theorem X7_emission_order_per_transfer
    (env : SendEnv) (scheds : list (list nat)) (st : Sender) (queued : QueuedFile) :
  let f := q_file queued in
  let tid := generateTransferId env queued in
  let room := effectiveRoomId env in
  NoDup (generateTransferId env <$> queuedFiles st) →
  queued ∈ queuedFiles st →
  filter (λ msg, msg_tid msg = tid) (sent_in_run env scheds st)
  = sendFile_messages env queued
  ∧ (reads_ok env queued →
     sendFile_messages env queued
     = file_meta room (sendFile_meta queued tid)
       :: chunk_messages room tid 0 (sendFile_chunk f <$> seqZ 0 (sendFile_totalChunks f))
       ++ [file_complete room tid])
  ∧ ∀ k reason, first_failure env queued k reason →
      sendFile_messages env queued
      = file_meta room (sendFile_meta queued tid)
        :: chunk_messages room tid 0 (sendFile_chunk f <$> seqZ 0 k)
        ++ [file_error room tid (Some (default default_send_error reason))].
Proof.
  intros f tid room Hnodup Hin. split; [by apply sent_in_run_filter |]. split.
  - apply sendFile_messages_ok.
  - apply sendFile_messages_fail.
Qed.

Lemma demo_queue5_NoDup : NoDup (generateTransferId demo_env5 <$> demo_queue5).
Proof. apply (bool_decide_unpack _). vm_compute. exact I. Qed.

Lemma X7_emission_order_per_transfer_witness :
  let queued := demo_queue_entry "q2" demo_file None in
  filter (λ msg, msg_tid msg = "tid-q2") (sent_in_run demo_env5 demo_scheds demo_sender5)
  = sendFile_messages demo_env5 queued
  ∧ sendFile_messages demo_env5 queued
    = [ file_meta "ab12" (sendFile_meta queued "tid-q2");
        file_error "ab12" "tid-q2" (Some "NotReadableError") ].
Proof.
  destruct (X7_emission_order_per_transfer demo_env5 demo_scheds demo_sender5
              (demo_queue_entry "q2" demo_file None) demo_queue5_NoDup)
    as (Horder & _ & Hfail).
  { cbn. repeat constructor. }
  split; [exact Horder |].
  apply (Hfail 0 (Some "NotReadableError")).
  split; [split; [lia | reflexivity] |]. split; [intros i Hi; lia | reflexivity].
Defined.

(** X8. A run of the queue on a connected socket leaves the queue empty:
    every file it took is removed when its transfer ends, with the completion
    marker or with an error, whatever the interleaving. *)
Theorem X8_run_drains_queue (env : SendEnv) (scheds : list (list nat)) (st : Sender) :
  queuedFiles (handleSendQueuedFiles env true scheds st) = [].
Proof.
  rewrite handleSendQueuedFiles_connected, queue_run_actions.
  apply filter_nil_Forall, Forall_forall. intros queued Hin Hnot. apply Hnot.
  apply list_elem_of_omap.
  assert (Hterm : q_id queued ∈ omap action_dequeues (sendFile env queued)).
  { unfold sendFile. cbn [omap list_omap action_dequeues]. apply sendFile_loop_dequeues. }
  apply list_elem_of_omap in Hterm as (a & Ha & Hdeq).
  exists a. split; [| done].
  rewrite sendAll_trace_Permutation, batches_concat.
  apply elem_of_concat. exists (sendFile env queued). split; [| done].
  apply list_elem_of_fmap. eauto.
Qed.

Lemma outgoing_view_final (env : SendEnv) (scheds : list (list nat)) (st : Sender)
    (queued : QueuedFile) :
  let tid := generateTransferId env queued in
  NoDup (generateTransferId env <$> queuedFiles st) → queued ∈ queuedFiles st →
  filter (outgoing_of tid) (outgoingFiles (handleSendQueuedFiles env true scheds st))
  = foldl outgoing_step (filter (outgoing_of tid) (outgoingFiles st)) (sendFile env queued).
Proof.
  intros tid Hnodup Hin. subst tid.
  rewrite handleSendQueuedFiles_connected, outgoing_run_actions, outgoing_projection.
  rewrite sendAll_trace_filter by (by rewrite batches_concat).
  rewrite batches_concat. by rewrite filter_tasks_own.
Qed.

(** The loop of [sendFile] on the entry of its transfer, with the chunk
    counter: on entry [sentChunks] is the index of the next chunk. *)
Lemma sendFile_loop_entry (tid : string) (env : SendEnv) (queued : QueuedFile) (r : nat) :
  ∀ (idx : Z) (e : OutgoingTransfer),
    transferId (out_meta e) = tid → sentChunks e = idx →
    ∃ e', foldl outgoing_step [e] (sendFile_loop env queued tid r idx) = [e']
          ∧ out_meta e' = out_meta e
          ∧ ((∀ i, idx ≤ i < idx + Z.of_nat r → arrayBuffer env queued i = read_ok) →
             out_status e' = out_complete
             ∧ sentChunks e' = idx + Z.of_nat r
             ∧ out_errorMessage e' = out_errorMessage e)
          ∧ (∀ k reason, idx ≤ k < idx + Z.of_nat r →
               (∀ i, idx ≤ i < k → arrayBuffer env queued i = read_ok) →
               arrayBuffer env queued k = read_rejected reason →
               out_status e' = out_error
               ∧ sentChunks e' = k
               ∧ out_errorMessage e' = Some (default default_send_error reason)).
Proof.
  induction r as [| r IH]; intros idx e He Hsent.
  - cbn [sendFile_loop foldl action_outgoing fmap list_fmap].
    unfold set_outgoing. rewrite decide_True by done.
    eexists. split; [reflexivity |]. cbn. split; [done |]. split.
    + intros _. split; [done |]. split; [lia | done].
    + intros k reason Hk. lia.
  - cbn [sendFile_loop]. destruct (arrayBuffer env queued idx) as [| reason0] eqn:Hread.
    + cbn [foldl action_outgoing fmap list_fmap].
      unfold set_outgoing. rewrite decide_True by done.
      match goal with |- context [foldl _ [?e1] _] =>
        destruct (IH (idx + 1) e1 He eq_refl) as (e' & Hrun & Hmeta & Hok & Hfail) end.
      exists e'. split; [exact Hrun |]. split; [exact Hmeta |]. split.
      * intros Hall. destruct Hok as (? & ? & ?); [intros i Hi; apply Hall; lia |].
        split; [done |]. split; [lia | done].
      * intros k reason Hk Hbefore Hbad.
        destruct (decide (k = idx)) as [-> | Hne]; [congruence |].
        apply Hfail; [lia | intros i Hi; apply Hbefore; lia | done].
    + cbn [foldl action_outgoing fmap list_fmap].
      unfold set_outgoing. rewrite decide_True by done.
      eexists. split; [reflexivity |]. cbn. split; [done |]. split.
      * intros Hall. rewrite Hall in Hread by lia. discriminate.
      * intros k reason Hk Hbefore Hbad.
        destruct (decide (k = idx)) as [-> | Hne].
        -- rewrite Hread in Hbad. injection Hbad as ->. done.
        -- rewrite Hbefore in Hread by lia. discriminate.
Qed.

(** X9. When a run of the queue ends, each file has exactly one outgoing
    transfer with the meta computed for it, whatever the interleaving: with
    every read succeeding it is complete, [sentChunks] equals [totalChunks]
    and no error message is set; when the read of chunk [k] was the first
    rejected it is in error, [sentChunks] is [k], the number of chunks that
    went out, and the error message is the reason (or the default text). *)
Theorem X9_outgoing_progress_at_end
    (env : SendEnv) (scheds : list (list nat)) (st : Sender) (queued : QueuedFile) :
  let tid := generateTransferId env queued in
  let final := handleSendQueuedFiles env true scheds st in
  NoDup (generateTransferId env <$> queuedFiles st) →
  queued ∈ queuedFiles st →
  ∃ e, filter (outgoing_of tid) (outgoingFiles final) = [e]
       ∧ out_meta e = sendFile_meta queued tid
       ∧ (reads_ok env queued →
          out_status e = out_complete
          ∧ sentChunks e = totalChunks (out_meta e)
          ∧ out_errorMessage e = None)
       ∧ ∀ k reason, first_failure env queued k reason →
           out_status e = out_error
           ∧ sentChunks e = k
           ∧ out_errorMessage e = Some (default default_send_error reason).
Proof.
  intros tid final Hnodup Hin. subst tid final.
  rewrite (outgoing_view_final env scheds st queued Hnodup Hin).
  set (tid := generateTransferId env queued).
  unfold sendFile. fold tid. cbn [foldl action_outgoing].
  replace (filter (λ item, transferId (out_meta item) ≠ transferId (sendFile_meta queued tid))
             (filter (outgoing_of tid) (outgoingFiles st)))
    with (@nil OutgoingTransfer).
  2:{ symmetry. rewrite list_filter_filter. apply filter_nil_Forall, Forall_forall.
      intros x _. cbn. tauto. }
  cbn [app].
  pose proof (sendFile_totalChunks_pos (q_file queued)) as Hpos.
  match goal with |- context [foldl _ [?e1] _] =>
    destruct (sendFile_loop_entry tid env queued
                (Z.to_nat (sendFile_totalChunks (q_file queued))) 0 e1 eq_refl eq_refl)
      as (e' & Hrun & Hmeta & Hok & Hfail) end.
  exists e'. split; [exact Hrun |]. split; [exact Hmeta |]. split.
  - intros Hall. destruct Hok as (? & ? & ?); [intros i Hi; apply Hall; lia |].
    rewrite Hmeta. cbn. split; [done |]. split; [lia | done].
  - intros k reason (Hk & Hbefore & Hbad). apply Hfail; [lia | done | done].
Qed.

Lemma X9_outgoing_progress_at_end_witness :
  let final := handleSendQueuedFiles demo_env5 true demo_scheds demo_sender5 in
  ∃ e, filter (outgoing_of "tid-q4") (outgoingFiles final) = [e]
       ∧ out_status e = out_error
       ∧ sentChunks e = 0
       ∧ out_errorMessage e = Some "NotReadableError".
Proof.
  destruct (X9_outgoing_progress_at_end demo_env5 demo_scheds demo_sender5
              (demo_queue_entry "q4" demo_file (Some "docs/sub/b.txt")) demo_queue5_NoDup)
    as (e & He & _ & _ & Hfail).
  { cbn. repeat constructor. }
  exists e. split; [exact He |].
  apply (Hfail 0 (Some "NotReadableError")).
  split; [split; [lia | reflexivity] |]. split; [intros i Hi; lia | reflexivity].
Defined.

Lemma batch_loop_full (fuel i : nat) (queue : list QueuedFile) (bs : list (list QueuedFile))
    (last : list QueuedFile) :
  batch_loop fuel i queue = bs ++ [last] → Forall (λ batch, length batch = 3%nat) bs.
Proof.
  revert i bs. induction fuel as [| fuel IH]; intros i bs; cbn [batch_loop].
  - by destruct bs.
  - destruct (decide (i < length queue)%nat) as [Hi | Hi]; [| by destruct bs].
    destruct bs as [| b bs]; [constructor |].
    cbn [app]. intros [= <- Hrest]. constructor; [| by eapply IH].
    destruct fuel as [| fuel']; [by destruct bs |]. cbn [batch_loop] in Hrest.
    destruct (decide (i + PARALLEL_LIMIT < length queue)%nat) as [Hnext | Hnext];
      [| by destruct bs].
    rewrite length_take, length_drop. unfold PARALLEL_LIMIT in *. lia.
Qed.

(** X10. Every batch of a run but the last has exactly 3 files, and the last
    has between 1 and 3. *)
Theorem X10_batches_full_but_last
    (queue : list QueuedFile) (bs : list (list QueuedFile)) (last : list QueuedFile) :
  batches queue = bs ++ [last] →
  Forall (λ batch, length batch = 3%nat) bs ∧ (1 ≤ length last ≤ 3)%nat.
Proof.
  intros Hbs. split; [by eapply batch_loop_full |].
  pose proof (batches_sizes queue) as Hsizes. rewrite Hbs in Hsizes.
  apply Forall_app in Hsizes as [_ Hlast]. by inversion Hlast.
Qed.

Lemma X10_batches_full_but_last_witness :
  batches demo_queue5 = [take 3 demo_queue5] ++ [drop 3 demo_queue5]
  ∧ Forall (λ batch, length batch = 3%nat) [take 3 demo_queue5]
  ∧ (1 ≤ length (drop 3 demo_queue5) ≤ 3)%nat.
Proof.
  split; [reflexivity |].
  apply (X10_batches_full_but_last demo_queue5 [take 3 demo_queue5] (drop 3 demo_queue5)).
  reflexivity.
Defined.

(** ** From the sender's run to the peer *)

Lemma receive_all_cons (msg : Message) (l : list Message) (st : Receiver) :
  receive_all (msg :: l) st = receive_all l (receive msg st).
Proof. reflexivity. Qed.

Section delivery_outcomes.
Variables (tid room : string) (m : TransferMeta).
Hypothesis m_tid : transferId m = tid.
Hypothesis m_valid : is_array_length (totalChunks m) = true.

Lemma delivery_split (delivered : list Message) (cs : list (list byte)) (last : Message)
    (rst : Receiver) :
  filter (λ msg, msg_tid msg = tid) delivered
  = file_meta room m :: chunk_messages room tid 0 cs ++ [last] →
  (length cs ≤ Z.to_nat (totalChunks m))%nat →
  ∃ st2 after,
    receive_all delivered rst = receive_all after (receive last st2)
    ∧ Forall (λ msg, ¬ msg_tid msg = tid) after
    ∧ filling tid m cs (Z.to_nat (totalChunks m) - length cs) st2.
Proof.
  intros Hdelivered Hlen.
  apply filter_cons_inv in Hdelivered as (before & rest & Hsplit & Hbefore & Hrest).
  apply filter_snoc_inv in Hrest as (between & after & Hsplit' & Hbetween & Hafter).
  set (st1 := receive (file_meta room m) (receive_all before rst)).
  exists (receive_all between st1), after. split; [| split; [done |]].
  - rewrite Hsplit, Hsplit'.
    by rewrite receive_all_app, receive_all_cons, receive_all_app, receive_all_cons.
  - pose proof (proj1 (is_array_length_spec _) m_valid) as Hmax.
    apply (filling_chunks tid room between cs [] st1).
    + exact Hbetween.
    + cbn. lia.
    + replace (length cs + (Z.to_nat (totalChunks m) - length cs))%nat
        with (Z.to_nat (totalChunks m)) by lia.
      by apply filling_meta.
Qed.

(** The whole stream of a transfer, ended by the completion marker. *)
Lemma delivery_complete (delivered : list Message) (cs : list (list byte)) (rst : Receiver) :
  filter (λ msg, msg_tid msg = tid) delivered
  = file_meta room m :: chunk_messages room tid 0 cs ++ [file_complete room tid] →
  (length cs ≤ Z.to_nat (totalChunks m))%nat →
  incomingBuffers (receive_all delivered rst) !! tid = None
  ∧ ∃ t, filter (incoming_of tid) (incomingFiles (receive_all delivered rst)) = [t]
         ∧ meta t = m ∧ status t = complete ∧ blob t = Some (concat cs).
Proof.
  intros Hdelivered Hlen.
  destruct (delivery_split delivered cs _ rst Hdelivered Hlen)
    as (st2 & after & -> & Hafter & Hfill).
  destruct (filling_complete tid room _ _ _ _ Hfill)
    as (Hnone & t & Ht & Hmeta & Hstatus & _ & _ & Hblob).
  destruct (receive_all_foreign tid after (receive (file_complete room tid) st2) Hafter)
    as [-> ->].
  split; [done |]. by exists t.
Qed.

(** The stream of a transfer cut short by an error message. *)
Lemma delivery_error (delivered : list Message) (cs : list (list byte))
    (message : option string) (rst : Receiver) :
  filter (λ msg, msg_tid msg = tid) delivered
  = file_meta room m :: chunk_messages room tid 0 cs ++ [file_error room tid message] →
  (length cs ≤ Z.to_nat (totalChunks m))%nat →
  incomingBuffers (receive_all delivered rst) !! tid = None
  ∧ ∃ t, filter (incoming_of tid) (incomingFiles (receive_all delivered rst)) = [t]
         ∧ meta t = m ∧ status t = error
         ∧ errorMessage t = Some (default default_receive_error message).
Proof.
  intros Hdelivered Hlen.
  destruct (delivery_split delivered cs _ rst Hdelivered Hlen)
    as (st2 & after & -> & Hafter & [Hbuf (t & Ht & Hmeta)]).
  destruct (receive_all_foreign tid after (receive (file_error room tid message) st2) Hafter)
    as [-> ->].
  cbn [receive]. unfold on_file_error. cbn [incomingBuffers incomingFiles].
  split; [apply lookup_delete_eq |].
  rewrite filter_fmap_preserved by (intros x; by rewrite error_update_meta).
  rewrite Ht. cbn [fmap list_fmap]. eexists. split; [reflexivity |].
  assert (Hmine : transferId (meta t) = tid) by (by rewrite Hmeta).
  unfold error_update. rewrite decide_True by done. cbn. done.
Qed.

End delivery_outcomes.

(** Either every read of a file succeeds or some read is the first rejected. *)
Lemma arrayBuffer_first_failure (env : SendEnv) (queued : QueuedFile) :
  reads_ok env queued ∨ ∃ k reason, first_failure env queued k reason.
Proof.
  unfold reads_ok, first_failure.
  pose proof (sendFile_totalChunks_pos (q_file queued)) as Hpos.
  rewrite <- (Z2Nat.id (sendFile_totalChunks (q_file queued))) by lia.
  induction (Z.to_nat (sendFile_totalChunks (q_file queued))) as [| r IH].
  - left. intros i Hi. lia.
  - destruct IH as [Hok | (k & reason & Hk & Hbefore & Hbad)].
    + destruct (arrayBuffer env queued (Z.of_nat r)) as [| reason] eqn:Hread.
      * left. intros i Hi. destruct (decide (i = Z.of_nat r)) as [-> | Hne]; [done |].
        apply Hok. lia.
      * right. exists (Z.of_nat r), reason. split; [lia |]. split; [| done].
        intros i Hi. apply Hok. lia.
    + right. exists k, reason. split; [lia | done].
Qed.

(** X11. End to end.  A peer that handles the messages of a run of the send
    queue in the order they were emitted ends, whatever the interleaving of
    the files and whatever it held before, with exactly one transfer per
    file and no buffer left for it: complete with the bytes of the file (the
    empty file included) when every read succeeded, in error with the
    sender's reason when a read was rejected.  The chunk count of the file is
    an array length and the transfer identifiers of the run are distinct. *)
Theorem X11_run_received_by_peer
    (env : SendEnv) (scheds : list (list nat)) (st : Sender) (rst : Receiver)
    (queued : QueuedFile) :
  let f := q_file queued in
  let tid := generateTransferId env queued in
  let peer := receive_all (sent_in_run env scheds st) rst in
  NoDup (generateTransferId env <$> queuedFiles st) →
  queued ∈ queuedFiles st →
  is_array_length (sendFile_totalChunks f) = true →
  incomingBuffers peer !! tid = None
  ∧ (reads_ok env queued →
     ∃ t, filter (incoming_of tid) (incomingFiles peer) = [t]
          ∧ meta t = sendFile_meta queued tid
          ∧ status t = complete
          ∧ blob t = Some (file_bytes f))
  ∧ ∀ k reason, first_failure env queued k reason →
      ∃ t, filter (incoming_of tid) (incomingFiles peer) = [t]
           ∧ meta t = sendFile_meta queued tid
           ∧ status t = error
           ∧ errorMessage t = Some (default default_send_error reason).
Proof.
  intros f tid peer Hnodup Hin Hvalid.
  pose proof (sent_in_run_filter env scheds st queued Hnodup Hin) as Hown. fold tid in Hown.
  pose proof (sendFile_totalChunks_pos f) as Hpos.
  assert (Hok : reads_ok env queued →
                incomingBuffers peer !! tid = None
                ∧ ∃ t, filter (incoming_of tid) (incomingFiles peer) = [t]
                       ∧ meta t = sendFile_meta queued tid
                       ∧ status t = complete
                       ∧ blob t = Some (file_bytes f)).
  { intros Hreads. rewrite (sendFile_messages_ok env queued Hreads) in Hown.
    rewrite <- (concat_sendFile_chunks f).
    apply (delivery_complete tid (effectiveRoomId env) (sendFile_meta queued tid)
             eq_refl Hvalid _ _ rst Hown).
    rewrite length_fmap, length_seqZ. apply Nat.le_refl. }
  assert (Hfail : ∀ k reason, first_failure env queued k reason →
                incomingBuffers peer !! tid = None
                ∧ ∃ t, filter (incoming_of tid) (incomingFiles peer) = [t]
                       ∧ meta t = sendFile_meta queued tid
                       ∧ status t = error
                       ∧ errorMessage t = Some (default default_send_error reason)).
  { intros k reason Hfirst. pose proof Hfirst as (Hk & _ & _). fold f in Hk.
    rewrite (sendFile_messages_fail env queued k reason Hfirst) in Hown.
    apply (delivery_error tid (effectiveRoomId env) (sendFile_meta queued tid)
             eq_refl Hvalid _ _ _ rst Hown).
    rewrite length_fmap, length_seqZ. cbn [totalChunks sendFile_meta]. fold f. lia. }
  split; [| split].
  - destruct (arrayBuffer_first_failure env queued) as [Hreads | (k & reason & Hfirst)].
    + by apply Hok.
    + by apply (Hfail k reason).
  - intros Hreads. by apply Hok.
  - intros k reason Hfirst. by apply (Hfail k reason).
Qed.

Lemma X11_run_received_by_peer_witness :
  let peer := receive_all (sent_in_run demo_env5 demo_scheds demo_sender5) demo_receiving in
  (∃ t, filter (incoming_of "tid-q3") (incomingFiles peer) = [t]
        ∧ meta t = sendFile_meta (demo_queue_entry "q3" demo_file (Some "docs/a.txt")) "tid-q3"
        ∧ status t = complete
        ∧ blob t = Some [x61; x62; x63])
  ∧ ∃ t, filter (incoming_of "tid-q2") (incomingFiles peer) = [t]
         ∧ meta t = sendFile_meta (demo_queue_entry "q2" demo_file None) "tid-q2"
         ∧ status t = error
         ∧ errorMessage t = Some "NotReadableError".
Proof.
  split.
  - destruct (X11_run_received_by_peer demo_env5 demo_scheds demo_sender5 demo_receiving
                (demo_queue_entry "q3" demo_file (Some "docs/a.txt")) demo_queue5_NoDup)
      as (_ & Hok & _).
    + cbn. repeat constructor.
    + reflexivity.
    + apply Hok. intros i _. reflexivity.
  - destruct (X11_run_received_by_peer demo_env5 demo_scheds demo_sender5 demo_receiving
                (demo_queue_entry "q2" demo_file None) demo_queue5_NoDup)
      as (_ & _ & Hfail).
    + cbn. repeat constructor.
    + reflexivity.
    + apply (Hfail 0 (Some "NotReadableError")).
      split; [split; [lia | reflexivity] |]. split; [intros i Hi; lia | reflexivity].
Defined.

Example peer_after_run_of_five :
  (λ t, (transferId (meta t), status t))
    <$> incomingFiles (receive_all (sent_in_run demo_env5 demo_scheds demo_sender5)
                         empty_receiver)
  = [("tid-q3", complete); ("tid-q1", complete); ("tid-q2", error);
     ("tid-q5", complete); ("tid-q4", error)].
Proof. vm_compute. reflexivity. Qed.

(** ** Leaving a room, forwarding, disconnecting *)

Lemma members_socket_leave (client room other : list N) (st : Relay) :
  members (socket_leave client room st) other
  = if decide (room = other) then members st room ∖ {[client]} else members st other.
Proof.
  unfold members, socket_leave.
  destruct (rooms st !! room) as [sockets |] eqn:Hroom; cbn [default from_option id].
  - destruct (decide (sockets ∖ {[client]} = ∅)) as [Hempty | Hnonempty]; cbn [rooms].
    + destruct (decide (room = other)) as [<- | Hne].
      * rewrite lookup_delete_eq. cbn. by rewrite Hempty.
      * by rewrite lookup_delete_ne.
    + rewrite lookup_insert. destruct (decide (room = other)) as [<- | Hne]; [done |].
      done.
  - destruct (decide (room = other)) as [<- | Hne]; [| done].
    rewrite Hroom. cbn. symmetry. apply subseteq_empty_difference_L, empty_subseteq.
Qed.

Lemma peers_of_room (client who : list N) (sockets : gset (list N)) :
  who ∈ elements (sockets ∖ {[client]}) ↔ who ∈ sockets ∧ who ≠ client.
Proof. by rewrite elem_of_elements, elem_of_difference, elem_of_singleton. Qed.

(** X12. A [room:leave] packet without payload, or with [null], makes the
    listener throw a [TypeError] while it destructures its parameter, before
    the guard.  With any other payload the listener returns, and then: a
    [roomId] that is not a string, or is blank or white space only, is
    dropped.  Otherwise the sender is taken out of the members of the room
    (the other rooms are untouched), every remaining member gets exactly one
    [peer:left], the sender gets nothing and neither does anybody outside the
    room; the relay does not check that the sender was a member. *)
Theorem X12_room_leave (client : list N) (roomId : js_value) (st : Relay) :
  let st' := (on_room_leave client roomId st).1 in
  let pkts := (on_room_leave client roomId st).2 in
  room_leave_listener client None st = throws_TypeError
  ∧ room_leave_listener client (Some roomId) st = returns (st', pkts)
  ∧ ((∀ room, roomId = js_str room → Forall (λ c, is_js_whitespace c = true) room) →
     st' = st ∧ pkts = [])
  ∧ (∀ room, roomId = js_str room → ¬ Forall (λ c, is_js_whitespace c = true) room →
       members st' room = members st room ∖ {[client]}
       ∧ (∀ other, other ≠ room → members st' other = members st other)
       ∧ (∀ peer, peer ∈ members st room → peer ≠ client →
            received peer peer_left pkts = 1%nat
            ∧ received peer room_joined pkts = 0%nat
            ∧ received peer peer_joined pkts = 0%nat)
       ∧ (∀ event, received client event pkts = 0%nat)
       ∧ (∀ who event, who ∉ members st room → received who event pkts = 0%nat)
       ∧ Forall (λ p, pkt_roomId p = room) pkts).
Proof.
  intros st' pkts. split; [done |].
  split; [subst st' pkts; cbn [room_leave_listener]; by destruct (on_room_leave client roomId st) |].
  split.
  - intros Hblank. subst st' pkts. unfold on_room_leave.
    destruct roomId as [| | b | z | room |]; try done.
    rewrite decide_True; [done |]. apply trim_nil_iff. by apply Hblank.
  - intros room -> Hroom. subst st' pkts. unfold on_room_leave.
    rewrite decide_False by (by rewrite trim_nil_iff). cbn [fst snd].
    assert (Hmem : members (socket_leave client room st) room = members st room ∖ {[client]}).
    { rewrite members_socket_leave. by rewrite decide_True. }
    unfold socket_to_emit. rewrite Hmem.
    pose proof (NoDup_elements ((members st room ∖ {[client]}) ∖ {[client]})) as Hnodup.
    assert (Hpeers : ∀ who, who ∈ elements ((members st room ∖ {[client]}) ∖ {[client]})
                            ↔ who ∈ members st room ∧ who ≠ client).
    { intros who. rewrite peers_of_room, elem_of_difference, elem_of_singleton. tauto. }
    split; [done |].
    split. { intros other Hother. rewrite members_socket_leave. by rewrite decide_False. }
    split; [| split; [| split]].
    + intros peer Hpeer Hne. rewrite !received_broadcast by done.
      rewrite decide_True by (by rewrite Hpeers).
      by rewrite !decide_False by (intros [_ ?]; done).
    + intros event. rewrite received_broadcast by done.
      rewrite decide_False; [done |]. rewrite Hpeers. tauto.
    + intros who event Hwho. rewrite received_broadcast by done.
      rewrite decide_False; [done |]. rewrite Hpeers. tauto.
    + apply Forall_fmap, Forall_forall. done.
Qed.

Lemma X12_room_leave_witness :
  let joined := (on_room_join socket_B (js_str demo_room) demo_relay).1 in
  let st' := (on_room_leave socket_B (js_str demo_room) joined).1 in
  let pkts := (on_room_leave socket_B (js_str demo_room) joined).2 in
  room_leave_listener socket_B None joined = throws_TypeError
  ∧ members st' demo_room = members joined demo_room ∖ {[socket_B]}
  ∧ received socket_A peer_left pkts = 1%nat
  ∧ received socket_B peer_left pkts = 0%nat.
Proof.
  intros joined.
  destruct (X12_room_leave socket_B (js_str demo_room) joined)
    as (Hthrows & _ & _ & Hleave).
  destruct (Hleave demo_room eq_refl) as (Hmem & _ & Hpeers & Hself & _).
  { intros H. inversion H. discriminate. }
  split; [exact Hthrows |]. split; [exact Hmem |]. split; [| apply Hself].
  apply (Hpeers socket_A); [| discriminate].
  apply (bool_decide_unpack _). vm_compute. exact I.
Defined.

Lemma socket_join_no_empty (client room : list N) (st : Relay) :
  no_empty_rooms st → no_empty_rooms (socket_join client room st).
Proof.
  intros Hst other. unfold socket_join. cbn [rooms]. rewrite lookup_insert.
  destruct (decide (room = other)) as [_ | _]; [| apply Hst].
  intros [= Hempty]. apply (not_elem_of_empty (C := gset (list N)) client).
  rewrite <- Hempty. apply elem_of_union. left. by apply elem_of_singleton.
Qed.

Lemma socket_leave_no_empty (client room : list N) (st : Relay) :
  no_empty_rooms st → no_empty_rooms (socket_leave client room st).
Proof.
  intros Hst other. unfold socket_leave.
  destruct (rooms st !! room) as [sockets |] eqn:Hroom; [| apply Hst].
  destruct (decide (sockets ∖ {[client]} = ∅)) as [Hempty | Hnonempty]; cbn [rooms].
  - rewrite lookup_delete. destruct (decide (room = other)); [done | apply Hst].
  - rewrite lookup_insert. destruct (decide (room = other)); [congruence | apply Hst].
Qed.

(** X13. Joining a room and leaving it again puts the room table back as it
    was, for a socket that was not a member of the room (the table holding no
    empty room, which both operations preserve): a room created by the join
    is dropped by the leave. *)
Theorem X13_join_then_leave (client room : list N) (st : Relay) :
  ¬ Forall (λ c, is_js_whitespace c = true) room →
  no_empty_rooms st →
  client ∉ members st room →
  let joined := (on_room_join client (js_str room) st).1 in
  let left := (on_room_leave client (js_str room) joined).1 in
  no_empty_rooms joined ∧ no_empty_rooms left ∧ left = st.
Proof.
  intros Hroom Hst Hnotin joined left. subst joined left.
  unfold on_room_join, on_room_leave.
  rewrite !decide_False by (by rewrite trim_nil_iff). cbn [fst snd].
  split; [by apply socket_join_no_empty |].
  split; [by apply socket_leave_no_empty, socket_join_no_empty |].
  unfold socket_leave, socket_join. cbn [rooms]. rewrite lookup_insert_eq.
  assert (Hback : ({[client]} ∪ members st room) ∖ {[client]} = members st room).
  { apply set_eq. intros x.
    rewrite elem_of_difference, elem_of_union, elem_of_singleton.
    split; [tauto |]. intros Hx. split; [by right | congruence]. }
  rewrite Hback. destruct st as [table]. cbn [rooms] in *. unfold members in *. cbn [rooms] in *.
  destruct (table !! room) as [sockets |] eqn:Htable; cbn [default from_option id] in *.
  - rewrite decide_False by (intros ->; by apply (Hst room)).
    f_equal. rewrite insert_insert_eq. by apply insert_id.
  - rewrite decide_True by done. f_equal. rewrite delete_insert_eq. by apply delete_id.
Qed.

Lemma demo_relay_no_empty : no_empty_rooms demo_relay.
Proof.
  apply (socket_join_no_empty socket_A demo_room
           {| rooms := {[ socket_A := {[ socket_A ]}; socket_B := {[ socket_B ]} ]} |}).
  intros room. cbn [rooms]. rewrite lookup_insert.
  assert (Hsingle : ∀ x : list N, Some ({[x]} : gset (list N)) ≠ Some ∅).
  { intros x Heq. apply (inj Some) in Heq.
    by apply (non_empty_singleton_L (C := gset (list N))) in Heq. }
  destruct (decide (socket_A = room)) as [_ | _]; [apply Hsingle |].
  rewrite lookup_singleton. destruct (decide (socket_B = room)) as [_ | _]; [| done].
  apply Hsingle.
Qed.

Lemma X13_join_then_leave_witness :
  let joined := (on_room_join socket_B (js_str demo_room) demo_relay).1 in
  (on_room_leave socket_B (js_str demo_room) joined).1 = demo_relay.
Proof.
  apply (X13_join_then_leave socket_B demo_room demo_relay).
  - intros H. inversion H. discriminate.
  - apply demo_relay_no_empty.
  - apply (bool_decide_unpack _). vm_compute. exact I.
Defined.

Lemma count_to_fmap {P : Type} (mk : list N → P) (to : P → list N) (who : list N)
    (peers : list (list N)) :
  (∀ peer, to (mk peer) = peer) → NoDup peers →
  length (filter (λ pkt, to pkt = who) (mk <$> peers))
  = if decide (who ∈ peers) then 1%nat else 0%nat.
Proof.
  intros Hto. induction 1 as [| peer peers Hfresh _ IH]; cbn [fmap list_fmap].
  - rewrite filter_nil. rewrite decide_False; [done |]. by intros H%elem_of_nil.
  - rewrite filter_cons, Hto. destruct (decide (peer = who)) as [-> | Hne].
    + cbn [length]. rewrite IH, decide_False by done.
      by rewrite decide_True by (by left).
    + rewrite IH. apply decide_ext. rewrite elem_of_cons.
      split; [by right | by intros [-> | Hin]].
Qed.

(** X14. The relay forwards a transfer event ([file:meta], [file:chunk],
    [file:complete], [file:error]) as it got it: when the payload is missing
    or its [roomId] is not a string, or is blank or white space only, nothing
    is sent; otherwise every member of the room other than the sender gets
    exactly one packet, with the same event and the unchanged payload, and
    neither the sender nor a socket outside the room gets any.  The relay
    does not look at whether the sender is a member of the room. *)
Theorem X14_forward_to_other_members {P : Type} (roomId_of : P → js_value)
    (event : FileEvent) (client : list N) (payload : option P) (st : Relay) :
  let pkts := on_file_event roomId_of event client payload st in
  ((∀ p room, payload = Some p → roomId_of p = js_str room →
      Forall (λ c, is_js_whitespace c = true) room) → pkts = [])
  ∧ ∀ p room, payload = Some p → roomId_of p = js_str room →
      ¬ Forall (λ c, is_js_whitespace c = true) room →
      (∀ peer, peer ∈ members st room → peer ≠ client →
         length (filter (λ pkt, fwd_to pkt = peer) pkts) = 1%nat)
      ∧ (∀ who, who = client ∨ who ∉ members st room →
           length (filter (λ pkt, fwd_to pkt = who) pkts) = 0%nat)
      ∧ Forall (λ pkt, fwd_event pkt = event ∧ fwd_payload pkt = p) pkts
      ∧ length pkts = length (elements (members st room ∖ {[client]})).
Proof.
  intros pkts. subst pkts. unfold on_file_event. split.
  - intros Hblank. destruct payload as [p |]; [| done].
    destruct (roomId_of p) as [| | b | z | room |] eqn:Hroom; try done.
    rewrite decide_True; [done |]. apply trim_nil_iff. by apply (Hblank p).
  - intros p room -> -> Hroom. rewrite decide_False by (by rewrite trim_nil_iff).
    pose proof (NoDup_elements (members st room ∖ {[client]})) as Hnodup.
    set (mk := λ peer, {| fwd_to := peer; fwd_event := event; fwd_payload := p |}).
    split; [| split; [| split]].
    + intros peer Hpeer Hne. rewrite (count_to_fmap mk fwd_to) by done.
      by rewrite decide_True by (by rewrite peers_of_room).
    + intros who Hwho. rewrite (count_to_fmap mk fwd_to) by done.
      rewrite decide_False; [done |]. rewrite peers_of_room.
      intros [Hin Hne]. by destruct Hwho.
    + apply Forall_fmap, Forall_forall. done.
    + by rewrite length_fmap.
Qed.

Lemma X14_forward_to_other_members_witness :
  let joined := (on_room_join socket_B (js_str demo_room) demo_relay).1 in
  let payload := {| demo_roomId := js_str demo_room; demo_body := 7 |} in
  let pkts := on_file_event demo_roomId ev_file_chunk socket_B (Some payload) joined in
  on_file_event demo_roomId ev_file_chunk socket_B
    (Some {| demo_roomId := js_number 3; demo_body := 7 |}) joined = []
  ∧ length (filter (λ pkt, fwd_to pkt = socket_A) pkts) = 1%nat
  ∧ length (filter (λ pkt, fwd_to pkt = socket_B) pkts) = 0%nat
  ∧ Forall (λ pkt, fwd_event pkt = ev_file_chunk ∧ fwd_payload pkt = payload) pkts.
Proof.
  intros joined payload.
  split.
  - apply (X14_forward_to_other_members demo_roomId ev_file_chunk socket_B
             (Some {| demo_roomId := js_number 3; demo_body := 7 |}) joined).
    intros p room [= <-] Hroom. discriminate Hroom.
  - destruct (X14_forward_to_other_members demo_roomId ev_file_chunk socket_B
                (Some payload) joined) as [_ Hforward].
    destruct (Hforward payload demo_room eq_refl eq_refl) as (Hpeers & Hothers & Hsame & _).
    { intros H. inversion H. discriminate. }
    split; [| split; [apply Hothers; by left | exact Hsame]].
    apply Hpeers; [| discriminate].
    apply (bool_decide_unpack _). vm_compute. exact I.
Defined.

Lemma members_leave_all (client room : list N) (st : Relay) :
  members (socket_leave_all client st) room = members st room ∖ {[client]}.
Proof.
  unfold members, socket_leave_all. cbn [rooms]. rewrite lookup_omap.
  destruct (rooms st !! room) as [sockets |]; cbn [default from_option id mbind option_bind].
  - destruct (decide (client ∈ sockets)) as [Hin | Hout].
    + destruct (decide (sockets ∖ {[client]} = ∅)) as [-> | _]; done.
    + cbn. apply leibniz_equiv. intros x.
      rewrite elem_of_difference, elem_of_singleton. split; [| by intros [? _]].
      intros Hx. split; [done |]. by intros ->.
  - apply leibniz_equiv. intros x. rewrite elem_of_difference.
    split; [by intros ?%elem_of_empty | by intros [?%elem_of_empty _]].
Qed.

Lemma rooms_of_spec (client room : list N) (st : Relay) :
  room ∈ rooms_of client st ↔ ∃ sockets, rooms st !! room = Some sockets ∧ client ∈ sockets.
Proof.
  unfold rooms_of. rewrite list_elem_of_fmap. split.
  - intros ([room' sockets] & -> & Hentry). apply elem_of_map_to_list in Hentry.
    apply map_lookup_filter_Some in Hentry as [Hlookup Hin]. by exists sockets.
  - intros (sockets & Hlookup & Hin). exists (room, sockets). split; [done |].
    apply elem_of_map_to_list. by apply map_lookup_filter_Some.
Qed.

Lemma rooms_of_left_all (client : list N) (st : Relay) :
  rooms_of client (socket_leave_all client st) = [].
Proof.
  destruct (rooms_of client (socket_leave_all client st)) as [| room others] eqn:Hrooms;
    [done |].
  assert (Hin : room ∈ rooms_of client (socket_leave_all client st)).
  { rewrite Hrooms. by left. }
  apply rooms_of_spec in Hin as (sockets & Hlookup & Hin).
  assert (Hmem : client ∈ members (socket_leave_all client st) room).
  { unfold members. by rewrite Hlookup. }
  rewrite members_leave_all, elem_of_difference, elem_of_singleton in Hmem. by destruct Hmem.
Qed.

(** X15. A socket that disconnects is taken out of every room by socket.io
    before ["disconnect"] fires, so when the relay's listener runs
    [client.rooms] is empty: the listener sends nothing, and no peer is told
    that the socket has gone (a [peer:left] is sent on [room:leave] only).
    The members of every room afterwards are its members without the socket,
    and a table that held no empty room holds none afterwards. *)
Theorem X15_disconnect_sends_nothing (client : list N) (st : Relay) :
  let st' := (socket_disconnect client st).1 in
  let pkts := (socket_disconnect client st).2 in
  rooms_of client st' = []
  ∧ pkts = []
  ∧ (∀ room, members st' room = members st room ∖ {[client]})
  ∧ (no_empty_rooms st → no_empty_rooms st').
Proof.
  intros st' pkts. subst st' pkts. unfold socket_disconnect. cbn [fst snd].
  split; [apply rooms_of_left_all |]. split; [by rewrite rooms_of_left_all |].
  split; [intros room; apply members_leave_all |].
  intros Hst room. unfold socket_leave_all. cbn [rooms]. rewrite lookup_omap.
  destruct (rooms st !! room) as [sockets |] eqn:Hroom; [| done].
  cbn [mbind option_bind]. destruct (decide (client ∈ sockets)) as [Hin | Hout].
  - destruct (decide (sockets ∖ {[client]} = ∅)) as [_ | Hne]; [done |].
    intros Heq. by apply (inj Some) in Heq.
  - rewrite <- Hroom. apply Hst.
Qed.

Lemma X15_disconnect_sends_nothing_witness :
  let joined := (on_room_join socket_B (js_str demo_room) demo_relay).1 in
  (socket_disconnect socket_B joined).2 = []
  ∧ members (socket_disconnect socket_B joined).1 demo_room
    = members joined demo_room ∖ {[socket_B]}
  ∧ no_empty_rooms (socket_disconnect socket_B joined).1.
Proof.
  intros joined.
  destruct (X15_disconnect_sends_nothing socket_B joined) as (_ & Hnothing & Hmembers & Hkept).
  split; [exact Hnothing |]. split; [apply Hmembers |].
  apply Hkept. apply socket_join_no_empty, demo_relay_no_empty.
Defined.

(** ** Connecting *)

Lemma trimStart_fixed (s : list N) :
  (∀ c, head s = Some c → is_js_whitespace c = false) → trimStart s = s.
Proof.
  destruct s as [| c s]; [done |]. intros H. cbn [trimStart].
  by rewrite (H c eq_refl).
Qed.

Lemma trimStart_head_not_ws (s : list N) (c : N) :
  head (trimStart s) = Some c → is_js_whitespace c = false.
Proof.
  destruct (trimStart s) as [| d s'] eqn:Hs; [done |].
  intros [= <-]. by apply trimStart_head in Hs.
Qed.

(** A string is left alone by [trim] exactly when neither end is white
    space. *)
Lemma trim_fixed (s : list N) :
  (∀ c, head s = Some c → is_js_whitespace c = false) →
  (∀ c, last s = Some c → is_js_whitespace c = false) →
  trim s = s.
Proof.
  intros Hhead Hlast. unfold trim. rewrite (trimStart_fixed s) by done.
  rewrite trimStart_fixed; [by rewrite reverse_involutive |].
  intros c. rewrite head_reverse. apply Hlast.
Qed.

Lemma trim_ends (s : list N) :
  (∀ c, head (trim s) = Some c → is_js_whitespace c = false)
  ∧ (∀ c, last (trim s) = Some c → is_js_whitespace c = false).
Proof.
  unfold trim. split; intros c.
  - destruct (trimStart_suffix (reverse (trimStart s))) as [ws Hws].
    set (inner := trimStart (reverse (trimStart s))) in *.
    destruct (decide (inner = [])) as [-> | Hne]; [done |].
    assert (Hrev : trimStart s = reverse inner ++ reverse ws).
    { by rewrite <- reverse_app, <- Hws, reverse_involutive. }
    intros Hc. apply (trimStart_head_not_ws s).
    rewrite Hrev. destruct (reverse inner) as [| d r] eqn:Hr; [| done].
    apply (f_equal reverse) in Hr. rewrite reverse_involutive in Hr. done.
  - rewrite last_reverse. apply trimStart_head_not_ws.
Qed.

Lemma trim_idemp (s : list N) : trim (trim s) = trim s.
Proof. apply trim_fixed; apply trim_ends. Qed.

Lemma startsWith_app (prefix s : list N) : startsWith prefix (prefix ++ s) = true.
Proof. unfold startsWith. apply bool_decide_eq_true. by apply prefix_app_r. Qed.

Lemma last_app_ne {A : Type} (l1 l2 : list A) : l2 ≠ [] → last (l1 ++ l2) = last l2.
Proof.
  intros Hne. destruct l2 as [| x l2 _] using rev_ind; [done |].
  by rewrite app_assoc, !last_snoc.
Qed.

(** X16. The server the component connects to.  A blank address (empty or
    white space only) gives the page's own origin.  Any other address gives
    a URL that is the trimmed address itself when that starts with [http://]
    or [https://], and the trimmed address after [http://] otherwise; the
    URL always starts with one of the two schemes and has no white space at
    either end, so the second [trim], in [connectFileShareSocket], changes
    nothing, and [ensureEndpoint] gives the URL back when it is applied to
    it. *)
Theorem X16_connect_target (raw : list N) :
  let target := connectFileShareSocket (ensureEndpoint raw) in
  let http := code_units "http://" in
  let https := code_units "https://" in
  (Forall (λ c, is_js_whitespace c = true) raw →
     ensureEndpoint raw = None ∧ target = io_same_origin)
  ∧ (¬ Forall (λ c, is_js_whitespace c = true) raw →
     ∃ url, ensureEndpoint raw = Some url ∧ target = io_url url
       ∧ url = (if startsWith http (trim raw) || startsWith https (trim raw)
                then trim raw else http ++ trim raw)
       ∧ startsWith http url || startsWith https url = true
       ∧ trim url = url
       ∧ ensureEndpoint url = Some url).
Proof.
  intros target http https. subst target. unfold ensureEndpoint. split.
  - intros Hblank. apply trim_nil_iff in Hblank. by rewrite decide_True.
  - intros Hraw. rewrite <- trim_nil_iff in Hraw. rewrite decide_False by done.
    fold http https.
    set (url := if startsWith http (trim raw) || startsWith https (trim raw)
                then trim raw else http ++ trim raw).
    assert (Hscheme : startsWith http url || startsWith https url = true).
    { subst url. destruct (startsWith http (trim raw) || startsWith https (trim raw)) eqn:Hs;
        [done |]. by rewrite startsWith_app. }
    assert (Hne : url ≠ []).
    { subst url. destruct (startsWith http (trim raw) || startsWith https (trim raw));
        [done |]. discriminate. }
    assert (Htrim : trim url = url).
    { subst url. destruct (startsWith http (trim raw) || startsWith https (trim raw)).
      - apply trim_idemp.
      - apply trim_fixed.
        + intros c [= <-]. done.
        + intros c. rewrite last_app_ne by done. apply trim_ends. }
    exists url. split; [by destruct (startsWith http (trim raw) || startsWith https (trim raw)) |].
    split.
    { replace (if startsWith http (trim raw) || startsWith https (trim raw)
               then Some (trim raw) else Some (http ++ trim raw)) with (Some url)
        by (subst url; by destruct (startsWith http (trim raw) || startsWith https (trim raw))).
      unfold connectFileShareSocket. rewrite Htrim.
      by rewrite bool_decide_eq_true_2 by done. }
    split; [done |]. split; [done |]. split; [done |].
    rewrite Htrim, decide_False by done. by rewrite Hscheme.
Qed.

(** X17. The client and the relay agree on room identifiers.  When the
    identifier typed is blank or white space only, [handleConnect] refuses
    and asks for one.  Otherwise it connects and the [room:join] it sends
    carries the identifier without the white space around it; the relay
    always accepts this request: the client becomes a member of the room of
    that name and gets exactly one [room:joined]. *)
Theorem X17_join_request_accepted (ipAddress roomId client : list N) (st : Relay) :
  (Forall (λ c, is_js_whitespace c = true) roomId →
     Connect.handleConnect ipAddress roomId = Connect.connect_refused Connect.msg_room_required)
  ∧ (¬ Forall (λ c, is_js_whitespace c = true) roomId →
     let room := trim roomId in
     Connect.handleConnect ipAddress roomId
     = Connect.connect_started (connectFileShareSocket (ensureEndpoint ipAddress)) (js_str room)
     ∧ (on_room_join client (js_str room) st).1 = socket_join client room st
     ∧ client ∈ members (on_room_join client (js_str room) st).1 room
     ∧ received client room_joined (on_room_join client (js_str room) st).2 = 1%nat).
Proof.
  unfold Connect.handleConnect, Connect.canConnect, Connect.effectiveRoomId. split.
  - intros Hblank. apply trim_nil_iff in Hblank. rewrite Hblank.
    by rewrite bool_decide_eq_false_2 by (cbn; lia).
  - intros Hroom. rewrite <- trim_nil_iff in Hroom. cbv zeta.
    set (room := trim roomId) in *.
    rewrite bool_decide_eq_true_2 by (destruct room; [done | cbn; lia]).
    split; [done |]. unfold on_room_join.
    rewrite decide_False by (unfold room; by rewrite trim_idemp). cbn [fst snd].
    split; [done |]. split.
    + rewrite members_socket_join, decide_True by done.
      apply elem_of_union_l. by apply elem_of_singleton.
    + unfold socket_emit, socket_to_emit.
      rewrite (received_app _ _ [_]), received_broadcast by apply NoDup_elements.
      rewrite decide_False by (intros [_ ?]; done).
      unfold received. by rewrite filter_cons_True.
Qed.

Lemma X17_join_request_accepted_witness :
  Connect.handleConnect demo_ip (code_units "   ") = Connect.connect_refused Connect.msg_room_required
  ∧ Connect.handleConnect demo_ip demo_typed_room
    = Connect.connect_started (io_url (code_units "http://192.168.1.7:3000"))
        (js_str (code_units "ab12"))
  ∧ socket_B ∈ members (on_room_join socket_B (js_str (code_units "ab12")) demo_relay).1
                 (code_units "ab12").
Proof.
  destruct (X17_join_request_accepted demo_ip (code_units "   ") socket_B demo_relay)
    as [Hrefused _].
  destruct (X17_join_request_accepted demo_ip demo_typed_room socket_B demo_relay)
    as [_ Hjoin].
  split; [apply Hrefused; repeat constructor |].
  destruct Hjoin as (Hstart & _ & Hmember & _).
  { intros H. inversion H as [| ? ? _ H']. inversion H' as [| ? ? _ H'']. 
    inversion H'' as [| ? ? Hc _]. discriminate Hc. }
  split; [exact Hstart | exact Hmember].
Defined.

Lemma X16_connect_target_witness :
  connectFileShareSocket (ensureEndpoint (code_units "  ")) = io_same_origin
  ∧ connectFileShareSocket (ensureEndpoint demo_ip)
    = io_url (code_units "http://192.168.1.7:3000").
Proof.
  split.
  - apply (X16_connect_target (code_units "  ")). repeat constructor.
  - destruct (X16_connect_target demo_ip) as [_ Hurl].
    destruct Hurl as (url & _ & -> & -> & _); [| reflexivity].
    intros H. inversion H as [| ? ? _ H']. inversion H' as [| ? ? Hc _]. discriminate Hc.
Defined.

(** ** Identifiers *)

Lemma byte_hex_digits (b : byte) :
  byte_hex b = [hex_digit (Byte.to_N b / 16); hex_digit (Byte.to_N b mod 16)].
Proof. by destruct b. Qed.

Lemma byte_hex_is_hex (b : byte) : Forall (λ c, is_hex_char c = true) (byte_hex b).
Proof. destruct b; repeat constructor. Qed.

Lemma byte_hex_not_ws (b : byte) : Forall (λ c, is_js_whitespace c = false) (byte_hex b).
Proof. destruct b; repeat constructor. Qed.

Lemma parse_byte_hex (b : byte) (s : list N) :
  parse_hex_bytes (byte_hex b ++ s) = rest ← parse_hex_bytes s; Some (b :: rest).
Proof. by destruct b. Qed.

Lemma generated_cons (b : byte) (buffer : list byte) :
  mjoin (byte_hex <$> b :: buffer) = byte_hex b ++ mjoin (byte_hex <$> buffer).
Proof. done. Qed.

Lemma parse_generated (buffer : list byte) :
  parse_hex_bytes (mjoin (byte_hex <$> buffer)) = Some buffer.
Proof.
  induction buffer as [| b buffer IH]; [done |].
  by rewrite generated_cons, parse_byte_hex, IH.
Qed.

Lemma generated_length (buffer : list byte) :
  length (mjoin (byte_hex <$> buffer)) = (2 * length buffer)%nat.
Proof.
  induction buffer as [| b buffer IH]; [done |].
  rewrite generated_cons, length_app, IH, byte_hex_digits.
  cbn [length]. lia.
Qed.

Lemma generated_Forall (P : N → Prop) (buffer : list byte) :
  (∀ b, Forall P (byte_hex b)) → Forall P (mjoin (byte_hex <$> buffer)).
Proof.
  intros HP. induction buffer as [| b buffer IH]; [constructor |].
  rewrite generated_cons. apply Forall_app. by split.
Qed.

(** X18. An identifier made by [generateHexId] has two characters for each
    byte drawn, all of them among 0-9 and a-f, and names the bytes it was
    made of: reading it back gives the bytes, so two draws give the same
    identifier only when they agree on every byte. *)
Theorem X18_generateHexId_names_its_bytes (byteLength : nat) (random : nat → byte) :
  let id := generateHexId byteLength random in
  length id = (2 * byteLength)%nat
  ∧ Forall (λ c, is_hex_char c = true) id
  ∧ parse_hex_bytes id = Some (random <$> seq 0 byteLength)
  ∧ ∀ random', generateHexId byteLength random' = id →
      ∀ i, (i < byteLength)%nat → random' i = random i.
Proof.
  intros id. subst id. unfold generateHexId. cbv zeta.
  split; [by rewrite generated_length, length_fmap, length_seq |].
  split; [apply generated_Forall, byte_hex_is_hex |].
  split; [apply parse_generated |].
  intros random' Heq i Hi. apply (f_equal parse_hex_bytes) in Heq.
  rewrite !parse_generated in Heq. apply (inj Some) in Heq.
  apply (f_equal (λ l, l !! i)) in Heq.
  rewrite !list_lookup_fmap, !lookup_seq_lt in Heq by done.
  cbn in Heq. by apply (inj Some) in Heq.
Qed.

(** X19. A room identifier made by [generateRoomId] has eight characters,
    none of them white space, so [handleConnect] never refuses it and sends
    it as it is, and the relay accepts the request: the client joins the
    room named by the identifier. *)
Theorem X19_generated_room_is_joined (random : nat → byte) (ipAddress client : list N)
    (st : Relay) :
  let id := generateRoomId random in
  length id = 8%nat
  ∧ Connect.effectiveRoomId id = id
  ∧ Connect.handleConnect ipAddress id
    = Connect.connect_started (connectFileShareSocket (ensureEndpoint ipAddress)) (js_str id)
  ∧ (on_room_join client (js_str id) st).1 = socket_join client id st.
Proof.
  intros id.
  assert (Hlen : length id = 8%nat).
  { subst id. unfold generateRoomId, generateHexId. cbv zeta.
    by rewrite generated_length, length_fmap, length_seq. }
  assert (Hchars : Forall (λ c, is_js_whitespace c = false) id).
  { subst id. unfold generateRoomId, generateHexId. cbv zeta.
    apply generated_Forall, byte_hex_not_ws. }
  assert (Htrim : trim id = id).
  { apply trim_fixed; intros c Hc.
    - apply head_Some_elem_of in Hc.
      by apply (proj1 (Forall_forall _ _) Hchars).
    - apply last_Some_elem_of in Hc.
      by apply (proj1 (Forall_forall _ _) Hchars). }
  assert (Hne : id ≠ []) by (intros Hnil; by rewrite Hnil in Hlen).
  split; [done |]. split; [done |].
  unfold Connect.handleConnect, Connect.canConnect, Connect.effectiveRoomId.
  rewrite Htrim. rewrite bool_decide_eq_true_2 by lia.
  split; [done |]. unfold on_room_join.
  by rewrite Htrim, decide_False by done.
Qed.

(** ** Resetting *)

Lemma elem_of_revoke_listed (u : N) (live : gset N) (items : list IncomingTransfer) :
  u ∈ revoke_listed live items
  ↔ u ∈ live ∧ ∀ t, t ∈ items → downloadUrl t ≠ Some u.
Proof.
  unfold revoke_listed. revert live.
  induction items as [| item items IH]; intros live; cbn [foldl].
  - split; [| by intros [? _]]. intros Hu. split; [done |].
    intros t Ht. by apply elem_of_nil in Ht.
  - rewrite IH. destruct (downloadUrl item) as [url |] eqn:Hurl.
    + rewrite elem_of_difference, elem_of_singleton. split.
      * intros [[Hu Hne] Hrest]. split; [done |].
        intros t [-> | Ht]%elem_of_cons; [congruence | by apply Hrest].
      * intros [Hu Hall]. split; [split; [done |] |].
        -- intros ->. by apply (Hall item); [left |].
        -- intros t Ht. apply Hall. by right.
    + split.
      * intros [Hu Hrest]. split; [done |].
        intros t [-> | Ht]%elem_of_cons; [congruence | by apply Hrest].
      * intros [Hu Hall]. split; [done |]. intros t Ht. apply Hall. by right.
Qed.

Lemma urls_owned_mono (st0 : Receiver) (msgs : list Message) (msg : Message)
    (st : Receiver) :
  urls_owned st0 msgs st → urls_owned st0 (msgs ++ [msg]) st.
Proof.
  intros (Howned & Hkept & Hnew & Hnext & Hold & Hann & Hnone).
  do 5 (split; [done |]). split; [| done].
  intros t Ht. by apply announced_mono, Hann.
Qed.

Lemma urls_owned_receive (st0 : Receiver) (msgs : list Message) (msg : Message)
    (st : Receiver) :
  NoDup (announced (msgs ++ [msg])) → buffers_in_flight st →
  urls_owned st0 msgs st → urls_owned st0 (msgs ++ [msg]) (receive msg st).
Proof.
  rewrite announced_snoc. intros Hnodup [Hflight Hentry] Hst.
  pose proof (urls_owned_mono st0 msgs msg st Hst) as Hsame.
  destruct Hst as (Howned & Hkept & Hnew & Hnext & Hold & Hann & Hnone).
  destruct msg as [room m | room tid idx chunk | room tid | room tid message];
    cbn [receive]; rewrite ?app_nil_r in Hnodup.
  - apply NoDup_app in Hnodup as (_ & Hfresh & _).
    unfold on_file_meta. destruct (new_Array (totalChunks m)) as [slots |]; [| done].
    assert (Hkeep : filter (λ item, transferId (meta item) ≠ transferId m)
                      (incomingFiles st) = incomingFiles st).
    { apply filter_all_Forall, Forall_forall. intros t Ht Heq.
      apply (Hfresh (transferId m)); [| by left].
      rewrite <- Heq. by apply Hann. }
    rewrite Hkeep. unfold urls_owned. cbn [incomingFiles downloadUrls nextUrl].
    split; [| split; [done |]; split; [| split; [done |]; split; [done |]; split]].
    + intros u Hu. destruct (Howned u Hu) as [Hstart | (t & Ht & Hurl)]; [by left |].
      right. exists t. split; [apply elem_of_app; by left | done].
    + intros t u [Ht | ->%list_elem_of_singleton]%elem_of_app; [by apply Hnew | done].
    + intros t [Ht | ->%list_elem_of_singleton]%elem_of_app.
      * by apply announced_mono, Hann.
      * rewrite announced_snoc. apply elem_of_app. right. by left.
    + intros t [Ht | ->%list_elem_of_singleton]%elem_of_app; [by apply Hnone | done].
  - unfold on_file_chunk. destruct (incomingBuffers st !! tid) as [buffers |] eqn:Hbuf;
      [| done].
    assert (Hfields : ∀ t, transferId (meta (chunk_update tid chunk t)) = transferId (meta t)
                           ∧ downloadUrl (chunk_update tid chunk t) = downloadUrl t).
    { intros t. unfold chunk_update. by case_decide. }
    unfold urls_owned. cbn [incomingFiles downloadUrls nextUrl].
    split; [| split; [done |]; split; [| split; [done |]; split; [done |]; split]].
    + intros u Hu. destruct (Howned u Hu) as [Hstart | (t & Ht & Hurl)]; [by left |].
      right. exists (chunk_update tid chunk t). split; [by apply list_elem_of_fmap_2 |].
      by rewrite (proj2 (Hfields t)).
    + intros t' u (t & -> & Ht)%list_elem_of_fmap. rewrite (proj2 (Hfields t)).
      by apply Hnew.
    + intros t' (t & -> & Ht)%list_elem_of_fmap.
      rewrite (proj1 (Hfields t)). by apply announced_mono, Hann.
    + intros t' (t & -> & Ht)%list_elem_of_fmap Hstatus.
      rewrite (proj2 (Hfields t)). apply Hnone; [done |].
      unfold chunk_update in Hstatus.
      destruct (decide (transferId (meta t) ≠ tid)) as [Hne | Heq]; [done |].
      apply dec_stable in Heq. apply Hflight; [done |]. rewrite Heq, Hbuf. by eexists.
  - unfold on_file_complete. destruct (incomingBuffers st !! tid) as [buffers |] eqn:Hbuf;
      [| done].
    destruct (Hentry tid) as (owner & Howner & Htid); [by eexists |].
    unfold urls_owned. cbn [incomingFiles downloadUrls nextUrl].
    split; [| split; [| split; [| split; [| split; [| split]]]]].
    + intros u [->%elem_of_singleton | Hu]%elem_of_union.
      * right.
        exists (complete_update tid (nextUrl st) (new_Blob (filter_Boolean buffers)) owner).
        split; [by apply list_elem_of_fmap_2 |].
        unfold complete_update. by rewrite decide_True.
      * destruct (Howned u Hu) as [Hstart | (t & Ht & Hurl)]; [by left |]. right.
        exists (complete_update tid (nextUrl st) (new_Blob (filter_Boolean buffers)) t).
        split; [by apply list_elem_of_fmap_2 |].
        unfold complete_update. case_decide as Heq; [| done].
        rewrite Hnone in Hurl; [done | done |].
        apply Hflight; [done |]. rewrite Heq, Hbuf. by eexists.
    + intros u Hu. apply elem_of_union. right. by apply Hkept.
    + intros t' u (t & -> & Ht)%list_elem_of_fmap.
      unfold complete_update. case_decide; cbn [downloadUrl]; [| by apply Hnew].
      intros [= <-]. done.
    + lia.
    + intros u [->%elem_of_singleton | Hu]%elem_of_union; [lia |].
      pose proof (Hold u Hu). lia.
    + intros t' (t & -> & Ht)%list_elem_of_fmap.
      unfold complete_update. case_decide; cbn [meta]; by apply announced_mono, Hann.
    + intros t' (t & -> & Ht)%list_elem_of_fmap.
      unfold complete_update. case_decide; cbn [status downloadUrl].
      * by intros [? | ?].
      * by apply Hnone.
  - unfold on_file_error, urls_owned. cbn [incomingFiles downloadUrls nextUrl].
    split; [| split; [done |]; split; [| split; [done |]; split; [done |]; split]].
    + intros u Hu. destruct (Howned u Hu) as [Hstart | (t & Ht & Hurl)]; [by left |].
      right. exists (error_update tid message t). split; [by apply list_elem_of_fmap_2 |].
      unfold error_update. by case_decide.
    + intros t' u (t & -> & Ht)%list_elem_of_fmap.
      unfold error_update. case_decide; cbn [downloadUrl]; by apply Hnew.
    + intros t' (t & -> & Ht)%list_elem_of_fmap.
      unfold error_update. case_decide; cbn [meta]; by apply announced_mono, Hann.
    + intros t' (t & -> & Ht)%list_elem_of_fmap.
      unfold error_update. case_decide; cbn [status downloadUrl].
      * by intros [? | ?].
      * by apply Hnone.
Qed.

Lemma receive_all_snoc (msgs : list Message) (msg : Message) (st : Receiver) :
  receive_all (msgs ++ [msg]) st = receive msg (receive_all msgs st).
Proof. by rewrite receive_all_app. Qed.

Lemma reachable_receive_all (msgs : list Message) (st : Receiver) :
  reachable st → reachable (receive_all msgs st).
Proof.
  revert st. induction msgs as [| msg msgs IH]; intros st Hst; [done |].
  rewrite receive_all_cons. by apply IH, reachable_receive.
Qed.

Lemma session_buffers_in_flight (st0 : Receiver) (msgs : list Message) :
  session_start st0 → buffers_in_flight (receive_all msgs st0).
Proof.
  intros (Hfiles & Hbuffers & _).
  induction msgs as [| msg msgs IH] using rev_ind.
  - split; cbn [receive_all foldl].
    + intros t Ht. rewrite Hfiles in Ht. by apply elem_of_nil in Ht.
    + intros tid [x Hx]. by rewrite Hbuffers, lookup_empty in Hx.
  - rewrite receive_all_snoc. by apply buffers_in_flight_receive.
Qed.

Lemma urls_owned_receive_all (st0 : Receiver) (msgs : list Message) :
  session_start st0 → NoDup (announced msgs) →
  urls_owned st0 msgs (receive_all msgs st0).
Proof.
  intros Hstart. induction msgs as [| msg msgs IH] using rev_ind; intros Hnodup.
  - destruct Hstart as (Hfiles & _ & Hold). unfold urls_owned. cbn [receive_all foldl].
    rewrite Hfiles. split; [by left |]. split; [done |].
    split; [by intros t u ?%elem_of_nil |]. split; [lia |]. split; [done |].
    split; by intros t ?%elem_of_nil.
  - rewrite receive_all_snoc. apply urls_owned_receive; [done | |].
    + by apply session_buffers_in_flight.
    + apply IH. rewrite announced_snoc in Hnodup. by apply NoDup_app in Hnodup as [? _].
Qed.

(** X20. [resetTransfers] empties the list of incoming transfers and the
    slot buffers and revokes the object URL of every listed transfer,
    whatever the state; it does not clear the set of live URLs.  In a
    session (from the mount of the component or a reset to the next reset) in
    which no two [file:meta] messages announced the same transfer
    identifier, the URLs live after the reset are exactly those that were
    live when the session started, none when it started without any as the
    first one does, and the state is again one a session starts from. *)
Theorem X20_reset_releases_urls (st0 : Receiver) (msgs : list Message) :
  session_start st0 → NoDup (announced msgs) →
  let st := resetTransfers (receive_all msgs st0) in
  (∀ any t u, t ∈ incomingFiles any → downloadUrl t = Some u →
     u ∉ downloadUrls (resetTransfers any))
  ∧ incomingFiles st = [] ∧ incomingBuffers st = ∅
  ∧ downloadUrls st = downloadUrls st0
  ∧ session_start st
  ∧ session_start empty_receiver.
Proof.
  intros Hstart Hnodup st. subst st.
  destruct (urls_owned_receive_all st0 msgs Hstart Hnodup)
    as (Howned & Hkept & Hnew & Hnext & Hold & _ & _).
  assert (Hlive : ∀ u, u ∈ downloadUrls (resetTransfers (receive_all msgs st0))
                       ↔ u ∈ downloadUrls st0).
  { intros u. cbn [resetTransfers downloadUrls]. rewrite elem_of_revoke_listed. split.
    - intros [Hu Hfree]. destruct (Howned u Hu) as [Hu0 | (t & Ht & Hurl)]; [done |].
      by destruct (Hfree t Ht).
    - intros Hu. split; [by apply Hkept |]. intros t Ht Hurl.
      destruct Hstart as (_ & _ & Hold0). pose proof (Hold0 u Hu).
      pose proof (Hnew t u Ht Hurl). lia. }
  split.
  { intros any t u Ht Hurl. cbn [resetTransfers downloadUrls].
    rewrite elem_of_revoke_listed. intros [_ Hfree]. by apply (Hfree t). }
  split; [done |]. split; [done |]. split; [by apply leibniz_equiv |].
  split.
  - split; [done |]. split; [done |]. intros u Hu. cbn [resetTransfers nextUrl].
    apply Hlive in Hu. apply Hkept in Hu. by apply Hold.
  - split; [done |]. split; [done |]. by intros u ?%elem_of_empty.
Qed.

Lemma X20_reset_releases_urls_witness :
  downloadUrls (receive_all demo_delivered demo_restart) ≠ downloadUrls demo_restart
  ∧ downloadUrls (resetTransfers (receive_all demo_delivered demo_restart)) = {[ 0%N ]}
  ∧ downloadUrls (resetTransfers (receive_all demo_delivered empty_receiver)) = ∅.
Proof.
  split; [by vm_compute |]. split.
  - apply (X20_reset_releases_urls demo_restart demo_delivered).
    + split; [done |]. split; [done |]. intros u Hu.
      change (u ∈ ({[ 0%N ]} : gset N)) in Hu. apply elem_of_singleton in Hu as ->.
      reflexivity.
    + apply (bool_decide_unpack _). vm_compute. exact I.
  - apply (X20_reset_releases_urls empty_receiver demo_delivered).
    + split; [done |]. split; [done |]. by intros u ?%elem_of_empty.
    + apply (bool_decide_unpack _). vm_compute. exact I.
Defined.





(** ** The notepad's list of notes *)

Section unique_by_id.
Context {T : Type} (id_of : T → string).

Lemma uniqueById_loop_first (items : list T) (seen : gset string) (unique : list T) :
  Notepad.uniqueById_loop id_of items seen unique
  = unique ++ Notepad.first_by_id id_of seen items.
Proof.
  revert seen unique. induction items as [| item rest IH]; intros seen unique; cbn.
  - by rewrite app_nil_r.
  - case_decide; [apply IH |]. by rewrite IH, <- app_assoc.
Qed.

Lemma uniqueById_first (items : list T) :
  Notepad.uniqueById id_of items = Notepad.first_by_id id_of ∅ items.
Proof. unfold Notepad.uniqueById. by rewrite uniqueById_loop_first. Qed.

Lemma first_by_id_fresh (seen : gset string) (items : list T) (x : T) :
  x ∈ Notepad.first_by_id id_of seen items → x ∈ items ∧ id_of x ∉ seen.
Proof.
  revert seen. induction items as [| item rest IH]; intros seen; cbn.
  - by intros ?%elem_of_nil.
  - case_decide as Hseen.
    + intros [Hx Hfresh]%IH. split; [by right | done].
    + intros [-> | [Hx Hfresh]%IH]%elem_of_cons; [split; [by left | done] |].
      split; [by right |]. intros Hin. apply Hfresh, elem_of_union. by right.
Qed.

Lemma first_by_id_NoDup (seen : gset string) (items : list T) :
  NoDup (id_of <$> Notepad.first_by_id id_of seen items).
Proof.
  revert seen. induction items as [| item rest IH]; intros seen; cbn.
  - constructor.
  - case_decide as Hseen; [apply IH |]. rewrite fmap_cons. constructor; [| apply IH].
    intros (x & Heq & Hx)%list_elem_of_fmap. apply first_by_id_fresh in Hx as [_ Hx].
    apply Hx, elem_of_union. left. by apply elem_of_singleton.
Qed.

Lemma first_by_id_sublist (seen : gset string) (items : list T) :
  sublist (Notepad.first_by_id id_of seen items) items.
Proof.
  revert seen. induction items as [| item rest IH]; intros seen; cbn.
  - constructor.
  - case_decide; [by apply sublist_cons | by apply sublist_skip].
Qed.

Lemma first_by_id_head (seen : gset string) (items : list T) (k : string) :
  k ∉ seen →
  head (filter (λ item, id_of item = k) (Notepad.first_by_id id_of seen items))
  = head (filter (λ item, id_of item = k) items).
Proof.
  revert seen. induction items as [| item rest IH]; intros seen Hk;
    cbn [Notepad.first_by_id]; [done |].
  case_decide as Hseen.
  - rewrite filter_cons_False by (intros <-; done). by apply IH.
  - destruct (decide (id_of item = k)) as [Heq | Hne].
    + by rewrite !filter_cons_True.
    + rewrite !filter_cons_False by done. apply IH.
      rewrite elem_of_union, elem_of_singleton. intros [Heq | Hin]; [by apply Hne | done].
Qed.

Lemma first_by_id_distinct (seen : gset string) (items : list T) :
  NoDup (id_of <$> items) → (∀ x, x ∈ items → id_of x ∉ seen) →
  Notepad.first_by_id id_of seen items = items.
Proof.
  revert seen. induction items as [| item rest IH]; intros seen Hnodup Hfresh; cbn; [done |].
  rewrite fmap_cons in Hnodup. apply NoDup_cons in Hnodup as [Hitem Hrest].
  rewrite decide_False by (apply Hfresh; by left). f_equal. apply IH; [done |].
  intros x Hx. rewrite elem_of_union, elem_of_singleton. intros [Heq | Hin].
  - apply Hitem. rewrite <- Heq. by apply list_elem_of_fmap_2.
  - by apply (Hfresh x); [right |].
Qed.

End unique_by_id.

(** X22. [uniqueById] keeps, for every identifier, the first item that has
    it and nothing else: the result has pairwise distinct identifiers, its
    items are items of the argument in their order, and for each identifier
    the first item with it is the same in the result and in the argument (so
    no identifier is lost).  A list whose identifiers are distinct is left
    as it is; applying [uniqueById] twice is applying it once. *)
Theorem X22_uniqueById_keeps_first {T : Type} (id_of : T → string) (items : list T) :
  let unique := Notepad.uniqueById id_of items in
  NoDup (id_of <$> unique)
  ∧ sublist unique items
  ∧ (∀ k, head (filter (λ item, id_of item = k) unique)
          = head (filter (λ item, id_of item = k) items))
  ∧ (NoDup (id_of <$> items) → unique = items)
  ∧ Notepad.uniqueById id_of unique = unique.
Proof.
  intros unique. subst unique. rewrite !uniqueById_first.
  split; [apply first_by_id_NoDup |]. split; [apply first_by_id_sublist |].
  split; [intros k; apply first_by_id_head; by apply not_elem_of_empty |].
  split.
  - intros Hnodup. apply first_by_id_distinct; [done |].
    intros x _. by apply not_elem_of_empty.
  - apply first_by_id_distinct; [apply first_by_id_NoDup |].
    intros x _. by apply not_elem_of_empty.
Qed.

Lemma X22_uniqueById_keeps_first_witness :
  Notepad.uniqueById Notepad.note_id
    [Notepad.demo_note "n1" "a"; Notepad.demo_note "n2" "b"; Notepad.demo_note "n1" "c"]
  = [Notepad.demo_note "n1" "a"; Notepad.demo_note "n2" "b"]
  ∧ Notepad.uniqueById Notepad.note_id
      [Notepad.demo_note "n1" "a"; Notepad.demo_note "n2" "b"]
    = [Notepad.demo_note "n1" "a"; Notepad.demo_note "n2" "b"].
Proof.
  split; [reflexivity |].
  apply (X22_uniqueById_keeps_first Notepad.note_id
           [Notepad.demo_note "n1" "a"; Notepad.demo_note "n2" "b"]).
Defined.

Section notes_updaters.
Context {R : Type}.
Implicit Types (prev : list (Notepad.NoteState R)).

Lemma update_note_ids (id : string) (f : Notepad.NoteState R → Notepad.NoteState R) prev :
  (∀ note, Notepad.note_id (f note) = Notepad.note_id note) →
  Notepad.note_id <$> Notepad.update_note id f prev = Notepad.note_id <$> prev.
Proof.
  intros Hf. unfold Notepad.update_note. rewrite <- list_fmap_compose.
  apply list_fmap_ext. intros i note _. cbn. by case_decide.
Qed.

Lemma filter_ids_NoDup (P : Notepad.NoteState R → Prop) `{!∀ x, Decision (P x)} prev :
  NoDup (Notepad.note_id <$> prev) → NoDup (Notepad.note_id <$> filter P prev).
Proof.
  induction prev as [| note prev IH]; [done |].
  rewrite fmap_cons, NoDup_cons. intros [Hnote Hrest].
  destruct (decide (P note)).
  - rewrite filter_cons_True, fmap_cons by done. constructor; [| by apply IH].
    intros (x & Heq & Hx)%list_elem_of_fmap. apply Hnote. rewrite Heq.
    apply list_elem_of_fmap_2. by apply list_elem_of_filter in Hx as [_ Hx].
  - rewrite filter_cons_False by done. by apply IH.
Qed.

Lemma notes_step_distinct prev (ev : Notepad.NotesEvent) :
  NoDup (Notepad.note_id <$> prev) →
  NoDup (Notepad.note_id <$> Notepad.notes_step prev ev).
Proof.
  intros Hnodup. destruct ev as [id saving | payload | note | selected | selected value
                                 | selected value | note | id]; cbn [Notepad.notes_step].
  - unfold Notepad.markSaving. by rewrite update_note_ids.
  - unfold Notepad.applyIncomingUpdate. by rewrite update_note_ids.
  - unfold Notepad.handleCreateNote. rewrite fmap_cons. constructor.
    + intros (item & Heq & Hitem)%list_elem_of_fmap.
      by apply list_elem_of_filter in Hitem as [Hne _].
    + by apply filter_ids_NoDup.
  - unfold Notepad.handleDeleteNote. rewrite uniqueById_first. apply first_by_id_NoDup.
  - unfold Notepad.handleTitleChange. by rewrite update_note_ids.
  - unfold Notepad.handleContentChange. by rewrite update_note_ids.
  - unfold Notepad.handleCreated. cbv zeta. case_bool_decide as Hexists.
    + replace (Notepad.note_id <$> _) with (Notepad.note_id <$> prev); [done |].
      rewrite <- list_fmap_compose. apply list_fmap_ext. intros i item _. cbn.
      by case_decide.
    + rewrite fmap_cons. constructor; [| done].
      intros (item & Heq & Hitem)%list_elem_of_fmap. apply Hexists, Exists_exists.
      by exists item.
  - unfold Notepad.handleDeleted. by apply filter_ids_NoDup.
Qed.

Lemma notes_after_distinct (initialNotes : list (Notepad.NoteState R))
    (events : list Notepad.NotesEvent) :
  NoDup (Notepad.note_id <$> Notepad.notes_after initialNotes events).
Proof.
  unfold Notepad.notes_after.
  induction events as [| ev events IH] using rev_ind.
  - cbn [foldl]. rewrite uniqueById_first. apply first_by_id_NoDup.
  - rewrite foldl_snoc. by apply notes_step_distinct.
Qed.

End notes_updaters.

(** X23. Whatever happens to the list of notes (a note created or deleted
    here or by a peer, a title or content edited here or by a peer, a note
    marked as being saved), and whatever the initial notes are, the notes of
    the list have pairwise distinct identifiers.  So the list shown,
    [uniqueById(notes)], is the list itself, and at most one note has the
    selected identifier. *)
Theorem X23_notes_ids_distinct {R : Type} (initialNotes : list (Notepad.NoteState R))
    (events : list Notepad.NotesEvent) (selectedNoteId : string) :
  let notes := Notepad.notes_after initialNotes events in
  NoDup (Notepad.note_id <$> notes)
  ∧ Notepad.notesList notes = notes
  ∧ (length (filter (λ note, Notepad.note_id note = selectedNoteId) notes) ≤ 1)%nat.
Proof.
  intros notes. pose proof (notes_after_distinct initialNotes events) as Hnodup.
  fold notes in Hnodup. split; [done |]. split.
  - unfold Notepad.notesList. rewrite uniqueById_first.
    apply first_by_id_distinct; [done |]. intros x _. by apply not_elem_of_empty.
  - clear -Hnodup. induction notes as [| note notes IH]; [cbn; lia |].
    rewrite fmap_cons in Hnodup. apply NoDup_cons in Hnodup as [Hnote Hrest].
    destruct (decide (Notepad.note_id note = selectedNoteId)) as [Heq | Hne].
    + rewrite filter_cons_True by done. cbn [length].
      rewrite (filter_nil_Forall _ notes); [cbn; lia |].
      apply Forall_forall. intros x Hx Hid. apply Hnote. rewrite Heq, <- Hid.
      by apply list_elem_of_fmap_2.
    + rewrite filter_cons_False by done. by apply IH.
Qed.

(** ** Saving a folder *)

Lemma zip_entries_ready (l : list IncomingTransfer) :
  Forall ready l → zip_entries l = zip_entry_of <$> l.
Proof.
  unfold zip_entries. induction 1 as [| t l [_ [b Hb]] _ IH]; [done |].
  cbn [omap list_omap fmap list_fmap]. rewrite Hb. cbn.
  f_equal; [| exact IH]. unfold zip_entry_of. by rewrite Hb.
Qed.

Lemma removelast_last {A : Type} (l : list A) (d : A) :
  l ≠ [] → removelast l ++ [List.last l d] = l.
Proof. intros Hne. symmetry. by apply app_removelast_last. Qed.

Lemma directory_entry_path (t : IncomingTransfer) (folder : string) :
  folder_of t = Some folder →
  head (written_path (directory_entry t)) = Some folder
  ∧ written_content (directory_entry t) = Some (default [] (blob t)).
Proof.
  unfold folder_of, directory_entry. destruct (relativePath (meta t)) as [p |]; [| done].
  case_decide as Hfirst; [done |]. intros [= <-]. cbn [default from_option id].
  split; [| done]. cbn [written_path].
  destruct (split_slash_head p) as [rest ->].
  rewrite filter_cons_True by done.
  by rewrite removelast_last.
Qed.

Lemma zip_names_distinct (members : list IncomingTransfer) :
  Forall (λ t, is_Some (relativePath (meta t))) members →
  NoDup ((λ t, relativePath (meta t)) <$> members) →
  NoDup ((zip_entry_of <$> members).*1).
Proof.
  intros Hpaths Hnodup. rewrite <- list_fmap_compose.
  apply (NoDup_fmap_1 Some). rewrite <- list_fmap_compose.
  replace ((Some ∘ (fst ∘ zip_entry_of)) <$> members)
    with ((λ t, relativePath (meta t)) <$> members); [done |].
  apply Forall_fmap_ext_1. apply (Forall_impl _ _ _ Hpaths).
  intros t [p Hp]. unfold compose, zip_entry_of. cbn [fst]. by rewrite Hp.
Qed.

(** X24. Saving a folder all of whose files are complete with their payload
    hands over every one of them, in arrival order, and nothing else.
    Without the directory picker, [zip.file] is called once for each file of
    the folder, with its relativePath and its payload, no file being skipped,
    and the archive is offered under the folder's name followed by [.zip];
    when the relativePaths of the files of the folder are pairwise distinct,
    no two of the calls name the same entry.  With the picker, each file is
    written, with its payload, at a path that starts with the folder's
    name. *)
Theorem X24_save_covers_folder (incoming : list IncomingTransfer) (folder : string)
    (ui : FolderUi) :
  let members := filter (λ t, folder_of t = Some folder) incoming in
  members ≠ [] → Forall ready members →
  handleSaveFolder zip_ok folder incoming ui
  = ({| folderActionMessage := Some (msg_zipped folder); processingFolder := None |},
     [download_zip (folder ++ ".zip")%string (zip_entry_of <$> members)])
  ∧ Forall (λ t, relativePath (meta t) = Some (zip_entry_of t).1
                 ∧ blob t = Some (zip_entry_of t).2) members
  ∧ (NoDup ((λ t, relativePath (meta t)) <$> members) →
     NoDup ((zip_entry_of <$> members).*1))
  ∧ handleSaveFolder directory_ok folder incoming ui
    = ({| folderActionMessage := Some (msg_saved folder); processingFolder := None |},
       directory_entry <$> members)
  ∧ Forall (λ t, head (written_path (directory_entry t)) = Some folder
                 ∧ Some <$> written_content (directory_entry t) = Some (blob t)) members.
Proof.
  intros members Hne Hready.
  destruct (folderGroups_exact incoming) as (Hnodup & Hexact & Hcover).
  rewrite Forall_forall in Hexact.
  assert (Hgroup : ∃ g, g ∈ folderGroups incoming ∧ folderName g = folder).
  { destruct members as [| t rest] eqn:Hmembers; [done |].
    assert (Ht : t ∈ filter (λ t, folder_of t = Some folder) incoming).
    { fold members. rewrite Hmembers. by left. }
    apply list_elem_of_filter in Ht as [Hfolder Ht].
    pose proof (Hcover t folder Ht Hfolder) as Hname.
    apply list_elem_of_fmap in Hname as (g & -> & Hg). by exists g. }
  destruct Hgroup as (g & Hg & <-).
  destruct (Hexact g Hg) as (Hfiles & _). fold members in Hfiles.
  assert (Hpaths : Forall (λ t, is_Some (relativePath (meta t))) members).
  { apply Forall_forall. intros t Ht. apply list_elem_of_filter in Ht as [Hfolder _].
    unfold folder_of in Hfolder. destruct (relativePath (meta t)); [by eexists | done]. }
  unfold handleSaveFolder. rewrite (find_group _ g Hnodup Hg), Hfiles.
  rewrite (proj2 (existsb_incomplete members) Hready).
  split; [by rewrite zip_entries_ready |]. split; [| split; [| split; [done |]]].
  - apply Forall_forall. intros t Ht.
    rewrite Forall_forall in Hpaths, Hready.
    destruct (Hpaths t Ht) as [p Hp]. destruct (Hready t Ht) as [_ [b Hb]].
    unfold zip_entry_of. cbn [fst snd]. by rewrite Hp, Hb.
  - by apply zip_names_distinct.
  - apply Forall_forall. intros t Ht.
    assert (Hfolder : folder_of t = Some (folderName g)).
    { by apply list_elem_of_filter in Ht as [? _]. }
    destruct (directory_entry_path t _ Hfolder) as [Hhead ->]. split; [done |].
    rewrite Forall_forall in Hready. destruct (Hready t Ht) as [_ [b ->]]. done.
Qed.

Lemma X24_save_covers_folder_witness :
  let incoming := [demo_docs_a; demo_loose; demo_docs_b_done; demo_rooted] in
  handleSaveFolder zip_ok "docs" incoming demo_ui
  = ({| folderActionMessage := Some (msg_zipped "docs"); processingFolder := None |},
     [download_zip "docs.zip" [("docs/a.txt", demo_chunk0); ("docs/sub/b.txt", demo_chunk1)]])
  ∧ (handleSaveFolder directory_ok "docs" incoming demo_ui).2
    = [write_file ["docs"] "a.txt" demo_chunk0; write_file ["docs"; "sub"] "b.txt" demo_chunk1].
Proof.
  intros incoming.
  destruct (X24_save_covers_folder incoming "docs" demo_ui) as (Hzip & _ & _ & Hdir & _).
  - discriminate.
  - repeat constructor; by eexists.
  - split; [exact Hzip |]. by rewrite Hdir.
Defined.

(** ** Queueing the picked files *)

Lemma str_startsWith_iff (p s : string) :
  str_startsWith p s = true ↔ ∃ after : string, s = (p ++ after)%string.
Proof.
  revert s. induction p as [| a p IH]; intros s; cbn [str_startsWith].
  - split; [intros _; by exists s | done].
  - destruct s as [| b s].
    + split; [done | intros [after Hafter]; discriminate].
    + rewrite andb_true_iff, bool_decide_eq_true, IH. split.
      * intros [-> [after ->]]. by exists after.
      * intros [after [= -> ->]]. split; [done | by exists after].
Qed.

Lemma includes_iff (p s : string) : includes p s = true ↔ occurs_in p s.
Proof.
  unfold occurs_in. induction s as [| c s IH]; cbn [includes];
    rewrite orb_true_iff, str_startsWith_iff.
  - split.
    + intros [[after Hafter] | ?]; [| done]. by exists EmptyString, after.
    + intros (before & after & Heq). left.
      destruct before as [| b before]; [by exists after | discriminate].
  - rewrite IH. split.
    + intros [[after Hafter] | (before & after & ->)].
      * by exists EmptyString, after.
      * by exists (String c before), after.
    + intros (before & after & Heq). destruct before as [| b before].
      * left. by exists after.
      * right. injection Heq as -> ->. by exists before, after.
Qed.

Lemma endsWith_iff (suffix s : string) :
  endsWith suffix s = true ↔ ∃ before : string, s = (before ++ suffix)%string.
Proof.
  induction s as [| c s IH]; cbn [endsWith]; rewrite orb_true_iff, bool_decide_eq_true.
  - split.
    + intros [<- | ?]; [| done]. by exists EmptyString.
    + intros [before Heq]. left. destruct before; [done | discriminate].
  - rewrite IH. split.
    + intros [<- | [before ->]]; [by exists EmptyString | by exists (String c before)].
    + intros [before Heq]. destruct before as [| b before]; [by left |].
      right. injection Heq as -> ->. by exists before.
Qed.

Lemma excluded_directory (dir path : string) :
  dir ∈ excluded_directories → occurs_in (dir ++ "/") path → excluded_path path.
Proof. intros Hdir Hpath. left. by exists dir. Qed.

Lemma not_excluded_iff (file : File) :
  not_excluded file = false ↔ excluded_path (path_or_name file).
Proof.
  unfold not_excluded, excluded_path. rewrite negb_false_iff.
  generalize (path_or_name file). intros path.
  change (existsb (pattern_matches path) excludePatterns)
    with (includes "node_modules/" path || (includes ".git/" path || (includes ".next/" path
          || (includes "dist/" path || (includes "build/" path || (includes ".cache/" path
          || (includes "coverage/" path || (includes ".nyc_output/" path
          || (includes "logs/" path || (endsWith ".log" path || (includes ".DS_Store" path
          || (includes "Thumbs.db" path || false)))))))))))).
  rewrite !orb_true_iff, !includes_iff, endsWith_iff. split.
  - intros [H | [H | [H | [H | [H | [H | [H | [H | [H | [H | [H | [H | H]]]]]]]]]]]].
    + by apply (excluded_directory "node_modules"); [apply (bool_decide_unpack _) |].
    + by apply (excluded_directory ".git"); [apply (bool_decide_unpack _) |].
    + by apply (excluded_directory ".next"); [apply (bool_decide_unpack _) |].
    + by apply (excluded_directory "dist"); [apply (bool_decide_unpack _) |].
    + by apply (excluded_directory "build"); [apply (bool_decide_unpack _) |].
    + by apply (excluded_directory ".cache"); [apply (bool_decide_unpack _) |].
    + by apply (excluded_directory "coverage"); [apply (bool_decide_unpack _) |].
    + by apply (excluded_directory ".nyc_output"); [apply (bool_decide_unpack _) |].
    + by apply (excluded_directory "logs"); [apply (bool_decide_unpack _) |].
    + by do 3 right.
    + by right; left.
    + by do 2 right; left.
    + done.
  - intros [(dir & Hdir & H) | [H | [H | H]]].
    + unfold excluded_directories in Hdir.
      repeat (apply elem_of_cons in Hdir as [-> | Hdir]; [tauto |]).
      by apply elem_of_nil in Hdir.
    + tauto.
    + tauto.
    + tauto.
Qed.

Lemma imap_to_queued_files (ids : nat → string) (l : list File) :
  q_file <$> imap (λ i file, to_queued (ids i) file) l = l.
Proof.
  revert ids. induction l as [| file l IH]; intros ids; [done |].
  cbn [imap fmap list_fmap]. f_equal. apply (IH (ids ∘ S)).
Qed.

Lemma length_filter_split (l : list File) :
  (length (filter (λ file, not_excluded file = true) l)
   + length (filter (λ file, not_excluded file = false) l))%nat = length l.
Proof.
  induction l as [| file l IH]; [done |]. rewrite !filter_cons.
  destruct (not_excluded file) eqn:Hfile; repeat case_decide; try done; cbn [length]; lia.
Qed.

(** X25. [enqueueFiles] appends to the queue, after what was queued before
    and in the order picked, one entry for each picked file that is not
    excluded; each entry carries the name, size and type of its file, and
    its relativePath is the file's when that is not empty and is absent
    otherwise.  A file is excluded exactly when its path (its
    relativePath, or its name when it has none) contains one of the excluded
    directory names followed by [/] anywhere, also as the end of a longer
    name, or contains [.DS_Store] or [Thumbs.db], or ends in [.log].  The
    message is replaced, by one giving the number of excluded files, exactly
    when a file was excluded.  Without files nothing changes. *)
Theorem X25_enqueue_appends_kept_files (ids : nat → string) (fileList : option (list File))
    (st : PickerState) :
  let files := default [] fileList in
  let st' := enqueueFiles ids fileList st in
  let dropped := filter (λ file, not_excluded file = false) files in
  (∀ file, not_excluded file = false ↔ excluded_path (path_or_name file))
  ∧ (∃ added, picker_queue st' = picker_queue st ++ added
       ∧ q_file <$> added = filter (λ file, not_excluded file = true) files
       ∧ Forall (λ q, q_name q = file_name (q_file q) ∧ q_size q = file_size (q_file q)
                      ∧ q_type q = file_type (q_file q)
                      ∧ q_relativePath q ≠ Some EmptyString
                      ∧ ∀ c p, q_relativePath q = Some (String c p)
                               ↔ webkitRelativePath (q_file q) = Some (String c p)) added)
  ∧ picker_message st'
    = (if decide (dropped = []) then picker_message st
       else Some (msg_filtered (length dropped)))
  ∧ (files = [] → st' = st).
Proof.
  intros files st' dropped. split; [apply not_excluded_iff |].
  pose proof (length_filter_split files) as Hlen. fold dropped in Hlen.
  destruct fileList as [[| file rest] |]; cbn [default from_option id] in files.
  - subst st'. cbn [enqueueFiles]. split; [exists []; by rewrite app_nil_r |]. done.
  - set (picked := file :: rest) in *. subst st'.
    change (enqueueFiles ids (Some picked) st)
      with {| picker_queue := picker_queue st
                ++ imap (λ i file, to_queued (ids i) file)
                     (filter (λ file, not_excluded file = true) picked);
              picker_message :=
                if decide (length (filter (λ file, not_excluded file = true) picked)
                           ≠ length picked)
                then Some (msg_filtered
                             (length picked
                              - length (filter (λ file, not_excluded file = true) picked)))
                else picker_message st |}.
    cbn [picker_queue picker_message]. split; [| split; [| done]].
    + eexists. split; [done |]. split; [apply imap_to_queued_files |].
      apply Forall_forall. intros q Hq. apply list_elem_of_lookup in Hq as [i Hq].
      rewrite list_lookup_imap in Hq.
      destruct (filter (λ file, not_excluded file = true) picked !! i) as [f |]; [| done].
      injection Hq as <-. cbn [to_queued q_name q_file q_size q_type q_relativePath].
      split; [done |]. split; [done |]. split; [done |].
      destruct (webkitRelativePath f) as [[| c p] |]; cbn [truthy_string]; done.
    + fold files. destruct (decide (dropped = [])) as [Hnone | Hsome].
      * rewrite Hnone in Hlen. cbn [length] in Hlen. rewrite decide_False by lia. done.
      * assert (length dropped ≠ 0%nat) by (by destruct dropped).
        rewrite decide_True by lia. do 2 f_equal. lia.
  - subst st'. cbn [enqueueFiles]. split; [exists []; by rewrite app_nil_r |]. done.
Qed.

Lemma X25_enqueue_appends_kept_files_witness :
  let st := {| picker_queue := [demo_queued]; picker_message := None |} in
  let st' := enqueueFiles (λ i, pretty i) (Some demo_picked) st in
  q_name <$> picker_queue st' = ["a.txt"; "a.txt"]
  ∧ picker_message st' = Some (msg_filtered 2)
  ∧ enqueueFiles (λ i, pretty i) (Some []) st = st.
Proof.
  intros st st'.
  destruct (X25_enqueue_appends_kept_files (λ i, pretty i) (Some demo_picked) st)
    as (_ & _ & Hmessage & _).
  destruct (X25_enqueue_appends_kept_files (λ i, pretty i) (Some []) st)
    as (_ & _ & _ & Hnothing).
  split; [reflexivity |]. split; [exact Hmessage | by apply Hnothing].
Defined.
